(** * trio: worker-thread cache, kqueue entry points and the test Sequencer

  A shallow embedding of three files of the repository:
  - [trio/_core/_thread_cache.py]: the process-wide cache of worker
    threads, embedded as an interleaving transition system whose atomic
    steps are the source lines that touch shared state;
  - [trio/_core/_generated_io_kqueue.py]: the generated wrappers that look
    up the active runner;
  - [trio/testing/_sequencer.py]: the Sequencer context manager. *)

From stdpp Require Import base numbers option list strings gmap pretty.
From Stdlib Require Import ZArith Lia.


(** ** Python values, exceptions and call results *)

Inductive pyval :=
| PyNone
| PyInt (z : Z)
| PyStr (s : string).

(** An exception instance: the name of its class as a traceback prints it
    (bare for a builtin class, qualified by its module otherwise), the names
    of the classes that class inherits from (the rest of
    [type(e).__mro__]), and its message [str(e)]. *)
Record pyexc := mkExc {
  exc_type : string;
  exc_bases : list string;
  exc_msg : string }.

(** [isinstance(e, cls)], for a class given by its name: the class of [e]
    or one of its bases. *)
Definition isinstance (e : pyexc) (cls : string) : bool :=
  bool_decide (cls ∈ exc_type e :: exc_bases e).

Global Instance pyexc_eq_dec : EqDecision pyexc.
Proof. solve_decision. Defined.

(** What calling a Python callable does: return a value or raise. *)
Inductive pyresult (A : Type) :=
| PyReturn (a : A)
| PyRaise (e : pyexc).
Arguments PyReturn {A} a.
Arguments PyRaise {A} e.

(** What a builtin class deriving from [Exception] directly inherits from. *)
Definition Exception_mro : list string :=
  ["Exception"; "BaseException"; "object"].

Definition RuntimeError (msg : string) : pyexc :=
  mkExc "RuntimeError" Exception_mro msg.
Definition AttributeError (msg : string) : pyexc :=
  mkExc "AttributeError" Exception_mro msg.
Definition TypeError (msg : string) : pyexc :=
  mkExc "TypeError" Exception_mro msg.

(** The [outcome] library's tagged result. *)
Inductive Outcome :=
| Value (v : pyval)
| Error (e : pyexc).

(** Modelled from the spec: [outcome.capture] belongs to the external
  [outcome] package; the spec describes it as the boundary that turns a
  normal return into a success value and any raised failure into a failure
  value. *)
Definition capture (sync_fn : unit → pyresult pyval) : Outcome :=
match sync_fn tt with
| PyReturn v => Value v
| PyRaise e => Error e
end.

(** ** The idle registry: an insertion-ordered [dict] whose values are all
  [None], kept as the list of its keys, oldest first. *)
Module Dict.

(** [d[k] = None]: a key already present keeps its place. *)
Definition setitem (d : list nat) (k : nat) : list nat :=
  if decide (k ∈ d) then d else d ++ [k].

(** [d.popitem()]: the most recently inserted key, or [None] for
    [KeyError] on an empty dict. *)
Fixpoint popitem (d : list nat) : option (nat * list nat) :=
  match d with
  | [] => None
  | k :: d' =>
      match popitem d' with
      | None => Some (k, [])
      | Some (x, r) => Some (x, k :: r)
      end
  end.

(** [del d[k]]: [None] stands for [KeyError]. *)
Definition delitem (d : list nat) (k : nat) : option (list nat) :=
  if decide (k ∈ d) then Some (filter (λ x, x ≠ k) d) else None.

End Dict.

(** ** The thread cache

    The cache is embedded as a transition system over the one process-wide
    [ThreadCache] and the threads that use it. A step is one source line
    that reads or writes shared state; as the header of the source file
    assumes, [__setitem__], [__delitem__] and [popitem] on the registry are
    atomic with respect to each other. A worker object is named by the
    order of its creation and the registry holds these names. A call of
    [start_thread_soon] is named by the order of its arrival, and the job
    tuple it builds carries that name, so that executions and deliveries
    can be counted per submission. [fn] and [deliver] are calls that return
    or raise; a call of [start_thread_soon] made from inside [deliver] is,
    for the shared state, one more call arriving while the worker is at
    line 73. In [step] the creation of a thread succeeds; [fstep] adds the
    step in which [thread.start()] raises. *)
Module ThreadCache.

Definition IDLE_TIMEOUT : Z := 10.

(** A job is the pair [(fn, deliver)] handed to [start_thread_soon]. *)
Record Job := mkJob {
  fn : unit → pyresult pyval;
  deliver : Outcome → pyresult unit }.

(** Control points of a worker's backing thread, named after the source
    line about to run. The frame's locals ride along; [j] is the identity
    of the job tuple (the index of the call that built it). *)
Inductive wpc :=
| AtAcquire                                   (* line 80 *)
| AtRead                                      (* line 64 *)
| AtClear (j : nat) (jb : Job)                (* line 65 *)
| AtCapture (j : nat) (jb : Job)              (* line 66 *)
| AtRegister (j : nat) (jb : Job) (r : Outcome) (* line 71 *)
| AtDeliver (j : nat) (jb : Job) (r : Outcome)  (* lines 72-76 *)
| AtTimedOut                                  (* line 88 *)
| Exited                                      (* line 98 *)
| Crashed (e : pyexc).

Record WorkerThread := mkWorker {
  _job : option (nat * Job);
  _worker_lock : bool;          (* true: locked, no pending job *)
  thread_daemon : bool;
  thread_name : string;
  thread_at : wpc }.

Definition set_job (o : option (nat * Job)) (W : WorkerThread) :=
  mkWorker o (_worker_lock W) (thread_daemon W) (thread_name W) (thread_at W).
Definition set_lock (b : bool) (W : WorkerThread) :=
  mkWorker (_job W) b (thread_daemon W) (thread_name W) (thread_at W).
Definition set_at (p : wpc) (W : WorkerThread) :=
  mkWorker (_job W) (_worker_lock W) (thread_daemon W) (thread_name W) p.

(** [WorkerThread.__init__]: empty slot, lock taken, daemon thread named
    after the shared counter and started at the top of [_work]. *)
Definition WorkerThread__init__ (counter : nat) : WorkerThread :=
  {| _job := None;
     _worker_lock := true;
     thread_daemon := true;
     thread_name := "Trio worker thread " +:+ pretty counter;
     thread_at := AtAcquire |}.

(** Control points of one invocation of [ThreadCache.start_thread_soon]. *)
Inductive cpc :=
| CallPop                 (* line 107 *)
| CallSpawn               (* line 109 *)
| CallWrite (w : nat)     (* line 110 *)
| CallRelease (w : nat)   (* line 111 *)
| CallReturned
| CallRaised (e : pyexc).

Record Call := mkCall { call_job : Job; call_at : cpc }.

(** What an observer of the pool sees; the [trace] of a state is the
    history of these, oldest first. *)
Inductive event :=
| EvPop (c w : nat)
| EvSpawn (c w : nat)
| EvExec (w j : nat) (r : Outcome)
| EvRegister (w j : nat)
| EvDeliver (w j : nat) (r : Outcome)
| EvExit (w : nat).

(** [THREAD_CACHE._idle_workers], every [WorkerThread] built so far with
    its thread, the module's [name_counter], the calls of
    [start_thread_soon] made so far, and what was observed and printed. *)
Record State := mkState {
  _idle_workers : list nat;
  workers : list WorkerThread;
  name_counter : nat;
  calls : list Call;
  trace : list event;
  stderr : list string }.

Definition THREAD_CACHE : State :=
  {| _idle_workers := []; workers := []; name_counter := 0;
     calls := []; trace := []; stderr := [] |}.

Definition set_idle (d : list nat) (s : State) :=
  mkState d (workers s) (name_counter s) (calls s) (trace s) (stderr s).
Definition set_worker (w : nat) (W : WorkerThread) (s : State) :=
  mkState (_idle_workers s) (<[w := W]> (workers s)) (name_counter s)
          (calls s) (trace s) (stderr s).
Definition add_worker (W : WorkerThread) (s : State) :=
  mkState (_idle_workers s) (workers s ++ [W]) (S (name_counter s))
          (calls s) (trace s) (stderr s).
Definition moved_to (p : cpc) (cl : Call) : Call := mkCall (call_job cl) p.
Definition set_call (c : nat) (cl : Call) (s : State) :=
  mkState (_idle_workers s) (workers s) (name_counter s)
          (<[c := cl]> (calls s)) (trace s) (stderr s).
Definition add_call (cl : Call) (s : State) :=
  mkState (_idle_workers s) (workers s) (name_counter s)
          (calls s ++ [cl]) (trace s) (stderr s).
Definition log (e : event) (s : State) :=
  mkState (_idle_workers s) (workers s) (name_counter s) (calls s)
          (trace s ++ [e]) (stderr s).
Definition print_stderr (lines : list string) (s : State) :=
  mkState (_idle_workers s) (workers s) (name_counter s) (calls s)
          (trace s) (stderr s ++ lines).

(** The last line [traceback] prints for an exception: "Type: message",
    or "Type" alone when the message is empty. *)
Definition format_exception_only (e : pyexc) : string :=
  if decide (exc_msg e = "") then exc_type e
  else exc_type e +:+ ": " +:+ exc_msg e.

(** [traceback.print_exception(type(e), e, e.__traceback__)] for an
    exception with no cause or context: the header, the stack entries and
    the last line. The stack entries depend on the text of the functions
    the exception passed through and are left out. *)
Definition print_exception (e : pyexc) : list string :=
  [ "Traceback (most recent call last):"; format_exception_only e ].

(** One atomic step of call [c] of [ThreadCache.start_thread_soon]. At
    line 109 the thread is created and started; a [thread.start()] that
    raises is the separate step [start_fails] below. *)
Definition start_thread_soon_step (c : nat) (s : State) : option State :=
  cl ← calls s !! c;
  match call_at cl with
  | CallPop =>
      match Dict.popitem (_idle_workers s) with
      | Some (w, d') =>
          Some (log (EvPop c w) (set_call c (moved_to (CallWrite w) cl) (set_idle d' s)))
      | None => Some (set_call c (moved_to CallSpawn cl) s)
      end
  | CallSpawn =>
      let w := length (workers s) in
      Some (log (EvSpawn c w)
              (set_call c (moved_to (CallWrite w) cl)
                 (add_worker (WorkerThread__init__ (name_counter s)) s)))
  | CallWrite w =>
      W ← workers s !! w;
      Some (set_call c (moved_to (CallRelease w) cl)
              (set_worker w (set_job (Some (c, call_job cl)) W) s))
  | CallRelease w =>
      W ← workers s !! w;
      if _worker_lock W
      then Some (set_call c (moved_to CallReturned cl) (set_worker w (set_lock false W) s))
      else Some (set_call c (moved_to (CallRaised (RuntimeError "release unlocked lock")) cl) s)
  | CallReturned | CallRaised _ => None
  end.

(** One atomic step of the thread of worker [w]: [_work] with
    [_handle_job] inlined. A worker blocked in [acquire] has no step. *)
Definition _work_step (w : nat) (s : State) : option State :=
  W ← workers s !! w;
  match thread_at W with
  | AtAcquire =>
      if _worker_lock W then None
      else Some (set_worker w (set_at AtRead (set_lock true W)) s)
  | AtRead =>
      match _job W with
      | Some (j, jb) => Some (set_worker w (set_at (AtClear j jb) W) s)
      | None =>
          Some (set_worker w
                  (set_at (Crashed (TypeError "cannot unpack non-iterable NoneType object")) W) s)
      end
  | AtClear j jb =>
      Some (set_worker w (set_at (AtCapture j jb) (set_job None W)) s)
  | AtCapture j jb =>
      let result := capture (fn jb) in
      Some (log (EvExec w j result)
              (set_worker w (set_at (AtRegister j jb result) W) s))
  | AtRegister j jb result =>
      Some (log (EvRegister w j)
              (set_worker w (set_at (AtDeliver j jb result) W)
                 (set_idle (Dict.setitem (_idle_workers s) w) s)))
  | AtDeliver j jb result =>
      let s' := log (EvDeliver w j result)
                  (set_worker w (set_at AtAcquire W) s) in
      match deliver jb result with
      | PyReturn _ => Some s'
      | PyRaise e =>
          Some (print_stderr
                  ("Exception while delivering result of thread"
                     :: print_exception e) s')
      end
  | AtTimedOut =>
      match Dict.delitem (_idle_workers s) w with
      | Some d' =>
          Some (log (EvExit w) (set_worker w (set_at Exited W) (set_idle d' s)))
      | None => Some (set_worker w (set_at AtAcquire W) s)
      end
  | Exited | Crashed _ => None
  end.

(** [acquire(timeout=IDLE_TIMEOUT)] returning [False]: only a worker
    still blocked on a locked lock can time out. *)
Definition _work_timeout (w : nat) (s : State) : option State :=
  W ← workers s !! w;
  match thread_at W with
  | AtAcquire =>
      if _worker_lock W
      then Some (set_worker w (set_at AtTimedOut W) s)
      else None
  | _ => None
  end.

(** Scheduler choices: a new call of [start_thread_soon] from any thread,
    one step of a call, one step of a worker, or a worker's wait elapsing. *)
Inductive label :=
| LSubmit (jb : Job)
| LCall (c : nat)
| LWorker (w : nat)
| LTimeout (w : nat).

Definition step (l : label) (s : State) : option State :=
  match l with
  | LSubmit jb => Some (add_call (mkCall jb CallPop) s)
  | LCall c => start_thread_soon_step c s
  | LWorker w => _work_step w s
  | LTimeout w => _work_timeout w s
  end.

Fixpoint run (ls : list label) (s : State) : option State :=
  match ls with
  | [] => Some s
  | l :: ls' => s' ← step l s; run ls' s'
  end.

Definition reachable (s : State) : Prop :=
  ∃ ls, run ls THREAD_CACHE = Some s.

(** *** Accounting for jobs

    [job_events j] keeps the executions and deliveries of job [j];
    [jstatus] says where a submitted job currently is; [Inv] ties the
    program state to such an assignment. *)

Definition about (j : nat) (e : event) : bool :=
  match e with
  | EvExec _ j' _ | EvDeliver _ j' _ => bool_decide (j' = j)
  | _ => false
  end.

Definition job_events (j : nat) (tr : list event) : list event :=
  List.filter (about j) tr.

Definition is_exec (e : event) : bool :=
  match e with EvExec _ _ _ => true | _ => false end.
Definition is_deliver (e : event) : bool :=
  match e with EvDeliver _ _ _ => true | _ => false end.

(** How often [fn] of job [j] was called, and how often its [deliver]. *)
Definition executions (j : nat) (s : State) : nat :=
  length (List.filter is_exec (job_events j (trace s))).
Definition deliveries (j : nat) (s : State) : nat :=
  length (List.filter is_deliver (job_events j (trace s))).

Inductive jstatus :=
| JNew                 (* not yet written into a worker's slot *)
| JSlot (w : nat)      (* sitting in the slot of worker [w] *)
| JTaken (w : nat)     (* worker [w] is about to call [fn] *)
| JRan (w : nat)       (* [fn] was called, worker [w] is about to register *)
| JReg (w : nat)       (* worker [w] is about to call [deliver] *)
| JDone.

Global Instance jstatus_eq_dec : EqDecision jstatus.
Proof. solve_decision. Defined.

(** The assignment [st] with job [j] moved to status [x]. *)
Definition upd (st : nat → jstatus) (j : nat) (x : jstatus) : nat → jstatus :=
  λ k, if decide (k = j) then x else st k.

(** The worker a call has taken out of the registry (or just created)
    and not yet released. *)
Definition claims (p : cpc) : option nat :=
  match p with
  | CallWrite w | CallRelease w => Some w
  | _ => None
  end.

(** Control points at which a worker may be registered as idle. *)
Definition parked (p : wpc) : Prop :=
  match p with
  | AtAcquire | AtTimedOut | AtDeliver _ _ _ => True
  | _ => False
  end.

(** What lock and slot look like at each control point: past the
    [acquire] the lock is held; the slot is full until line 65 clears it;
    a released lock means a job is in the slot; no thread has crashed. *)
Definition worker_ok (W : WorkerThread) : Prop :=
  match thread_at W with
  | AtRead => _worker_lock W = true ∧ _job W ≠ None
  | AtClear j jb => _worker_lock W = true ∧ _job W = Some (j, jb)
  | AtCapture _ _ | AtRegister _ _ _ | Exited =>
      _worker_lock W = true ∧ _job W = None
  | Crashed _ => False
  | AtAcquire | AtTimedOut | AtDeliver _ _ _ =>
      _worker_lock W = false → _job W ≠ None
  end.

(** The job in a worker's locals is the job of the call it is named
    after, and the result it carries is the captured result of that job's
    [fn]. *)
Definition pc_ok (st : nat → jstatus) (s : State) (w : nat) (p : wpc) : Prop :=
  match p with
  | AtCapture j jb =>
      st j = JTaken w ∧ ∃ cl, calls s !! j = Some cl ∧ call_job cl = jb
  | AtRegister j jb r =>
      st j = JRan w ∧ r = capture (fn jb) ∧
      ∃ cl, calls s !! j = Some cl ∧ call_job cl = jb
  | AtDeliver j jb r =>
      st j = JReg w ∧ r = capture (fn jb) ∧
      ∃ cl, calls s !! j = Some cl ∧ call_job cl = jb
  | _ => True
  end.

(** A call's job is new until line 110 writes it; no call has raised. *)
Definition call_ok (st : nat → jstatus) (c : nat) (p : cpc) : Prop :=
  match p with
  | CallPop | CallSpawn | CallWrite _ => st c = JNew
  | CallRelease w => st c = JSlot w
  | CallReturned => st c ≠ JNew
  | CallRaised _ => False
  end.

(** The worker a status points at, and what that worker must show. *)
Definition holder (x : jstatus) : option nat :=
  match x with
  | JSlot w | JTaken w | JRan w | JReg w => Some w
  | JNew | JDone => None
  end.

Definition witnesses (W : WorkerThread) (j : nat) (x : jstatus) : Prop :=
  match x with
  | JSlot _ => ∃ jb, _job W = Some (j, jb)
  | JTaken _ => ∃ jb, thread_at W = AtCapture j jb
  | JRan _ => ∃ jb r, thread_at W = AtRegister j jb r
  | JReg _ => ∃ jb r, thread_at W = AtDeliver j jb r
  | JNew | JDone => True
  end.

(** What has been observed of job [j], by its status. *)
Definition events_ok (st : nat → jstatus) (s : State) (j : nat) : Prop :=
  match st j with
  | JNew | JSlot _ | JTaken _ => job_events j (trace s) = []
  | JRan w | JReg w =>
      ∃ cl, calls s !! j = Some cl ∧
            job_events j (trace s) = [EvExec w j (capture (fn (call_job cl)))]
  | JDone =>
      ∃ w cl, calls s !! j = Some cl ∧
              job_events j (trace s) =
                [EvExec w j (capture (fn (call_job cl)));
                 EvDeliver w j (capture (fn (call_job cl)))]
  end.

(** The invariant of the pool: registered workers are waiting with the
    lock held and the slot empty; a worker held by a call is out of the
    registry and held by that call alone; every job is in exactly the place
    its status names. *)
Record Inv (s : State) (st : nat → jstatus) : Prop := {
  inv_nodup : NoDup (_idle_workers s);
  inv_idle_lt : ∀ w, w ∈ _idle_workers s → w < length (workers s);
  inv_idle : ∀ w W,
    w ∈ _idle_workers s → workers s !! w = Some W →
    _worker_lock W = true ∧ _job W = None ∧ parked (thread_at W);
  inv_claim_lt : ∀ c cl w,
    calls s !! c = Some cl → claims (call_at cl) = Some w →
    w < length (workers s) ∧ w ∉ _idle_workers s;
  inv_claim : ∀ c cl w W,
    calls s !! c = Some cl → claims (call_at cl) = Some w →
    workers s !! w = Some W →
    _worker_lock W = true ∧ parked (thread_at W) ∧
    _job W = match call_at cl with
             | CallRelease _ => Some (c, call_job cl)
             | _ => None
             end;
  inv_claim_uniq : ∀ c c' cl cl' w,
    calls s !! c = Some cl → calls s !! c' = Some cl' →
    claims (call_at cl) = Some w → claims (call_at cl') = Some w → c = c';
  inv_worker : ∀ w W, workers s !! w = Some W → worker_ok W;
  inv_slot : ∀ w W j jb,
    workers s !! w = Some W → _job W = Some (j, jb) →
    st j = JSlot w ∧
    ∃ cl, calls s !! j = Some cl ∧ call_job cl = jb ∧
          (call_at cl = CallRelease w ∨
           (call_at cl = CallReturned ∧
            (_worker_lock W = false ∨ ¬ parked (thread_at W))));
  inv_pc : ∀ w W, workers s !! w = Some W → pc_ok st s w (thread_at W);
  inv_call : ∀ c cl, calls s !! c = Some cl → call_ok st c (call_at cl);
  inv_fresh : ∀ j, length (calls s) ≤ j → st j = JNew;
  inv_where_lt : ∀ j w, holder (st j) = Some w → w < length (workers s);
  inv_where : ∀ j w W,
    holder (st j) = Some w → workers s !! w = Some W → witnesses W j (st j);
  inv_events : ∀ j, events_ok st s j }.

(** *** How much work is left

    Every step of a call or of a worker other than a wait elapsing
    lowers [remaining]. *)
Definition call_rank (cl : Call) : nat :=
  match call_at cl with
  | CallPop => 10
  | CallSpawn => 9
  | CallWrite _ => 8
  | CallRelease _ => 7
  | CallReturned | CallRaised _ => 0
  end.

Definition worker_rank (W : WorkerThread) : nat :=
  (if _worker_lock W then 0 else 6) +
  match thread_at W with
  | AtRead => 5
  | AtClear _ _ => 4
  | AtCapture _ _ => 3
  | AtRegister _ _ _ => 2
  | AtDeliver _ _ _ => 1
  | AtTimedOut => 1
  | AtAcquire | Exited | Crashed _ => 0
  end.

Definition remaining (s : State) : nat :=
  sum_list_with call_rank (calls s) + sum_list_with worker_rank (workers s).

(** Labels that are neither a new submission nor a wait elapsing. *)
Definition quiet (l : label) : bool :=
  match l with
  | LCall _ | LWorker _ => true
  | LSubmit _ | LTimeout _ => false
  end.

(** Job [j], built from [jb], ran once and was delivered once, by the
    worker that ran it and with the captured result of its own [fn]. *)
Definition ran_and_delivered (j : nat) (jb : Job) (s : State) : Prop :=
  ∃ w, job_events j (trace s) =
         [EvExec w j (capture (fn jb)); EvDeliver w j (capture (fn jb))].

Definition settled (s : State) : Prop :=
  ∀ j cl, calls s !! j = Some cl → ran_and_delivered j (call_job cl) s.

(** Later states keep every call made so far, with its job. *)
Definition calls_kept (s s' : State) : Prop :=
  ∀ j cl, calls s !! j = Some cl →
          ∃ cl', calls s' !! j = Some cl' ∧ call_job cl' = call_job cl.

(** Worker [w] has put itself back into the registry for job [j], and
    since then it is still there or some call has popped it. *)
Definition registered (s : State) (w j : nat) : Prop :=
  ∃ tr1 tr2, trace s = tr1 ++ EvRegister w j :: tr2 ∧
             (w ∈ _idle_workers s ∨ ∃ c, EvPop c w ∈ tr2).

Definition delivering_registered (s : State) : Prop :=
  ∀ w W j jb r,
    workers s !! w = Some W → thread_at W = AtDeliver j jb r →
    registered s w j.

(** Some call of [start_thread_soon] holds worker [w]: it took [w] out of
    the registry (or built it) and has not yet released its lock. *)
Definition claimed_by (s : State) (w : nat) : Prop :=
  ∃ c cl, calls s !! c = Some cl ∧ claims (call_at cl) = Some w.

(** A waiting worker that is neither registered nor released is held by a
    call. *)
Definition parked_claimed (s : State) : Prop :=
  ∀ w W,
    workers s !! w = Some W → parked (thread_at W) →
    w ∉ _idle_workers s → _worker_lock W = true → claimed_by s w.

(** *** Concrete jobs, schedules and states the statements are tried on *)

Definition job_seven : Job :=
  mkJob (λ _, PyReturn (PyInt 7)) (λ _, PyReturn tt).
Definition job_boom : Job :=
  mkJob (λ _, PyRaise (RuntimeError "boom")) (λ _, PyRaise (TypeError "bad")).

(** Two submissions in flight, neither written yet. *)
Definition C1_schedule : list label :=
  [LSubmit job_seven; LCall 0; LSubmit job_boom; LCall 1; LCall 0].
Definition C1_state : State :=
  Eval vm_compute in default THREAD_CACHE (run C1_schedule THREAD_CACHE).

(** Worker 0 runs the first job and registers; a second call pops it
    before it delivers. *)
Definition C2_schedule : list label :=
  [LSubmit job_seven; LCall 0; LCall 0; LCall 0; LCall 0;
   LWorker 0; LWorker 0; LWorker 0; LWorker 0; LWorker 0;
   LSubmit job_boom; LCall 1].
Definition C2_state : State :=
  Eval vm_compute in
    default THREAD_CACHE (run (take 10 C2_schedule) THREAD_CACHE).

(** Worker 0 has run a job, registered, delivered, and then waited in
    vain: its wait has just elapsed. *)
Definition C3_schedule : list label :=
  [LSubmit job_seven; LCall 0; LCall 0; LCall 0; LCall 0;
   LWorker 0; LWorker 0; LWorker 0; LWorker 0; LWorker 0; LWorker 0;
   LTimeout 0].
Definition C3_state : State :=
  Eval vm_compute in default THREAD_CACHE (run C3_schedule THREAD_CACHE).

(** Two idle workers, worker 0 registered last, and one call about to pop. *)
Definition two_idle : State :=
  {| _idle_workers := [1; 0];
     workers := [mkWorker None true true "Trio worker thread 0" AtAcquire;
                 mkWorker None true true "Trio worker thread 1" AtAcquire];
     name_counter := 2;
     calls := [mkCall job_seven CallPop]; trace := []; stderr := [] |}.

(** Worker 0 about to deliver the failure of [job_boom], whose [deliver]
    raises. *)
Definition delivering_boom : State :=
  {| _idle_workers := [0];
     workers := [mkWorker None true true "Trio worker thread 0"
                   (AtDeliver 0 job_boom (Error (RuntimeError "boom")))];
     name_counter := 1;
     calls := [mkCall job_boom CallReturned];
     trace := [EvSpawn 0 0; EvExec 0 0 (Error (RuntimeError "boom"));
               EvRegister 0 0];
     stderr := [] |}.

(** Worker 0 about to call the [fn] of [job_boom]. *)
Definition C6_schedule : list label :=
  [LSubmit job_boom; LCall 0; LCall 0; LCall 0; LCall 0;
   LWorker 0; LWorker 0; LWorker 0].
Definition C6_state : State :=
  Eval vm_compute in default THREAD_CACHE (run C6_schedule THREAD_CACHE).

(** *** Threads built, and schedules that serve one job at a time *)

(** A call that has not got its worker yet. *)
Definition unassigned (cl : Call) : nat :=
  match call_at cl with
  | CallPop | CallSpawn => 1
  | _ => 0
  end.

(** One job served from start to finish with nothing else scheduled in
    between: by a worker built for it, or by the idle worker 0. *)
Definition spawn_job (c w : nat) (jb : Job) : list label :=
  LSubmit jb :: replicate 4 (LCall c) ++ replicate 6 (LWorker w).

Definition next_job (c : nat) (jb : Job) : list label :=
  LSubmit jb :: replicate 3 (LCall c) ++ replicate 6 (LWorker 0).

Fixpoint sequential_from (c : nat) (jbs : list Job) : list label :=
  match jbs with
  | [] => []
  | jb :: jbs' => next_job c jb ++ sequential_from (S c) jbs'
  end.

(** Jobs submitted one after the other, each after the one before was
    delivered. *)
Definition sequential (jbs : list Job) : list label :=
  match jbs with
  | [] => []
  | jb :: jbs' => spawn_job 0 0 jb ++ sequential_from 1 jbs'
  end.

(** What [deliver] of a job makes the worker print. *)
Definition complaint (jb : Job) : list string :=
  match deliver jb (capture (fn jb)) with
  | PyReturn _ => []
  | PyRaise e => "Exception while delivering result of thread" :: print_exception e
  end.

(** What is seen of worker [w] serving job [jb] of call [c]. *)
Definition served (w c : nat) (jb : Job) : list event :=
  [EvExec w c (capture (fn jb)); EvRegister w c; EvDeliver w c (capture (fn jb))].

Definition returned (jb : Job) : Call := mkCall jb CallReturned.

Definition by_worker (w : nat) (e : event) : Prop :=
  match e with
  | EvPop _ w' | EvSpawn _ w' | EvExec w' _ _ | EvRegister w' _
  | EvDeliver w' _ _ | EvExit w' => w' = w
  end.

Fixpoint sequential_trace (c : nat) (jbs : list Job) : list event :=
  match jbs with
  | [] => []
  | jb :: jbs' => EvPop c 0 :: served 0 c jb ++ sequential_trace (S c) jbs'
  end.

(** The pool after [jb :: jbs] were served one after the other. *)
Definition after_sequential (jb : Job) (jbs : list Job) : State :=
  mkState [0] [WorkerThread__init__ 0] 1 (returned <$> (jb :: jbs))
          (EvSpawn 0 0 :: served 0 0 jb ++ sequential_trace 1 jbs)
          (concat (complaint <$> (jb :: jbs))).

(** One job submitted while worker 0 is idle, and the worker's wait
    elapses once before the lock is released: the timeout comes after [t]
    of the call's three steps (pop, write, release) and the worker's [del]
    after [d] of them. *)
Definition race (t d c : nat) (jb : Job) : list label :=
  LSubmit jb :: replicate t (LCall c) ++ LTimeout 0
    :: replicate (d - t) (LCall c) ++ LWorker 0
    :: replicate (3 - d) (LCall c) ++ replicate 6 (LWorker 0).

(** The wait elapses and the [del] runs before the call's pop: the call
    finds the registry empty and builds worker 1. *)
Definition exit_first (c : nat) (jb : Job) : list label :=
  [LSubmit jb; LTimeout 0; LWorker 0]
  ++ replicate 4 (LCall c) ++ replicate 6 (LWorker 1).

(** Call 0 has popped or built its worker and is about to write. *)
Definition X2_schedule : list label :=
  [LSubmit job_seven; LCall 0; LCall 0].

(** Worker 0 has left after an idle wait; a second job is then submitted. *)
Definition X5_state : State :=
  Eval vm_compute in
    default THREAD_CACHE (run (C3_schedule ++ [LWorker 0]) THREAD_CACHE).
Definition X5_later : list label := [LSubmit job_boom; LCall 1; LCall 1].
Definition X5_after : State :=
  Eval vm_compute in default THREAD_CACHE (run X5_later X5_state).

(** *** The order of the registry *)

(** The registry is kept in the order of registration: for each worker in
    it, no worker at or before its place has registered since it did. *)
Definition in_registration_order (s : State) : Prop :=
  ∀ d w d', _idle_workers s = d ++ w :: d' →
    ∃ tr1 j tr2, trace s = tr1 ++ EvRegister w j :: tr2 ∧
                 ∀ w' j', EvRegister w' j' ∈ tr2 → w' ∉ d ++ [w].

(** Worker 0 has called [fn] and is about to register. *)
Definition C7_state : State :=
  Eval vm_compute in
    default THREAD_CACHE (run (C6_schedule ++ [LWorker 0]) THREAD_CACHE).

(** Worker 0 has called the [fn] of [job_boom] and registered, and is about
    to call its [deliver]. *)
Definition C6_deliver_state : State :=
  Eval vm_compute in
    default THREAD_CACHE
      (run (C6_schedule ++ [LWorker 0; LWorker 0]) THREAD_CACHE).

(** *** Thread creation that fails

    [thread.start()] at line 59 raises when the system cannot start
    another thread. By then line 58 has taken the next value of
    [name_counter]; the exception leaves [__init__] and, not being a
    [KeyError], [start_thread_soon]; the worker object just built, which no
    thread runs and nothing refers to, is dropped. *)
Definition start_fails (c : nat) (e : pyexc) (s : State) : option State :=
  cl ← calls s !! c;
  match call_at cl with
  | CallSpawn =>
      Some (mkState (_idle_workers s) (workers s) (S (name_counter s))
              (<[c := moved_to (CallRaised e) cl]> (calls s))
              (trace s) (stderr s))
  | _ => None
  end.

(** Scheduler choices when thread creation may fail. *)
Inductive flabel :=
| FStep (l : label)
| FStartFails (c : nat) (e : pyexc).

Definition fstep (fl : flabel) (s : State) : option State :=
  match fl with
  | FStep l => step l s
  | FStartFails c e => start_fails c e s
  end.

Fixpoint frun (ls : list flabel) (s : State) : option State :=
  match ls with
  | [] => Some s
  | l :: ls' => s' ← fstep l s; frun ls' s'
  end.

(** How often [thread.start()] failed in a run. *)
Definition failures (ls : list flabel) : nat :=
  sum_list_with (λ fl, match fl with FStartFails _ _ => 1 | FStep _ => 0 end) ls.

(** The state with every call that raised put back at line 109, where it
    holds no worker and has written no job. *)
Definition mend_call (cl : Call) : Call :=
  match call_at cl with
  | CallRaised _ => moved_to CallSpawn cl
  | _ => cl
  end.

Definition mend (s : State) : State :=
  mkState (_idle_workers s) (workers s) (name_counter s)
          (mend_call <$> calls s) (trace s) (stderr s).

(** Name and daemon flag of every thread built, oldest first. *)
Definition threads (s : State) : list (string * bool) :=
  (λ W, (thread_name W, thread_daemon W)) <$> workers s.

(** Threads are daemons numbered in increasing order, thread [i] with a
    number between [i] and [i + k], and the counter is [k] ahead of the
    number of threads. *)
Definition numbered (k : nat) (s : State) : Prop :=
  name_counter s = length (workers s) + k ∧
  ∃ ns : list nat,
    threads s = (λ n, ("Trio worker thread " +:+ pretty n, true)) <$> ns ∧
    (∀ i j a b, i < j → ns !! i = Some a → ns !! j = Some b → a < b) ∧
    (∀ i a, ns !! i = Some a → i ≤ a ∧ a ≤ i + k).

(** The first call finds the registry empty and its [thread.start()]
    fails. *)
Definition X1_schedule : list flabel :=
  [FStep (LSubmit job_boom); FStep (LCall 0);
   FStartFails 0 (RuntimeError "can't start new thread")].
Definition X1_state : State :=
  Eval vm_compute in default THREAD_CACHE (frun X1_schedule THREAD_CACHE).

(** The same, and then a second call builds a worker. *)
Definition X7_schedule : list flabel :=
  X1_schedule ++ [FStep (LSubmit job_seven); FStep (LCall 1); FStep (LCall 1)].
Definition X7_state : State :=
  Eval vm_compute in default THREAD_CACHE (frun X7_schedule THREAD_CACHE).

End ThreadCache.

(** ** The kqueue entry points of [_generated_io_kqueue.py] *)
Module Kqueue.

(** Sequencing of Python calls: the first raise wins. *)
Definition bind {A B} (r : pyresult A) (k : A → pyresult B) : pyresult B :=
  match r with
  | PyReturn a => k a
  | PyRaise e => PyRaise e
  end.

(** Modelled from the spec: the I/O manager the wrappers forward to lives
    in [_io_kqueue.py], outside the files at hand; each method is taken as
    given, returning or raising. The two awaited methods stand for what
    awaiting their coroutine yields. *)
Record IOManager := mkIOManager {
  io_current_kqueue : pyresult pyval;
  io_monitor_kevent : pyval → pyval → pyresult pyval;
  io_wait_kevent : pyval → pyval → pyval → pyresult pyval;
  io_wait_readable : pyval → pyresult pyval;
  io_wait_writable : pyval → pyresult pyval;
  io_notify_closing : pyval → pyresult pyval }.

Record Runner := mkRunner { io_manager : IOManager }.

(** [GLOBAL_RUN_CONTEXT] is a thread-local object; its [runner] attribute
    exists only while a run is active on the thread. *)
Record RunContext := mkRunContext { runner : option Runner }.

(** [GLOBAL_RUN_CONTEXT.runner] *)
Definition getattr_runner (ctx : RunContext) : pyresult Runner :=
  match runner ctx with
  | Some r => PyReturn r
  | None =>
      PyRaise (AttributeError "'_thread._local' object has no attribute 'runner'")
  end.

(** [try: ... except AttributeError: raise RuntimeError(...)]: the clause
    catches an instance of [AttributeError] or of any class derived from
    it. *)
Definition except_AttributeError {A} (body : pyresult A) : pyresult A :=
  match body with
  | PyReturn a => PyReturn a
  | PyRaise e =>
      if isinstance e "AttributeError"
      then PyRaise (RuntimeError "must be called from async context")
      else PyRaise e
  end.

Definition current_kqueue (ctx : RunContext) : pyresult pyval :=
  except_AttributeError
    (bind (getattr_runner ctx) (λ r, io_current_kqueue (io_manager r))).

Definition monitor_kevent (ctx : RunContext) (ident filter : pyval) :=
  except_AttributeError
    (bind (getattr_runner ctx)
          (λ r, io_monitor_kevent (io_manager r) ident filter)).

Definition wait_kevent (ctx : RunContext) (ident filter abort_func : pyval) :=
  except_AttributeError
    (bind (getattr_runner ctx)
          (λ r, io_wait_kevent (io_manager r) ident filter abort_func)).

Definition wait_readable (ctx : RunContext) (fd : pyval) :=
  except_AttributeError
    (bind (getattr_runner ctx) (λ r, io_wait_readable (io_manager r) fd)).

Definition wait_writable (ctx : RunContext) (fd : pyval) :=
  except_AttributeError
    (bind (getattr_runner ctx) (λ r, io_wait_writable (io_manager r) fd)).

Definition notify_closing (ctx : RunContext) (fd : pyval) :=
  except_AttributeError
    (bind (getattr_runner ctx) (λ r, io_notify_closing (io_manager r) fd)).

(** Not an [AttributeError]: a return, or an exception that is no
    instance of [AttributeError] or of a class derived from it. *)
Definition passes {A} (r : pyresult A) : Prop :=
  ∀ e, r = PyRaise e → isinstance e "AttributeError" = false.

(** [dataclasses.FrozenInstanceError], a class derived from
    [AttributeError]. *)
Definition FrozenInstanceError (msg : string) : pyexc :=
  mkExc "dataclasses.FrozenInstanceError" ("AttributeError" :: Exception_mro)
        msg.

(** An I/O manager whose methods echo their first argument, except that
    [wait_writable] raises [OSError] and [notify_closing] raises an
    exception of a class derived from [AttributeError]. *)
Definition echo_manager : IOManager :=
  mkIOManager
    (PyReturn (PyInt 5))
    (λ ident _, PyReturn ident)
    (λ ident _ _, PyReturn ident)
    (λ fd, PyReturn fd)
    (λ fd, PyRaise (mkExc "OSError" Exception_mro "bad file descriptor"))
    (λ fd, PyRaise (FrozenInstanceError "cannot assign to field 'fd'")).

Definition echo_context : RunContext :=
  mkRunContext (Some (mkRunner echo_manager)).

End Kqueue.

(** ** The Sequencer of [trio/testing/_sequencer.py] *)
Module Sequencer.

(** [_sequence_points] maps a position to whether its [Event] is set;
    [_claimed] is the set of positions taken so far. *)
Record Sequencer := mkSequencer {
  _sequence_points : gmap Z bool;
  _claimed : gset Z;
  _broken : bool }.

(** A fresh instance: the attrs factories and default. *)
Definition new : Sequencer :=
  {| _sequence_points := ∅; _claimed := ∅; _broken := false |}.

(** [defaultdict(Event).__getitem__]: a missing key gets a fresh, unset
    [Event]. *)
Definition getitem (k : Z) (sp : gmap Z bool) : gmap Z bool :=
  match sp !! k with
  | Some _ => sp
  | None => <[k := false]> sp
  end.

(** Where entering [async with seq(position)] gets to before it first
    suspends or returns. *)
Inductive entered :=
| EnterRaised (e : pyexc)
| EnterWaiting          (* suspended in [Event.wait()], line 70 *)
| EnterYielded.         (* reached [yield]: the guarded block runs *)

(** Lines 63-70 of [__call__]. *)
Definition enter (position : Z) (s : Sequencer) : entered * Sequencer :=
  if decide (position ∈ _claimed s) then
    (EnterRaised
       (RuntimeError ("Attempted to re-use sequence point " +:+ pretty position)),
     s)
  else if _broken s then
    (EnterRaised (RuntimeError "sequence broken!"), s)
  else
    let s1 := mkSequencer (_sequence_points s) ({[position]} ∪ _claimed s)
                          (_broken s) in
    if decide (position ≠ 0%Z) then
      (EnterWaiting,
       mkSequencer (getitem position (_sequence_points s1)) (_claimed s1)
                   (_broken s1))
    else (EnterYielded, s1).

(** Lines 71-78: the wait ends, by cancellation or by the event. *)
Definition resume (cancelled : bool) (s : Sequencer) : entered * Sequencer :=
  if cancelled then
    (EnterRaised (RuntimeError "Sequencer wait cancelled -- sequence broken"),
     mkSequencer ((λ _, true) <$> _sequence_points s) (_claimed s) true)
  else if _broken s then
    (EnterRaised (RuntimeError "sequence broken!"), s)
  else (EnterYielded, s).

(** Line 82: leaving the guarded block sets the next event. *)
Definition leave (position : Z) (s : Sequencer) : Sequencer :=
  mkSequencer (<[(position + 1)%Z := true]> (_sequence_points s))
              (_claimed s) (_broken s).

(** What tasks do to one shared instance, in the order it happens. *)
Inductive op :=
| OpEnter (position : Z)
| OpResume (cancelled : bool)
| OpLeave (position : Z).

Definition do_op (o : op) (s : Sequencer) : option entered * Sequencer :=
  match o with
  | OpEnter p => let '(r, s') := enter p s in (Some r, s')
  | OpResume c => let '(r, s') := resume c s in (Some r, s')
  | OpLeave p => (None, leave p s)
  end.

Definition took (position : Z) (o : op) (r : option entered) : bool :=
  match o, r with
  | OpEnter p, Some EnterWaiting | OpEnter p, Some EnterYielded =>
      bool_decide (p = position)
  | _, _ => false
  end.

(** How many calls in [ops] got past the checks for [position]. *)
Fixpoint times_claimed (position : Z) (ops : list op) (s : Sequencer) : nat :=
  match ops with
  | [] => 0
  | o :: ops' =>
      let '(r, s') := do_op o s in
      (if took position o r then 1 else 0) + times_claimed position ops' s'
  end.

(** *** Tasks sharing one instance *)

(** Modelled from the spec: [Event] is trio's own class, outside the files
    at hand; a sequence point is one of the numbered rendezvous points the
    spec speaks of: [set()] raises its flag for good, and [wait()] returns
    only once the flag is up, unless the wait is cancelled. *)
Definition is_set (position : Z) (s : Sequencer) : bool :=
  default false (_sequence_points s !! position).

(** A task suspended at line 70 for [position] goes on once its event is
    set; [None]: it stays suspended. *)
Definition wake (position : Z) (s : Sequencer) : option (entered * Sequencer) :=
  if is_set position s then Some (resume false s) else None.

(** What the tasks sharing one instance do, one after the other. *)
Inductive action :=
| Enter (position : Z)    (* lines 63-70 *)
| Wake (position : Z)     (* the wait of line 70 returns *)
| Cancel                  (* the wait of line 70 is cancelled *)
| Leave (position : Z).   (* line 82 *)

Definition act (a : action) (s : Sequencer) : option (option entered * Sequencer) :=
  match a with
  | Enter p => let '(r, s') := enter p s in Some (Some r, s')
  | Wake p => '(r, s') ← wake p s; Some (Some r, s')
  | Cancel => let '(r, s') := resume true s in Some (Some r, s')
  | Leave p => Some (None, leave p s)
  end.

(** The results of a sequence of actions; [None] when a [Wake] comes
    while its event is not set, which cannot happen. *)
Fixpoint play (acts : list action) (s : Sequencer)
  : option (list (option entered) * Sequencer) :=
  match acts with
  | [] => Some ([], s)
  | a :: acts' =>
      '(r, s1) ← act a s;
      '(rs, s2) ← play acts' s1;
      Some (r :: rs, s2)
  end.

(** Broken, with every sequence point set. *)
Definition wrecked (s : Sequencer) : Prop :=
  _broken s = true ∧ ∀ k b, _sequence_points s !! k = Some b → b = true.

(** The block at [position], run by one task with nothing in between. *)
Definition block (position : Z) : list action :=
  if decide (position = 0%Z) then [Enter 0; Leave 0]
  else [Enter position; Wake position; Leave position].

Definition block_results (position : Z) : list (option entered) :=
  if decide (position = 0%Z) then [Some EnterYielded; None]
  else [Some EnterWaiting; Some EnterYielded; None].

(** Blocks 0, 1, ..., n-1, each started after the one before has finished. *)
Definition in_order (n : nat) : list action :=
  flat_map (λ i, block (Z.of_nat i)) (seq 0 n).

(** Every set event was set by the exit of the block before it, as far as
    [L] records the exits, or by a cancellation. *)
Definition ordered (L : Z → Prop) (s : Sequencer) : Prop :=
  ∀ k, is_set k s = true → L (k - 1)%Z ∨ _broken s = true.

(** After blocks 0..n-1 ran in order. *)
Definition ready (n : nat) (s : Sequencer) : Prop :=
  _broken s = false ∧
  (∀ k, k ∈ _claimed s ↔ (0 ≤ k < Z.of_nat n)%Z) ∧
  (0 < n → is_set (Z.of_nat n) s = true).

(** Block 1 is entered first and has to wait for block 0. *)
Definition X13_acts : list action :=
  [Enter 1; Enter 0; Leave 0; Wake 1; Leave 1].
Definition X13_results : list (option entered) :=
  [Some EnterWaiting; Some EnterYielded; None; Some EnterYielded; None].

(** Two tasks wait at 1 and 2; the wait of one of them is then cancelled. *)
Definition X14_before : Sequencer :=
  Eval vm_compute in (enter 2 (enter 1 new).2).2.
Definition X14_acts : list action := [Wake 2; Enter 3; Leave 0; Enter 0].
Definition X14_results : list (option entered) :=
  Eval vm_compute in default [] (fst <$> play X14_acts (resume true X14_before).2).
Definition X14_after : Sequencer :=
  Eval vm_compute in
    default new (snd <$> play X14_acts (resume true X14_before).2).

End Sequencer.

(** * Proofs *)

Import ThreadCache.

(** ** The registry operations *)

Lemma popitem_snoc d k : Dict.popitem (d ++ [k]) = Some (k, d).
Proof.
  induction d as [|x d IH]; simpl; [done|]. by rewrite IH.
Qed.

Lemma popitem_Some d k d' : Dict.popitem d = Some (k, d') → d = d' ++ [k].
Proof.
  revert k d'. induction d as [|x d IH]; intros k d'; simpl; [done|].
  destruct (Dict.popitem d) as [[y r]|] eqn:E.
  - intros [= <- <-]. rewrite (IH y r eq_refl). done.
  - intros [= <- <-]. destruct d as [|z d]; [done|].
    simpl in E. destruct (Dict.popitem d) as [[? ?]|]; done.
Qed.

Lemma popitem_None d : Dict.popitem d = None → d = [].
Proof.
  destruct d as [|x d]; [done|]. simpl.
  destruct (Dict.popitem d) as [[? ?]|]; done.
Qed.

Lemma setitem_elem d k x : x ∈ Dict.setitem d k ↔ x ∈ d ∨ x = k.
Proof.
  unfold Dict.setitem. case_decide.
  - split; [auto|]. intros [?| ->]; done.
  - rewrite elem_of_app, list_elem_of_singleton. done.
Qed.

Lemma setitem_NoDup d k : NoDup d → NoDup (Dict.setitem d k).
Proof.
  intros Hd. unfold Dict.setitem. case_decide; [done|].
  apply NoDup_app. split_and!; [done| |apply NoDup_singleton].
  intros x Hx ->%list_elem_of_singleton. done.
Qed.

Lemma delitem_Some d k d' :
  Dict.delitem d k = Some d' → k ∈ d ∧ ∀ x, x ∈ d' ↔ x ∈ d ∧ x ≠ k.
Proof.
  unfold Dict.delitem. case_decide; [|done]. intros [= <-]. split; [done|].
  intros x. rewrite list_elem_of_filter. tauto.
Qed.

Lemma delitem_None d k : Dict.delitem d k = None → k ∉ d.
Proof. unfold Dict.delitem. case_decide; done. Qed.

Lemma delitem_NoDup d k d' : NoDup d → Dict.delitem d k = Some d' → NoDup d'.
Proof.
  unfold Dict.delitem. case_decide; [|done]. intros Hd [= <-].
  by apply NoDup_filter.
Qed.

(** ** The invariant holds in every reachable state *)

Lemma job_events_snoc j tr e :
  job_events j (tr ++ [e]) = job_events j tr ++ (if about j e then [e] else []).
Proof. unfold job_events. rewrite List.filter_app. simpl. by destruct (about j e). Qed.

Lemma Inv_init : Inv THREAD_CACHE (λ _, JNew).
Proof.
  split; simpl; try done.
  - constructor.
  - intros w H. inversion H.
Qed.

Ltac inv_lookups :=
  repeat match goal with
  | H : <[_:=_]> _ !! _ = Some _ |- _ =>
      apply list_lookup_insert_Some in H as [(? & ? & ?) | (? & H)]; simplify_eq/=
  | H : (_ ++ [_]) !! _ = Some _ |- _ =>
      apply lookup_snoc_Some in H as [(? & H) | (? & ?)]; simplify_eq/=
  end.

Lemma park_inv s st w W p' :
  Inv s st → workers s !! w = Some W →
  parked (thread_at W) → parked p' →
  (∀ j jb r, thread_at W ≠ AtDeliver j jb r) →
  (∀ j jb r, p' ≠ AtDeliver j jb r) →
  Inv (set_worker w (set_at p' W) s) st.
Proof.
  intros HI HW Hp Hp' Hd Hd'.
  split; simpl; rewrite ?length_insert; try apply HI.
  - intros w' W' Hin HW'. inv_lookups; [|by eapply HI].
    by destruct (inv_idle _ _ HI _ _ Hin HW) as (? & ? & ?).
  - intros c cl w' W' Hc Hcl HW'. inv_lookups; [|by eapply HI].
    by destruct (inv_claim _ _ HI _ _ _ _ Hc Hcl HW) as (? & ? & ?).
  - intros w' W' HW'. inv_lookups; [|by eapply HI].
    pose proof (inv_worker _ _ HI _ _ HW) as X. clear HI. unfold worker_ok in *. simpl.
    destruct (thread_at W), p'; try done; try (by edestruct Hd'); by edestruct Hd.
  - intros w' W' j jb HW' Hj. inv_lookups; [|by eapply HI].
    destruct (inv_slot _ _ HI _ _ _ _ HW Hj) as (? & cl & ? & ? & X). clear HI.
    split; [done|]. exists cl. split_and!; try done.
    destruct X as [?|[? [?|?]]]; [eauto..|done].
  - intros w' W' HW'. inv_lookups; [|by apply HI].
    clear HI. destruct p'; try done. by edestruct Hd'.
  - intros j w' W' Hh HW'. inv_lookups; [|by eapply HI].
    pose proof (inv_where _ _ HI _ _ _ Hh HW) as X. clear HI.
    unfold witnesses in *. destruct (st j), (thread_at W); simpl in *; try done;
      try (by edestruct Hd); destruct X as (? & X); try done; by destruct X.
Qed.

Lemma timeout_inv w s s' st :
  Inv s st → _work_timeout w s = Some s' → Inv s' st.
Proof.
  intros HI. unfold _work_timeout.
  destruct (workers s !! w) as [W|] eqn:HW; simpl; [|done].
  destruct (thread_at W) eqn:Hat; try done.
  destruct (_worker_lock W) eqn:Hlk; [|done]. intros [= <-].
  apply park_inv; rewrite ?Hat; done.
Qed.

Lemma submit_inv jb s st :
  Inv s st → Inv (add_call (mkCall jb CallPop) s) st.
Proof.
  intros HI. split; simpl; try apply HI.
  - intros c cl w Hc Hcl. inv_lookups. by eapply HI.
  - intros c cl w W Hc Hcl HW. inv_lookups. by eapply HI.
  - intros c c' cl cl' w Hc Hc' Hcl Hcl'. inv_lookups. by eapply HI.
  - intros w W j jb' HW Hj.
    destruct (inv_slot _ _ HI _ _ _ _ HW Hj) as (? & cl & ? & ? & X).
    split; [done|]. exists cl. split_and!; try done.
    apply lookup_app_l_Some. done.
  - intros w W HW. pose proof (inv_pc _ _ HI _ _ HW) as X.
    unfold pc_ok in *. destruct (thread_at W); try done.
    all: repeat match goal with
         | H : _ ∧ _ |- _ => destruct H
         | H : ∃ _, _ |- _ => destruct H
         end; split_and!; try done; eexists; split; [by apply lookup_app_l_Some|done].
  - intros c cl Hc. inv_lookups; [by eapply HI|].
    simpl. apply HI. done.
  - intros j Hj. apply HI. rewrite length_app in Hj. lia.
  - intros j. pose proof (inv_events _ _ HI j) as X. unfold events_ok in *. simpl.
    destruct (st j); try done.
    all: repeat match goal with
         | H : _ ∧ _ |- _ => destruct H
         | H : ∃ _, _ |- _ => destruct H
         end; repeat eexists; [by apply lookup_app_l_Some|done].
Qed.

Ltac destr :=
  repeat match goal with
  | H : _ ∧ _ |- _ => destruct H
  | H : ∃ _, _ |- _ => destruct H
  end.

Lemma acquire_inv s st w W :
  Inv s st → workers s !! w = Some W →
  thread_at W = AtAcquire → _worker_lock W = false →
  Inv (set_worker w (set_at AtRead (set_lock true W)) s) st.
Proof.
  intros HI HW Hat Hlk.
  split; simpl; rewrite ?length_insert; try apply HI.
  - intros w' W' Hin HW'. inv_lookups; [|by eapply HI].
    destruct (inv_idle _ _ HI _ _ Hin HW) as (? & ? & ?). congruence.
  - intros c cl w' W' Hc Hcl HW'. inv_lookups; [|by eapply HI].
    destruct (inv_claim _ _ HI _ _ _ _ Hc Hcl HW) as (? & ? & ?). congruence.
  - intros w' W' HW'. inv_lookups; [|by eapply HI].
    pose proof (inv_worker _ _ HI _ _ HW) as X. unfold worker_ok in *. simpl.
    rewrite Hat in X. auto.
  - intros w' W' j jb HW' Hj. inv_lookups; [|by eapply HI].
    destruct (inv_slot _ _ HI _ _ _ _ HW Hj) as (? & cl & Hc & ? & X).
    split; [done|]. exists cl. split_and!; try done.
    destruct X as [X|[? _]].
    + destruct (inv_claim _ _ HI j cl w' W Hc) as (? & _); [by rewrite X|done|congruence].
    + right. split; [done|]. right. simpl. tauto.
  - intros w' W' HW'. inv_lookups; [|by apply HI]. done.
  - intros j w' W' Hh HW'. inv_lookups; [|by eapply HI].
    pose proof (inv_where _ _ HI _ _ _ Hh HW) as X. clear HI.
    unfold witnesses in *. rewrite Hat in X. destruct (st j); simpl in *; destr; try done; eauto.
Qed.

Lemma read_inv s st w W j jb :
  Inv s st → workers s !! w = Some W →
  thread_at W = AtRead → _job W = Some (j, jb) →
  Inv (set_worker w (set_at (AtClear j jb) W) s) st.
Proof.
  intros HI HW Hat Hjob.
  pose proof (inv_worker _ _ HI _ _ HW) as Hok. unfold worker_ok in Hok.
  rewrite Hat in Hok. destruct Hok as [Hlk _].
  split; simpl; rewrite ?length_insert; try apply HI.
  - intros w' W' Hin HW'. inv_lookups; [|by eapply HI].
    destruct (inv_idle _ _ HI _ _ Hin HW) as (? & ? & ?). congruence.
  - intros c cl w' W' Hc Hcl HW'. inv_lookups; [|by eapply HI].
    destruct (inv_claim _ _ HI _ _ _ _ Hc Hcl HW) as (? & Hp & ?).
    by rewrite Hat in Hp.
  - intros w' W' HW'. inv_lookups; [|by eapply HI].
    unfold worker_ok. simpl. done.
  - intros w' W' j' jb' HW' Hj. inv_lookups; [|by eapply HI].
    destruct (inv_slot _ _ HI _ _ _ _ HW Hjob) as (? & cl & Hc & ? & X).
    split; [done|]. exists cl. split_and!; try done.
    destruct X as [X|[? _]]; [by left|].
    right. split; [done|]. right. simpl. tauto.
  - intros w' W' HW'. inv_lookups; [|by apply HI]. done.
  - intros j' w' W' Hh HW'. inv_lookups; [|by eapply HI].
    pose proof (inv_where _ _ HI _ _ _ Hh HW) as X. clear HI.
    unfold witnesses in *. rewrite Hat in X. destruct (st j'); simpl in *; destr; try done; eauto.
Qed.

Lemma read_none s st w W :
  Inv s st → workers s !! w = Some W →
  thread_at W = AtRead → _job W = None → False.
Proof.
  intros HI HW Hat Hjob.
  pose proof (inv_worker _ _ HI _ _ HW) as Hok. unfold worker_ok in Hok.
  rewrite Hat in Hok. by destruct Hok.
Qed.

Lemma upd_eq st j x : upd st j x j = x.
Proof. unfold upd. by case_decide. Qed.

Lemma upd_ne st j x k : k ≠ j → upd st j x k = st k.
Proof. unfold upd. by case_decide. Qed.

Lemma pc_ok_upd st s w p j x :
  pc_ok st s w p → holder (st j) ≠ Some w → pc_ok (upd st j x) s w p.
Proof.
  unfold pc_ok. intros H Hh.
  destruct p; try done; destruct H as [E H]; (split; [|done]);
    (rewrite upd_ne; [done|]); intros ->; rewrite E in Hh; done.
Qed.

Lemma call_ok_upd st c p j x :
  call_ok st c p → c ≠ j → call_ok (upd st j x) c p.
Proof. unfold call_ok. intros H Hne. by rewrite upd_ne. Qed.

Lemma events_ok_upd st s k j x :
  events_ok st s k → k ≠ j → events_ok (upd st j x) s k.
Proof. unfold events_ok. intros H Hne. by rewrite upd_ne. Qed.

Lemma job_events_log_ne k tr e :
  about k e = false → job_events k (tr ++ [e]) = job_events k tr.
Proof. intros H. rewrite job_events_snoc, H. apply app_nil_r. Qed.

Lemma clear_inv s st w W j jb :
  Inv s st → workers s !! w = Some W → thread_at W = AtClear j jb →
  Inv (set_worker w (set_at (AtCapture j jb) (set_job None W)) s)
      (upd st j (JTaken w)).
Proof.
  intros HI HW Hat.
  pose proof (inv_worker _ _ HI _ _ HW) as Hok. unfold worker_ok in Hok.
  rewrite Hat in Hok. destruct Hok as [Hlk Hjob].
  destruct (inv_slot _ _ HI _ _ _ _ HW Hjob) as (Hst & cl & Hc & Hcj & Hca).
  assert (Hret : call_at cl = CallReturned).
  { destruct Hca as [X|[? _]]; [|done].
    destruct (inv_claim _ _ HI j cl w W Hc) as (_ & Hp & _); [by rewrite X|done|].
    by rewrite Hat in Hp. }
  split; simpl; rewrite ?length_insert; try apply HI.
  - intros w' W' Hin HW'. inv_lookups; [|by eapply HI].
    destruct (inv_idle _ _ HI _ _ Hin HW) as (? & ? & Hp). by rewrite Hat in Hp.
  - intros c cl' w' W' Hc' Hcl HW'. inv_lookups; [|by eapply HI].
    destruct (inv_claim _ _ HI _ _ _ _ Hc' Hcl HW) as (? & Hp & ?).
    by rewrite Hat in Hp.
  - intros w' W' HW'. inv_lookups; [|by eapply HI]. done.
  - intros w' W' j' jb' HW' Hj. inv_lookups.
    destruct (inv_slot _ _ HI _ _ _ _ HW' Hj) as (Hst' & X).
    split; [|done]. rewrite upd_ne; [done|]. intros ->. congruence.
  - intros w' W' HW'. inv_lookups.
    + simpl. rewrite upd_eq. eauto.
    + apply pc_ok_upd; [by apply HI|]. rewrite Hst. simpl. congruence.
  - intros c cl' Hc'. destruct (decide (c = j)) as [->|Hne].
    + simplify_eq. rewrite Hret. simpl. by rewrite upd_eq.
    + apply call_ok_upd; [by apply HI|done].
  - intros k Hk. rewrite upd_ne; [by apply HI|].
    apply lookup_lt_Some in Hc. lia.
  - intros k w'. unfold upd. case_decide.
    + simpl. intros [= <-]. by eapply lookup_lt_Some.
    + apply HI.
  - intros k w' W' Hh HW'. unfold upd in *. case_decide.
    + simpl in *. simplify_eq. inv_lookups. eauto.
    + inv_lookups; [|by eapply HI].
      pose proof (inv_where _ _ HI _ _ _ Hh HW) as X. clear HI.
      unfold witnesses in *. rewrite Hat, Hjob in X.
      destruct (st k); simpl in *; destr; simplify_eq.
  - intros k. destruct (decide (k = j)) as [->|Hne].
    + pose proof (inv_events _ _ HI j) as X. unfold events_ok in *.
      rewrite upd_eq. by rewrite Hst in X.
    + apply events_ok_upd; [by apply HI|done].
Qed.

Lemma events_ok_frame st s s' k :
  calls s' = calls s → job_events k (trace s') = job_events k (trace s) →
  events_ok st s k → events_ok st s' k.
Proof. unfold events_ok. intros -> ->. done. Qed.

Lemma call_ok_late st c p x :
  call_ok st c p → st c ≠ JNew → (∀ w, st c ≠ JSlot w) → x ≠ JNew →
  call_ok (upd st c x) c p.
Proof.
  unfold call_ok. intros H Hn Hs Hx. rewrite upd_eq.
  destruct p; try done. by edestruct Hs.
Qed.

Lemma Inv_print_stderr s st lines : Inv s st → Inv (print_stderr lines s) st.
Proof. intros HI. split; apply HI. Qed.

Lemma capture_inv s st w W j jb :
  Inv s st → workers s !! w = Some W → thread_at W = AtCapture j jb →
  Inv (log (EvExec w j (capture (fn jb)))
         (set_worker w (set_at (AtRegister j jb (capture (fn jb))) W) s))
      (upd st j (JRan w)).
Proof.
  intros HI HW Hat.
  pose proof (inv_worker _ _ HI _ _ HW) as Hok. unfold worker_ok in Hok.
  rewrite Hat in Hok. destruct Hok as [Hlk Hjob].
  pose proof (inv_pc _ _ HI _ _ HW) as Hpc. rewrite Hat in Hpc.
  destruct Hpc as (Hst & cl & Hc & Hcj).
  split; simpl; rewrite ?length_insert; try apply HI.
  - intros w' W' Hin HW'. inv_lookups; [|by eapply HI].
    destruct (inv_idle _ _ HI _ _ Hin HW) as (? & ? & Hp). by rewrite Hat in Hp.
  - intros c cl' w' W' Hc' Hcl HW'. inv_lookups; [|by eapply HI].
    destruct (inv_claim _ _ HI _ _ _ _ Hc' Hcl HW) as (? & Hp & ?).
    by rewrite Hat in Hp.
  - intros w' W' HW'. inv_lookups; [|by eapply HI]. done.
  - intros w' W' j' jb' HW' Hj. inv_lookups.
    destruct (inv_slot _ _ HI _ _ _ _ HW' Hj) as (Hst' & X).
    split; [|done]. rewrite upd_ne; [done|]. intros ->. congruence.
  - intros w' W' HW'. inv_lookups.
    + simpl. rewrite upd_eq. eauto.
    + apply pc_ok_upd; [by apply HI|]. rewrite Hst. simpl. congruence.
  - intros c cl' Hc'. destruct (decide (c = j)) as [->|Hne].
    + apply call_ok_late; [by apply HI|by rewrite Hst|by rewrite Hst|done].
    + apply call_ok_upd; [by apply HI|done].
  - intros k Hk. rewrite upd_ne; [by apply HI|].
    apply lookup_lt_Some in Hc. lia.
  - intros k w'. unfold upd. case_decide.
    + simpl. intros [= <-]. by eapply lookup_lt_Some.
    + apply HI.
  - intros k w' W' Hh HW'. unfold upd in *. case_decide.
    + simpl in *. simplify_eq. inv_lookups. eauto.
    + inv_lookups; [|by eapply HI].
      pose proof (inv_where _ _ HI _ _ _ Hh HW) as X. clear HI.
      unfold witnesses in *. rewrite Hat, Hjob in X.
      destruct (st k); simpl in *; destr; simplify_eq.
  - intros k. destruct (decide (k = j)) as [->|Hne].
    + pose proof (inv_events _ _ HI j) as X. unfold events_ok in *.
      rewrite upd_eq. rewrite Hst in X. simpl. exists cl. split; [done|].
      rewrite job_events_snoc, X. simpl. rewrite bool_decide_eq_true_2; [|done].
      by rewrite Hcj.
    + apply events_ok_upd; [|done].
      eapply events_ok_frame; [| |by apply (inv_events _ _ HI)]; [done|].
      simpl. apply job_events_log_ne. simpl. by apply bool_decide_eq_false_2.
Qed.

Lemma register_inv s st w W j jb r :
  Inv s st → workers s !! w = Some W → thread_at W = AtRegister j jb r →
  Inv (log (EvRegister w j)
         (set_worker w (set_at (AtDeliver j jb r) W)
            (set_idle (Dict.setitem (_idle_workers s) w) s)))
      (upd st j (JReg w)).
Proof.
  intros HI HW Hat.
  pose proof (inv_worker _ _ HI _ _ HW) as Hok. unfold worker_ok in Hok.
  rewrite Hat in Hok. destruct Hok as [Hlk Hjob].
  pose proof (inv_pc _ _ HI _ _ HW) as Hpc. rewrite Hat in Hpc.
  destruct Hpc as (Hst & Hr & cl & Hc & Hcj).
  split; simpl; rewrite ?length_insert; try apply HI.
  - apply setitem_NoDup, HI.
  - intros w' [Hin| ->]%setitem_elem; [by apply HI|by eapply lookup_lt_Some].
  - intros w' W' Hin HW'. inv_lookups; [done|].
    apply setitem_elem in Hin as [Hin|?]; [|done]. by eapply HI.
  - intros c cl' w' Hc' Hcl.
    destruct (inv_claim_lt _ _ HI _ _ _ Hc' Hcl) as [? Hni]. split; [done|].
    intros [?| ->]%setitem_elem; [done|].
    destruct (inv_claim _ _ HI _ _ _ _ Hc' Hcl HW) as (? & Hp & ?).
    by rewrite Hat in Hp.
  - intros c cl' w' W' Hc' Hcl HW'. inv_lookups; [|by eapply HI].
    destruct (inv_claim _ _ HI _ _ _ _ Hc' Hcl HW) as (? & Hp & ?).
    by rewrite Hat in Hp.
  - intros w' W' HW'. inv_lookups; [|by eapply HI].
    unfold worker_ok. simpl. congruence.
  - intros w' W' j' jb' HW' Hj. inv_lookups.
    destruct (inv_slot _ _ HI _ _ _ _ HW' Hj) as (Hst' & X).
    split; [|done]. rewrite upd_ne; [done|]. intros ->. congruence.
  - intros w' W' HW'. inv_lookups.
    + simpl. rewrite upd_eq. eauto.
    + apply pc_ok_upd; [by apply HI|]. rewrite Hst. simpl. congruence.
  - intros c cl' Hc'. destruct (decide (c = j)) as [->|Hne].
    + apply call_ok_late; [by apply HI|by rewrite Hst|by rewrite Hst|done].
    + apply call_ok_upd; [by apply HI|done].
  - intros k Hk. rewrite upd_ne; [by apply HI|].
    apply lookup_lt_Some in Hc. lia.
  - intros k w'. unfold upd. case_decide.
    + simpl. intros [= <-]. by eapply lookup_lt_Some.
    + apply HI.
  - intros k w' W' Hh HW'. unfold upd in *. case_decide.
    + simpl in *. simplify_eq. inv_lookups. eauto.
    + inv_lookups; [|by eapply HI].
      pose proof (inv_where _ _ HI _ _ _ Hh HW) as X. clear HI.
      unfold witnesses in *. rewrite Hat, Hjob in X.
      destruct (st k); simpl in *; destr; simplify_eq.
  - intros k. destruct (decide (k = j)) as [->|Hne].
    + pose proof (inv_events _ _ HI j) as X. unfold events_ok in *.
      rewrite upd_eq. rewrite Hst in X. simpl.
      by rewrite job_events_log_ne.
    + apply events_ok_upd; [|done].
      eapply events_ok_frame; [| |by apply (inv_events _ _ HI)]; [done|].
      simpl. by apply job_events_log_ne.
Qed.

Lemma deliver_inv s st w W j jb r :
  Inv s st → workers s !! w = Some W → thread_at W = AtDeliver j jb r →
  Inv (log (EvDeliver w j r) (set_worker w (set_at AtAcquire W) s))
      (upd st j JDone).
Proof.
  intros HI HW Hat.
  pose proof (inv_worker _ _ HI _ _ HW) as Hok. unfold worker_ok in Hok.
  rewrite Hat in Hok.
  pose proof (inv_pc _ _ HI _ _ HW) as Hpc. rewrite Hat in Hpc.
  destruct Hpc as (Hst & Hr & cl & Hc & Hcj).
  split; simpl; rewrite ?length_insert; try apply HI.
  - intros w' W' Hin HW'. inv_lookups; [|by eapply HI].
    by destruct (inv_idle _ _ HI _ _ Hin HW) as (? & ? & Hp).
  - intros c cl' w' W' Hc' Hcl HW'. inv_lookups; [|by eapply HI].
    by destruct (inv_claim _ _ HI _ _ _ _ Hc' Hcl HW) as (? & Hp & ?).
  - intros w' W' HW'. inv_lookups; [|by eapply HI]. done.
  - intros w' W' j' jb' HW' Hj. inv_lookups.
    + destruct (inv_slot _ _ HI _ _ _ _ HW Hj) as (Hst' & cl' & ? & ? & X).
      split; [rewrite upd_ne; [done|]; intros ->; congruence|].
      exists cl'. split_and!; try done.
      destruct X as [?|[? [?|Hp]]]; [eauto..|]. rewrite Hat in Hp. by destruct Hp.
    + destruct (inv_slot _ _ HI _ _ _ _ HW' Hj) as (Hst' & X).
      split; [|done]. rewrite upd_ne; [done|]. intros ->. congruence.
  - intros w' W' HW'. inv_lookups; [done|].
    apply pc_ok_upd; [by apply HI|]. rewrite Hst. simpl. congruence.
  - intros c cl' Hc'. destruct (decide (c = j)) as [->|Hne].
    + apply call_ok_late; [by apply HI|by rewrite Hst|by rewrite Hst|done].
    + apply call_ok_upd; [by apply HI|done].
  - intros k Hk. rewrite upd_ne; [by apply HI|].
    apply lookup_lt_Some in Hc. lia.
  - intros k w'. unfold upd. case_decide; [done|apply HI].
  - intros k w' W' Hh HW'. unfold upd in *. case_decide; [done|].
    inv_lookups; [|by eapply HI].
    pose proof (inv_where _ _ HI _ _ _ Hh HW) as X. clear HI.
    unfold witnesses in *. rewrite Hat in X.
    destruct (st k); simpl in *; destr; simplify_eq; eauto.
  - intros k. destruct (decide (k = j)) as [->|Hne].
    + pose proof (inv_events _ _ HI j) as X. unfold events_ok in *.
      rewrite upd_eq. rewrite Hst in X. simpl. destruct X as (cl' & Hc' & X).
      exists w, cl'. split; [done|].
      rewrite job_events_snoc, X. simpl. rewrite bool_decide_eq_true_2; [|done].
      simplify_eq. done.
    + apply events_ok_upd; [|done].
      eapply events_ok_frame; [| |by apply (inv_events _ _ HI)]; [done|].
      simpl. apply job_events_log_ne. simpl. by apply bool_decide_eq_false_2.
Qed.

Lemma del_inv s st w W d' :
  Inv s st → workers s !! w = Some W → thread_at W = AtTimedOut →
  Dict.delitem (_idle_workers s) w = Some d' →
  Inv (log (EvExit w) (set_worker w (set_at Exited W) (set_idle d' s))) st.
Proof.
  intros HI HW Hat Hdel.
  pose proof (delitem_NoDup _ _ _ (inv_nodup _ _ HI) Hdel) as Hnd.
  apply delitem_Some in Hdel as [Hin Hd'].
  destruct (inv_idle _ _ HI _ _ Hin HW) as (Hlk & Hjob & _).
  split; simpl; rewrite ?length_insert; try apply HI.
  - done.
  - intros w' [? _]%Hd'. by apply HI.
  - intros w' W' [? ?]%Hd' HW'. inv_lookups. by eapply HI.
  - intros c cl' w' Hc' Hcl.
    destruct (inv_claim_lt _ _ HI _ _ _ Hc' Hcl) as [? Hni]. split; [done|].
    intros [? _]%Hd'. done.
  - intros c cl' w' W' Hc' Hcl HW'. inv_lookups; [|by eapply HI].
    by destruct (inv_claim_lt _ _ HI _ _ _ Hc' Hcl) as [? Hni].
  - intros w' W' HW'. inv_lookups; [|by eapply HI]. done.
  - intros w' W' j' jb' HW' Hj. inv_lookups. by eapply HI.
  - intros w' W' HW'. inv_lookups; [done|]. by apply HI.
  - intros k w' W' Hh HW'. inv_lookups; [|by eapply HI].
    pose proof (inv_where _ _ HI _ _ _ Hh HW) as X. clear HI.
    unfold witnesses in *. rewrite Hat, Hjob in X.
    destruct (st k); simpl in *; destr; simplify_eq.
  - intros k. eapply events_ok_frame; [| |by apply (inv_events _ _ HI)]; [done|].
    simpl. by apply job_events_log_ne.
Qed.

Lemma calls_kept_moved s s' c cl p :
  calls s !! c = Some cl → calls s' = <[c := moved_to p cl]> (calls s) →
  calls_kept s s'.
Proof.
  intros Hc E j cl0 Hj. rewrite E. destruct (decide (j = c)) as [->|Hne].
  - exists (moved_to p cl). rewrite list_lookup_insert_eq; [|by eapply lookup_lt_Some].
    by simplify_eq.
  - exists cl0. by rewrite list_lookup_insert_ne.
Qed.

Lemma pc_ok_calls st s s' w p : calls_kept s s' → pc_ok st s w p → pc_ok st s' w p.
Proof.
  intros Hk. unfold pc_ok. destruct p; try done; intros H; destr; split_and!; try done.
  all: match goal with H : calls _ !! _ = Some _ |- _ =>
         destruct (Hk _ _ H) as (cl' & ? & ?) end; exists cl'; split; congruence.
Qed.

Lemma events_ok_calls st s s' k :
  calls_kept s s' → job_events k (trace s') = job_events k (trace s) →
  events_ok st s k → events_ok st s' k.
Proof.
  intros Hk. unfold events_ok. intros ->. destruct (st k); try done; intros H; destr.
  all: match goal with H : calls _ !! _ = Some _ |- _ =>
         destruct (Hk _ _ H) as (cl' & ? & E) end.
  - exists cl'. rewrite E. done.
  - exists cl'. rewrite E. done.
  - eexists _, cl'. rewrite E. done.
Qed.

Lemma pop_none_inv s st c cl :
  Inv s st → calls s !! c = Some cl → call_at cl = CallPop →
  Inv (set_call c (moved_to CallSpawn cl) s) st.
Proof.
  intros HI Hc Hat.
  assert (Hk : calls_kept s (set_call c (moved_to CallSpawn cl) s))
    by (by eapply calls_kept_moved).
  pose proof (inv_call _ _ HI _ _ Hc) as Hcall. rewrite Hat in Hcall. simpl in Hcall.
  split; simpl; rewrite ?length_insert; try apply HI.
  - intros c' cl' w Hc' Hcl. inv_lookups. by eapply HI.
  - intros c' cl' w W Hc' Hcl HW. inv_lookups. by eapply HI.
  - intros c1 c2 cl1 cl2 w H1 H2 Hcl1 Hcl2. inv_lookups. by eapply HI.
  - intros w W j jb HW Hj.
    destruct (inv_slot _ _ HI _ _ _ _ HW Hj) as (Hst & cl0 & Hc0 & ? & X).
    split; [done|]. exists cl0. split_and!; try done.
    rewrite list_lookup_insert_ne; [done|]. intros ->. congruence.
  - intros w W HW. eapply pc_ok_calls; [done|]. by apply HI.
  - intros c' cl' Hc'. inv_lookups; [done|]. by apply HI.
  - intros k. eapply events_ok_calls; [done|done|]. apply HI.
Qed.

Lemma pop_some_inv s st c cl w d' :
  Inv s st → calls s !! c = Some cl → call_at cl = CallPop →
  Dict.popitem (_idle_workers s) = Some (w, d') →
  Inv (log (EvPop c w) (set_call c (moved_to (CallWrite w) cl) (set_idle d' s))) st.
Proof.
  intros HI Hc Hat Hpop. apply popitem_Some in Hpop.
  pose proof (inv_nodup _ _ HI) as Hnd. rewrite Hpop in Hnd.
  apply NoDup_app in Hnd as (Hnd & Hni & _).
  assert (Hw : w ∈ _idle_workers s) by (rewrite Hpop; set_solver).
  assert (Hsub : ∀ x, x ∈ d' → x ∈ _idle_workers s) by (rewrite Hpop; set_solver).
  assert (Hwd : w ∉ d') by (intros ?; eapply Hni; [done|set_solver]).
  match goal with |- Inv ?s' _ => assert (Hk : calls_kept s s')
    by (by eapply calls_kept_moved) end.
  pose proof (inv_call _ _ HI _ _ Hc) as Hcall. rewrite Hat in Hcall. simpl in Hcall.
  split; simpl; rewrite ?length_insert; try apply HI.
  - done.
  - intros x Hx. by apply HI, Hsub.
  - intros x W Hx HW. eapply HI; [by apply Hsub|done].
  - intros c' cl' w' Hc' Hcl. inv_lookups.
    + split; [by apply HI|done].
    + destruct (inv_claim_lt _ _ HI _ _ _ Hc' Hcl). split; [done|]. auto.
  - intros c' cl' w' W Hc' Hcl HW. inv_lookups; [|by eapply HI].
    destruct (inv_idle _ _ HI _ _ Hw HW) as (? & ? & ?). done.
  - intros c1 c2 cl1 cl2 w' H1 H2 Hcl1 Hcl2. inv_lookups;
      try done; try (by eapply HI);
      match goal with
      | H : calls _ !! _ = Some ?cl, Hcl : claims (call_at ?cl) = Some _ |- _ =>
          by destruct (inv_claim_lt _ _ HI _ _ _ H Hcl)
      end.
  - intros w' W j jb HW Hj.
    destruct (inv_slot _ _ HI _ _ _ _ HW Hj) as (Hst & cl0 & Hc0 & ? & X).
    split; [done|]. exists cl0. split_and!; try done.
    rewrite list_lookup_insert_ne; [done|]. intros ->. congruence.
  - intros w' W HW. eapply pc_ok_calls; [done|]. by apply HI.
  - intros c' cl' Hc'. inv_lookups; [done|]. by apply HI.
  - intros k. eapply events_ok_calls; [done| |apply HI].
    simpl. by apply job_events_log_ne.
Qed.

Lemma spawn_inv s st c cl :
  Inv s st → calls s !! c = Some cl → call_at cl = CallSpawn →
  Inv (log (EvSpawn c (length (workers s)))
         (set_call c (moved_to (CallWrite (length (workers s))) cl)
            (add_worker (WorkerThread__init__ (name_counter s)) s))) st.
Proof.
  intros HI Hc Hat.
  match goal with |- Inv ?s' _ => assert (Hk : calls_kept s s')
    by (by eapply calls_kept_moved) end.
  pose proof (inv_call _ _ HI _ _ Hc) as Hcall. rewrite Hat in Hcall. simpl in Hcall.
  split; simpl; rewrite ?length_insert, ?length_app; simpl; try apply HI.
  - intros w Hw. apply (inv_idle_lt _ _ HI) in Hw. lia.
  - intros w W Hw HW. inv_lookups; [by eapply HI|].
    apply (inv_idle_lt _ _ HI) in Hw. lia.
  - intros c' cl' w' Hc' Hcl. inv_lookups.
    + split; [lia|]. intros Hw%(inv_idle_lt _ _ HI). lia.
    + destruct (inv_claim_lt _ _ HI _ _ _ Hc' Hcl). split; [lia|done].
  - intros c' cl' w' W Hc' Hcl HW. inv_lookups; try done; try (by eapply HI).
    + lia.
    + destruct (inv_claim_lt _ _ HI _ _ _ Hc' Hcl). lia.
  - intros c1 c2 cl1 cl2 w' H1 H2 Hcl1 Hcl2. inv_lookups;
      try done; try (by eapply HI);
      match goal with
      | H : calls _ !! _ = Some ?cl, Hcl : claims (call_at ?cl) = Some _ |- _ =>
          destruct (inv_claim_lt _ _ HI _ _ _ H Hcl); lia
      end.
  - intros w W HW. inv_lookups; [by eapply HI|]. done.
  - intros w W j jb HW Hj. inv_lookups.
    destruct (inv_slot _ _ HI _ _ _ _ HW Hj) as (Hst & cl0 & Hc0 & ? & X).
    split; [done|]. exists cl0. split_and!; try done.
    rewrite list_lookup_insert_ne; [done|]. intros ->. congruence.
  - intros w W HW. inv_lookups; [|done]. eapply pc_ok_calls; [done|]. by apply HI.
  - intros c' cl' Hc'. inv_lookups; [done|]. by apply HI.
  - intros k w Hh. apply (inv_where_lt _ _ HI) in Hh. lia.
  - intros k w W Hh HW. inv_lookups; [by eapply HI|].
    apply (inv_where_lt _ _ HI) in Hh. lia.
  - intros k. eapply events_ok_calls; [done| |apply HI].
    simpl. by apply job_events_log_ne.
Qed.

Lemma write_inv s st c cl w W :
  Inv s st → calls s !! c = Some cl → call_at cl = CallWrite w →
  workers s !! w = Some W →
  Inv (set_call c (moved_to (CallRelease w) cl)
         (set_worker w (set_job (Some (c, call_job cl)) W) s))
      (upd st c (JSlot w)).
Proof.
  intros HI Hc Hat HW.
  match goal with |- Inv ?s' _ => assert (Hk : calls_kept s s')
    by (by eapply calls_kept_moved) end.
  pose proof (inv_call _ _ HI _ _ Hc) as Hcall. rewrite Hat in Hcall. simpl in Hcall.
  assert (Hcl : claims (call_at cl) = Some w) by (by rewrite Hat).
  destruct (inv_claim_lt _ _ HI _ _ _ Hc Hcl) as [Hlt Hni].
  destruct (inv_claim _ _ HI _ _ _ _ Hc Hcl HW) as (Hlk & Hp & Hjob).
  rewrite Hat in Hjob.
  split; simpl; rewrite ?length_insert; try apply HI.
  - intros w' W' Hin HW'. inv_lookups; [done|by eapply HI].
  - intros c' cl' w' Hc' Hcl'. inv_lookups; [done|by eapply HI].
  - intros c' cl' w' W' Hc' Hcl' HW'. inv_lookups; try done; try (by eapply HI).
    by pose proof (inv_claim_uniq _ _ HI _ _ _ _ _ Hc Hc' Hcl Hcl').
  - intros c1 c2 cl1 cl2 w' H1 H2 Hcl1 Hcl2. inv_lookups;
      try done; try (by eapply HI);
      match goal with
      | H : calls _ !! _ = Some ?cl2, Hcl2 : claims (call_at ?cl2) = Some _ |- _ =>
          by pose proof (inv_claim_uniq _ _ HI _ _ _ _ _ Hc H Hcl Hcl2)
      end.
  - intros w' W' HW'. inv_lookups; [|by eapply HI].
    pose proof (inv_worker _ _ HI _ _ HW) as X. unfold worker_ok in *. simpl.
    destruct (thread_at W); try done; congruence.
  - intros w' W' j jb HW' Hj. inv_lookups.
    + rewrite upd_eq. split; [done|]. eexists. split; [|split].
      * apply list_lookup_insert_eq. by eapply lookup_lt_Some.
      * done.
      * by left.
    + destruct (inv_slot _ _ HI _ _ _ _ HW' Hj) as (Hst & cl0 & Hc0 & ? & X).
      assert (j ≠ c) by congruence.
      rewrite upd_ne; [|done]. split; [done|]. exists cl0. split_and!; try done.
      by rewrite list_lookup_insert_ne.
  - intros w' W' HW'. eapply pc_ok_calls; [done|].
    apply pc_ok_upd; [|by rewrite Hcall].
    inv_lookups; by apply (inv_pc _ _ HI).
  - intros c' cl' Hc'. inv_lookups.
    + simpl. by rewrite upd_eq.
    + apply call_ok_upd; [by apply HI|done].
  - intros k Hlen. rewrite upd_ne; [by apply HI|].
    apply lookup_lt_Some in Hc. lia.
  - intros k w'. unfold upd. case_decide.
    + simpl. by intros [= <-].
    + apply HI.
  - intros k w' W' Hh HW'. unfold upd in *. case_decide.
    + simpl in *. simplify_eq. inv_lookups. eauto.
    + inv_lookups; [|by eapply HI].
      pose proof (inv_where _ _ HI _ _ _ Hh HW) as X. clear HI.
      unfold witnesses in *. rewrite Hjob in X.
      destruct (st k); simpl in *; destr; simplify_eq; eauto.
  - intros k. destruct (decide (k = c)) as [->|Hne].
    + pose proof (inv_events _ _ HI c) as X. unfold events_ok in *.
      rewrite upd_eq. by rewrite Hcall in X.
    + apply events_ok_upd; [|done].
      eapply events_ok_calls; [done|done|apply HI].
Qed.

Lemma release_locked s st c cl w W :
  Inv s st → calls s !! c = Some cl → call_at cl = CallRelease w →
  workers s !! w = Some W → _worker_lock W = true.
Proof.
  intros HI Hc Hat HW.
  assert (Hcl : claims (call_at cl) = Some w) by (by rewrite Hat).
  by destruct (inv_claim _ _ HI _ _ _ _ Hc Hcl HW) as (Hlk & Hp & Hjob).
Qed.

Lemma release_inv s st c cl w W :
  Inv s st → calls s !! c = Some cl → call_at cl = CallRelease w →
  workers s !! w = Some W →
  Inv (set_call c (moved_to CallReturned cl)
         (set_worker w (set_lock false W) s)) st.
Proof.
  intros HI Hc Hat HW.
  match goal with |- Inv ?s' _ => assert (Hk : calls_kept s s')
    by (by eapply calls_kept_moved) end.
  pose proof (inv_call _ _ HI _ _ Hc) as Hcall. rewrite Hat in Hcall. simpl in Hcall.
  assert (Hcl : claims (call_at cl) = Some w) by (by rewrite Hat).
  destruct (inv_claim_lt _ _ HI _ _ _ Hc Hcl) as [Hlt Hni].
  destruct (inv_claim _ _ HI _ _ _ _ Hc Hcl HW) as (Hlk & Hp & Hjob).
  rewrite Hat in Hjob.
  split; simpl; rewrite ?length_insert; try apply HI.
  - intros w' W' Hin HW'. inv_lookups; [done|by eapply HI].
  - intros c' cl' w' Hc' Hcl'. inv_lookups. by eapply HI.
  - intros c' cl' w' W' Hc' Hcl' HW'. inv_lookups; try done; try (by eapply HI).
    by pose proof (inv_claim_uniq _ _ HI _ _ _ _ _ Hc Hc' Hcl Hcl').
  - intros c1 c2 cl1 cl2 w' H1 H2 Hcl1 Hcl2. inv_lookups. by eapply HI.
  - intros w' W' HW'. inv_lookups; [|by eapply HI].
    pose proof (inv_worker _ _ HI _ _ HW) as X. unfold worker_ok in *. simpl.
    destruct (thread_at W); try done; congruence.
  - intros w' W' j jb HW' Hj. inv_lookups.
    + split; [done|]. eexists. split; [|split].
      * apply list_lookup_insert_eq. by eapply lookup_lt_Some.
      * done.
      * right. simpl. auto.
    + destruct (inv_slot _ _ HI _ _ _ _ HW' Hj) as (Hst & cl0 & Hc0 & ? & X).
      assert (j ≠ c) by congruence.
      split; [done|]. exists cl0. split_and!; try done.
      by rewrite list_lookup_insert_ne.
  - intros w' W' HW'. eapply pc_ok_calls; [done|].
    inv_lookups; by apply (inv_pc _ _ HI).
  - intros c' cl' Hc'. inv_lookups; [|by apply HI]. simpl. congruence.
  - intros k w' W' Hh HW'. inv_lookups; [|by eapply HI].
    by apply (inv_where _ _ HI _ _ _ Hh HW).
  - intros k. eapply events_ok_calls; [done|done|apply HI].
Qed.

Lemma call_step_inv c s s' st :
  Inv s st → start_thread_soon_step c s = Some s' → ∃ st', Inv s' st'.
Proof.
  intros HI. unfold start_thread_soon_step.
  destruct (calls s !! c) as [cl|] eqn:Hc; simpl; [|done].
  destruct (call_at cl) as [| |w|w| |e] eqn:Hat; try done.
  - destruct (Dict.popitem (_idle_workers s)) as [[w d']|] eqn:Hpop; intros [= <-].
    + exists st. by apply pop_some_inv.
    + exists st. by apply pop_none_inv.
  - intros [= <-]. exists st. by apply spawn_inv.
  - destruct (workers s !! w) as [W|] eqn:HW; simpl; [|done]. intros [= <-].
    eexists. by apply write_inv.
  - destruct (workers s !! w) as [W|] eqn:HW; simpl; [|done].
    rewrite (release_locked _ _ _ _ _ _ HI Hc Hat HW). intros [= <-].
    exists st. by apply release_inv.
Qed.

Lemma worker_step_inv w s s' st :
  Inv s st → _work_step w s = Some s' → ∃ st', Inv s' st'.
Proof.
  intros HI. unfold _work_step.
  destruct (workers s !! w) as [W|] eqn:HW; simpl; [|done].
  destruct (thread_at W) as [| |j jb|j jb|j jb r|j jb r| | |e] eqn:Hat; try done.
  - destruct (_worker_lock W) eqn:Hlk; [done|]. intros [= <-].
    exists st. by apply acquire_inv.
  - destruct (_job W) as [[j jb]|] eqn:Hjob.
    + intros [= <-]. exists st. by apply read_inv.
    + by destruct (read_none _ _ _ _ HI HW Hat Hjob).
  - intros [= <-]. eexists. by apply clear_inv.
  - intros [= <-]. eexists. by apply capture_inv.
  - intros [= <-]. eexists. by apply register_inv.
  - destruct (deliver jb r); intros [= <-]; eexists;
      [|apply Inv_print_stderr]; by eapply deliver_inv.
  - destruct (Dict.delitem (_idle_workers s) w) as [d'|] eqn:Hdel; intros [= <-].
    + exists st. by apply del_inv.
    + exists st. apply park_inv; rewrite ?Hat; done.
Qed.

Lemma step_inv l s s' st : Inv s st → step l s = Some s' → ∃ st', Inv s' st'.
Proof.
  intros HI. destruct l as [jb|c|w|w]; simpl.
  - intros [= <-]. exists st. by apply submit_inv.
  - by eapply call_step_inv.
  - by eapply worker_step_inv.
  - intros H. exists st. by eapply timeout_inv.
Qed.

Lemma run_inv ls s s' st : Inv s st → run ls s = Some s' → ∃ st', Inv s' st'.
Proof.
  revert s st. induction ls as [|l ls IH]; intros s st HI; simpl.
  - intros [= <-]. eauto.
  - destruct (step l s) as [s1|] eqn:Hs; simpl; [|done].
    destruct (step_inv _ _ _ _ HI Hs) as [st1 HI1]. by apply IH with st1.
Qed.

Lemma reachable_inv s : reachable s → ∃ st, Inv s st.
Proof. intros [ls Hr]. eapply run_inv; [apply Inv_init|done]. Qed.

Lemma run_app ls1 ls2 s :
  run (ls1 ++ ls2) s = s' ← run ls1 s; run ls2 s'.
Proof.
  revert s. induction ls1 as [|l ls1 IH]; intros s; simpl; [done|].
  destruct (step l s); simpl; [apply IH|done].
Qed.

Lemma reachable_run ls s s' : reachable s → run ls s = Some s' → reachable s'.
Proof.
  intros [ls0 H0] H. exists (ls0 ++ ls). rewrite run_app, H0. done.
Qed.

(** ** Steps of calls and workers lower the work left *)

Lemma sum_insert {A} (f : A → nat) (l : list A) i x y :
  l !! i = Some x →
  sum_list_with f (<[i:=y]> l) + f x = sum_list_with f l + f y.
Proof.
  revert i. induction l as [|a l IH]; intros [|i]; simpl; try done.
  - intros [= ->]. lia.
  - intros H. specialize (IH _ H). lia.
Qed.

Lemma call_step_decreases c s s' :
  start_thread_soon_step c s = Some s' → remaining s' < remaining s.
Proof.
  unfold start_thread_soon_step, remaining.
  destruct (calls s !! c) as [cl|] eqn:Hc; simpl; [|done].
  assert (Hgen : ∀ cl' k, call_rank cl' + k < call_rank cl →
            sum_list_with call_rank (<[c:=cl']> (calls s)) + k
              < sum_list_with call_rank (calls s)).
  { intros cl' k Hlt. pose proof (sum_insert call_rank _ _ _ cl' Hc). lia. }
  destruct (call_at cl) as [| |w|w| |e] eqn:Hat; try done.
  - destruct (Dict.popitem (_idle_workers s)) as [[w d']|]; intros [= <-]; simpl.
    + specialize (Hgen (moved_to (CallWrite w) cl) 0).
      unfold call_rank at 1 2 in Hgen. rewrite Hat in Hgen. simpl in Hgen. lia.
    + specialize (Hgen (moved_to CallSpawn cl) 0).
      unfold call_rank at 1 2 in Hgen. rewrite Hat in Hgen. simpl in Hgen. lia.
  - intros [= <-]. simpl. rewrite sum_list_with_app. simpl.
    specialize (Hgen (moved_to (CallWrite (length (workers s))) cl) 0).
    unfold call_rank at 1 2 in Hgen. rewrite Hat in Hgen. simpl in Hgen.
    lia.
  - destruct (workers s !! w) as [W|] eqn:HW; simpl; [|done]. intros [= <-]. simpl.
    specialize (Hgen (moved_to (CallRelease w) cl) 0).
    unfold call_rank at 1 2 in Hgen. rewrite Hat in Hgen. simpl in Hgen.
    pose proof (sum_insert worker_rank _ _ _
                  (set_job (Some (c, call_job cl)) W) HW) as E'.
    assert (worker_rank (set_job (Some (c, call_job cl)) W) = worker_rank W)
      as R by done. rewrite R in E'. lia.
  - destruct (workers s !! w) as [W|] eqn:HW; simpl; [|done].
    destruct (_worker_lock W) eqn:Hlk; intros [= <-]; simpl.
    + specialize (Hgen (moved_to CallReturned cl) 6).
      unfold call_rank at 1 2 in Hgen. rewrite Hat in Hgen. simpl in Hgen.
      pose proof (sum_insert worker_rank _ _ _ (set_lock false W) HW) as E'.
      assert (worker_rank (set_lock false W) = 6 + worker_rank W) as R
        by (unfold worker_rank; simpl; by rewrite Hlk).
      rewrite R in E'. lia.
    + match goal with |- context [<[c:=?x]> (calls s)] =>
        specialize (Hgen x 0) end.
      unfold call_rank at 1 2 in Hgen. rewrite Hat in Hgen. simpl in Hgen. lia.
Qed.

Lemma worker_step_decreases w s s' :
  _work_step w s = Some s' → remaining s' < remaining s.
Proof.
  unfold _work_step, remaining.
  destruct (workers s !! w) as [W|] eqn:HW; simpl; [|done].
  assert (Hgen : ∀ W', worker_rank W' < worker_rank W →
            sum_list_with worker_rank (<[w:=W']> (workers s))
              < sum_list_with worker_rank (workers s)).
  { intros W' Hlt. pose proof (sum_insert worker_rank _ _ _ W' HW). lia. }
  destruct (thread_at W) as [| |j jb|j jb|j jb r|j jb r| | |e] eqn:Hat; try done.
  - destruct (_worker_lock W) eqn:Hlk; [done|]. intros [= <-]. simpl.
    apply Nat.add_lt_mono_l, Hgen. unfold worker_rank. simpl. rewrite Hlk, Hat. lia.
  - destruct (_job W) as [[j jb]|]; intros [= <-]; simpl;
      apply Nat.add_lt_mono_l, Hgen; unfold worker_rank; simpl; rewrite Hat; lia.
  - intros [= <-]. simpl.
    apply Nat.add_lt_mono_l, Hgen. unfold worker_rank. simpl. rewrite Hat. lia.
  - intros [= <-]. simpl.
    apply Nat.add_lt_mono_l, Hgen. unfold worker_rank. simpl. rewrite Hat. lia.
  - intros [= <-]. simpl.
    apply Nat.add_lt_mono_l, Hgen. unfold worker_rank. simpl. rewrite Hat. lia.
  - destruct (deliver jb r); intros [= <-]; simpl;
      apply Nat.add_lt_mono_l, Hgen; unfold worker_rank; simpl; rewrite Hat; lia.
  - destruct (Dict.delitem (_idle_workers s) w); intros [= <-]; simpl;
      apply Nat.add_lt_mono_l, Hgen; unfold worker_rank; simpl; rewrite Hat; lia.
Qed.

Lemma quiet_step_decreases l s s' :
  quiet l = true → step l s = Some s' → remaining s' < remaining s.
Proof.
  destruct l; simpl; try done; intros _.
  - apply call_step_decreases.
  - apply worker_step_decreases.
Qed.

Lemma quiet_run_bounded ls s s' :
  Forall (λ l, quiet l = true) ls → run ls s = Some s' →
  length ls + remaining s' ≤ remaining s.
Proof.
  revert s. induction ls as [|l ls IH]; intros s Hq; simpl.
  - intros [= <-]. lia.
  - apply Forall_cons in Hq as [Hl Hq].
    destruct (step l s) as [s1|] eqn:Hs; simpl; [|done]. intros Hr.
    specialize (IH _ Hq Hr). pose proof (quiet_step_decreases _ _ _ Hl Hs). lia.
Qed.

(** ** While a job is unfinished some call or worker can step *)

Lemma worker_enabled s w W :
  workers s !! w = Some W →
  (thread_at W = AtAcquire → _worker_lock W = false) →
  thread_at W ≠ Exited → (∀ e, thread_at W ≠ Crashed e) →
  is_Some (_work_step w s).
Proof.
  intros HW Ha He Hc. unfold _work_step. rewrite HW. simpl.
  destruct (thread_at W) eqn:Hat; try done.
  - rewrite Ha; done.
  - destruct (_job W) as [[? ?]|]; done.
  - destruct (deliver jb r); done.
  - destruct (Dict.delitem (_idle_workers s) w); done.
  - by edestruct Hc.
Qed.

Lemma progress s st j cl :
  Inv s st → calls s !! j = Some cl → st j ≠ JDone →
  ∃ l, quiet l = true ∧ is_Some (step l s).
Proof.
  intros HI Hc Hnd.
  pose proof (inv_call _ _ HI _ _ Hc) as Hcall. unfold call_ok in Hcall.
  destruct (st j) as [|w|w|w|w|] eqn:Hst; [| | | | |done].
  - exists (LCall j). split; [done|]. simpl. unfold start_thread_soon_step.
    rewrite Hc. simpl. destruct (call_at cl) as [| |w|w| |e] eqn:Hat; try done.
    + destruct (Dict.popitem (_idle_workers s)) as [[? ?]|]; done.
    + destruct (inv_claim_lt _ _ HI j cl w Hc) as [Hlt _]; [by rewrite Hat|].
      apply lookup_lt_is_Some in Hlt as [W HW]. by rewrite HW.
  - assert (Hh : holder (st j) = Some w) by (by rewrite Hst).
    destruct (lookup_lt_is_Some_2 _ _ (inv_where_lt _ _ HI _ _ Hh)) as [W HW].
    pose proof (inv_where _ _ HI _ _ _ Hh HW) as X. rewrite Hst in X.
    destruct X as [jb Hjob].
    destruct (inv_slot _ _ HI _ _ _ _ HW Hjob) as (_ & cl' & Hc' & _ & X).
    simplify_eq. pose proof (inv_worker _ _ HI _ _ HW) as Hok.
    unfold worker_ok in Hok.
    destruct X as [Hat|[Hat X]].
    + exists (LCall j). split; [done|]. simpl. unfold start_thread_soon_step.
      rewrite Hc. simpl. rewrite Hat, HW. simpl. destruct (_worker_lock W); done.
    + exists (LWorker w). split; [done|]. simpl.
      apply (worker_enabled _ _ _ HW).
      * intros E. rewrite E in *. simpl in X. destruct X; tauto.
      * intros E. rewrite E in Hok. destruct Hok. congruence.
      * intros e E. by rewrite E in Hok.
  - assert (Hh : holder (st j) = Some w) by (by rewrite Hst).
    destruct (lookup_lt_is_Some_2 _ _ (inv_where_lt _ _ HI _ _ Hh)) as [W HW].
    pose proof (inv_where _ _ HI _ _ _ Hh HW) as X. rewrite Hst in X.
    destruct X as [jb Hat].
    exists (LWorker w). split; [done|]. simpl.
    apply (worker_enabled _ _ _ HW); rewrite Hat; done.
  - assert (Hh : holder (st j) = Some w) by (by rewrite Hst).
    destruct (lookup_lt_is_Some_2 _ _ (inv_where_lt _ _ HI _ _ Hh)) as [W HW].
    pose proof (inv_where _ _ HI _ _ _ Hh HW) as X. rewrite Hst in X.
    destruct X as (jb & r & Hat).
    exists (LWorker w). split; [done|]. simpl.
    apply (worker_enabled _ _ _ HW); rewrite Hat; done.
  - assert (Hh : holder (st j) = Some w) by (by rewrite Hst).
    destruct (lookup_lt_is_Some_2 _ _ (inv_where_lt _ _ HI _ _ Hh)) as [W HW].
    pose proof (inv_where _ _ HI _ _ _ Hh HW) as X. rewrite Hst in X.
    destruct X as (jb & r & Hat).
    exists (LWorker w). split; [done|]. simpl.
    apply (worker_enabled _ _ _ HW); rewrite Hat; done.
Qed.

Lemma done_settled s st :
  Inv s st → (∀ j cl, calls s !! j = Some cl → st j = JDone) → settled s.
Proof.
  intros HI Hd j cl Hc. pose proof (inv_events _ _ HI j) as X.
  unfold events_ok in X. rewrite (Hd _ _ Hc) in X.
  destruct X as (w & cl' & Hc' & X). simplify_eq. by exists w.
Qed.

Lemma stuck_settled s st :
  Inv s st → (∀ l, quiet l = true → step l s = None) → settled s.
Proof.
  intros HI Hstuck. apply (done_settled _ _ HI). intros j cl Hc.
  destruct (decide (st j = JDone)) as [|Hnd]; [done|].
  destruct (progress _ _ _ _ HI Hc Hnd) as (l & Hq & [s' Hs]).
  rewrite (Hstuck _ Hq) in Hs. done.
Qed.

Lemma all_done_dec s (st : nat → jstatus) :
  (∀ j cl, calls s !! j = Some cl → st j = JDone) ∨
  (∃ j cl, calls s !! j = Some cl ∧ st j ≠ JDone).
Proof.
  destruct (decide (Forall (λ j, st j = JDone) (seq 0 (length (calls s)))))
    as [Hall|Hex].
  - left. intros j cl Hc. rewrite Forall_forall in Hall. apply Hall.
    apply elem_of_seq. apply lookup_lt_Some in Hc. lia.
  - right. apply not_Forall_Exists in Hex; [|apply _].
    apply Exists_exists in Hex as (j & Hin & Hj).
    apply elem_of_seq in Hin.
    destruct (lookup_lt_is_Some_2 (calls s) j) as [cl Hc]; [lia|]. eauto.
Qed.

Lemma can_settle n s st :
  Inv s st → remaining s ≤ n →
  ∃ ls s', Forall (λ l, quiet l = true) ls ∧ run ls s = Some s' ∧ settled s'.
Proof.
  revert s st. induction n as [|n IH]; intros s st HI Hn.
  - destruct (all_done_dec s st) as [Hall|(j & cl & Hc & Hnd)].
    + exists [], s. split_and!; [constructor|done|by eapply done_settled].
    + destruct (progress _ _ _ _ HI Hc Hnd) as (l & Hq & [s' Hs]).
      pose proof (quiet_step_decreases _ _ _ Hq Hs). lia.
  - destruct (all_done_dec s st) as [Hall|(j & cl & Hc & Hnd)].
    + exists [], s. split_and!; [constructor|done|by eapply done_settled].
    + destruct (progress _ _ _ _ HI Hc Hnd) as (l & Hq & [s1 Hs]).
      pose proof (quiet_step_decreases _ _ _ Hq Hs).
      destruct (step_inv _ _ _ _ HI Hs) as [st1 HI1].
      destruct (IH s1 st1 HI1) as (ls & s' & Hqs & Hr & Hset); [lia|].
      exists (l :: ls), s'. split_and!; [by constructor| |done].
      simpl. rewrite Hs. done.
Qed.

Lemma at_most_once s st j :
  Inv s st → executions j s ≤ 1 ∧ deliveries j s ≤ executions j s.
Proof.
  intros HI. pose proof (inv_events _ _ HI j) as X.
  unfold events_ok, executions, deliveries in *.
  destruct (st j); destr; rewrite ?X; simpl; try lia.
  all: match goal with H : job_events _ _ = _ |- _ => rewrite H end; simpl; lia.
Qed.

Lemma settled_once s j cl :
  settled s → calls s !! j = Some cl → executions j s = 1 ∧ deliveries j s = 1.
Proof.
  intros Hs Hc. destruct (Hs _ _ Hc) as [w E].
  unfold executions, deliveries. rewrite E. done.
Qed.

(** ** The properties of the specification *)

Lemma calls_kept_same s s' : calls s' = calls s → calls_kept s s'.
Proof. intros E j cl H. rewrite E. eauto. Qed.

Lemma calls_kept_trans s1 s2 s3 :
  calls_kept s1 s2 → calls_kept s2 s3 → calls_kept s1 s3.
Proof.
  intros H12 H23 j cl H. destruct (H12 _ _ H) as (cl2 & H2 & E2).
  destruct (H23 _ _ H2) as (cl3 & H3 & E3). exists cl3. split; congruence.
Qed.

Lemma step_calls_kept l s s' : step l s = Some s' → calls_kept s s'.
Proof.
  destruct l as [jb|c|w|w]; simpl.
  - intros [= <-] j cl H. exists cl. split; [|done]. simpl.
    by apply lookup_app_l_Some.
  - unfold start_thread_soon_step.
    destruct (calls s !! c) as [cl|] eqn:Hc; simpl; [|done].
    destruct (call_at cl) as [| |w|w| |e]; try done.
    + destruct (Dict.popitem (_idle_workers s)) as [[w d']|]; intros [= <-];
        by eapply calls_kept_moved.
    + intros [= <-]. by eapply calls_kept_moved.
    + destruct (workers s !! w); simpl; [|done]. intros [= <-].
      by eapply calls_kept_moved.
    + destruct (workers s !! w) as [W|]; simpl; [|done].
      destruct (_worker_lock W); intros [= <-]; by eapply calls_kept_moved.
  - unfold _work_step. destruct (workers s !! w) as [W|]; simpl; [|done].
    destruct (thread_at W); try done.
    + destruct (_worker_lock W); [done|]. intros [= <-]. by apply calls_kept_same.
    + destruct (_job W) as [[? ?]|]; intros [= <-]; by apply calls_kept_same.
    + intros [= <-]. by apply calls_kept_same.
    + intros [= <-]. by apply calls_kept_same.
    + intros [= <-]. by apply calls_kept_same.
    + destruct (deliver jb r); intros [= <-]; by apply calls_kept_same.
    + destruct (Dict.delitem (_idle_workers s) w); intros [= <-];
        by apply calls_kept_same.
  - unfold _work_timeout. destruct (workers s !! w) as [W|]; simpl; [|done].
    destruct (thread_at W); try done.
    destruct (_worker_lock W); [|done]. intros [= <-]. by apply calls_kept_same.
Qed.

Lemma run_calls_kept ls s s' : run ls s = Some s' → calls_kept s s'.
Proof.
  revert s. induction ls as [|l ls IH]; intros s; simpl.
  - intros [= <-]. by apply calls_kept_same.
  - destruct (step l s) as [s1|] eqn:Hs; simpl; [|done]. intros Hr.
    eapply calls_kept_trans; [by eapply step_calls_kept|by apply IH].
Qed.

Lemma settled_kept s s' :
  calls_kept s s' → settled s' →
  ∀ j cl, calls s !! j = Some cl → ran_and_delivered j (call_job cl) s'.
Proof.
  intros Hk Hs j cl Hc. destruct (Hk _ _ Hc) as (cl' & Hc' & E).
  rewrite <- E. by apply Hs.
Qed.

Lemma claimed_by_same s s' w :
  calls s' = calls s → claimed_by s w → claimed_by s' w.
Proof. intros E (c & cl & Hc & Hcl). exists c, cl. by rewrite E. Qed.

Lemma claimed_by_moved s s' w c cl p :
  calls s !! c = Some cl → calls s' = <[c := moved_to p cl]> (calls s) →
  (claims (call_at cl) = Some w → claims p = Some w) →
  claimed_by s w → claimed_by s' w.
Proof.
  intros Hc E Hp (c' & cl' & Hc' & Hcl'). destruct (decide (c' = c)) as [->|Hne].
  - simplify_eq. exists c, (moved_to p cl). rewrite E. split; [|by apply Hp].
    apply list_lookup_insert_eq. by eapply lookup_lt_Some.
  - exists c', cl'. rewrite E. split; [|done]. by rewrite list_lookup_insert_ne.
Qed.

Lemma claimed_by_new s' w c cl p :
  c < length (calls s') → calls s' !! c = Some (moved_to p cl) →
  claims p = Some w → claimed_by s' w.
Proof. intros _ Hc Hp. by exists c, (moved_to p cl). Qed.

Lemma step_parked_claimed l s s' :
  parked_claimed s → step l s = Some s' → parked_claimed s'.
Proof.
  intros Hinv. destruct l as [jb|c|w|w]; simpl.
  - intros [= <-] w W HW Hp Hni Hlk. simpl in *.
    destruct (Hinv _ _ HW Hp Hni Hlk) as (c & cl & Hc & Hcl).
    exists c, cl. split; [|done]. simpl. by apply lookup_app_l_Some.
  - unfold start_thread_soon_step.
    destruct (calls s !! c) as [cl|] eqn:Hc; simpl; [|done].
    assert (Hlt : c < length (calls s)) by (by eapply lookup_lt_Some).
    destruct (call_at cl) as [| |w|w| |e] eqn:Hat; try done.
    + destruct (Dict.popitem (_idle_workers s)) as [[w d']|] eqn:Hpop;
        intros [= <-] w0 W0 HW0 Hp0 Hni0 Hlk0; simpl in *.
      * apply popitem_Some in Hpop. destruct (decide (w0 = w)) as [->|Hne].
        -- exists c, (moved_to (CallWrite w) cl). simpl.
           split; [by apply list_lookup_insert_eq|done].
        -- eapply claimed_by_moved; [done|done|by rewrite Hat|].
           apply (Hinv _ _ HW0 Hp0); [|done]. rewrite Hpop.
           intros [?| ?%list_elem_of_singleton]%elem_of_app; done.
      * eapply claimed_by_moved; [done|done|by rewrite Hat|]. by eapply Hinv.
    + intros [= <-] w0 W0 HW0 Hp0 Hni0 Hlk0; simpl in *. inv_lookups.
      * eapply claimed_by_moved; [done|done|by rewrite Hat|]. by eapply Hinv.
      * exists c, (moved_to (CallWrite (length (workers s))) cl). simpl.
        split; [by apply list_lookup_insert_eq|done].
    + destruct (workers s !! w) as [W|] eqn:HW; simpl; [|done].
      intros [= <-] w0 W0 HW0 Hp0 Hni0 Hlk0; simpl in *. inv_lookups.
      * exists c, (moved_to (CallRelease w0) cl). simpl.
        split; [by apply list_lookup_insert_eq|done].
      * eapply claimed_by_moved; [done|done| |by eapply Hinv].
        rewrite Hat. simpl. congruence.
    + destruct (workers s !! w) as [W|] eqn:HW; simpl; [|done].
      destruct (_worker_lock W) eqn:Hlk;
        intros [= <-] w0 W0 HW0 Hp0 Hni0 Hlk0; simpl in *; inv_lookups.
      * eapply claimed_by_moved; [done|done| |by eapply Hinv].
        rewrite Hat. simpl. congruence.
      * destruct (decide (w0 = w)) as [->|Hne]; [congruence|].
        eapply claimed_by_moved; [done|done| |by eapply Hinv].
        rewrite Hat. simpl. congruence.
  - unfold _work_step. destruct (workers s !! w) as [W|] eqn:HW; simpl; [|done].
    destruct (thread_at W) eqn:Hat; try done.
    + destruct (_worker_lock W); [done|].
      intros [= <-] w0 W0 HW0 Hp0 Hni0 Hlk0; simpl in *. inv_lookups; try done.
      eapply claimed_by_same; [done|by eapply Hinv].
    + destruct (_job W) as [[? ?]|];
        intros [= <-] w0 W0 HW0 Hp0 Hni0 Hlk0; simpl in *; inv_lookups; try done;
        (eapply claimed_by_same; [done|by eapply Hinv]).
    + intros [= <-] w0 W0 HW0 Hp0 Hni0 Hlk0; simpl in *. inv_lookups; try done.
      eapply claimed_by_same; [done|by eapply Hinv].
    + intros [= <-] w0 W0 HW0 Hp0 Hni0 Hlk0; simpl in *. inv_lookups; try done.
      eapply claimed_by_same; [done|by eapply Hinv].
    + intros [= <-] w0 W0 HW0 Hp0 Hni0 Hlk0; simpl in *. inv_lookups.
      * destruct Hni0. apply setitem_elem. by right.
      * eapply claimed_by_same; [done|]. eapply Hinv; [done..| |done].
        intros Hin. apply Hni0, setitem_elem. by left.
    + destruct (deliver jb r);
        intros [= <-] w0 W0 HW0 Hp0 Hni0 Hlk0; simpl in *; inv_lookups;
        try done;
        (eapply claimed_by_same; [done|]; first [by eapply Hinv | eapply (Hinv _ _ HW); [by rewrite Hat|done|done]]).
    + destruct (Dict.delitem (_idle_workers s) w) as [d'|] eqn:Hdel;
        intros [= <-] w0 W0 HW0 Hp0 Hni0 Hlk0; simpl in *; inv_lookups;
        try done.
      * apply delitem_Some in Hdel as [_ Hd'].
        eapply claimed_by_same; [done|]. eapply Hinv; [done..| |done].
        intros Hin. apply Hni0, Hd'. done.
      * eapply claimed_by_same; [done|].
        eapply (Hinv _ _ HW); [by rewrite Hat|done|done].
      * eapply claimed_by_same; [done|]. by eapply Hinv.
  - unfold _work_timeout. destruct (workers s !! w) as [W|] eqn:HW; simpl; [|done].
    destruct (thread_at W) eqn:Hat; try done.
    destruct (_worker_lock W) eqn:Hlk; [|done].
    intros [= <-] w0 W0 HW0 Hp0 Hni0 Hlk0; simpl in *. inv_lookups.
    + eapply claimed_by_same; [done|]. eapply (Hinv _ _ HW); [by rewrite Hat|done|done].
    + eapply claimed_by_same; [done|]. by eapply Hinv.
Qed.

Lemma reachable_parked_claimed s : reachable s → parked_claimed s.
Proof.
  intros [ls Hr].
  assert (Hgen : ∀ ls s0, parked_claimed s0 → run ls s0 = Some s →
                          parked_claimed s).
  { clear. induction ls as [|l ls IH]; intros s0 H0; simpl.
    - by intros [= <-].
    - destruct (step l s0) as [s1|] eqn:Hs; simpl; [|done].
      apply IH. by eapply step_parked_claimed. }
  apply (Hgen ls THREAD_CACHE); [|done].
  intros w W HW. done.
Qed.



Lemma registered_keep s s' w j evs :
  registered s w j → trace s' = trace s ++ evs →
  (w ∈ _idle_workers s → w ∈ _idle_workers s' ∨ ∃ c, EvPop c w ∈ evs) →
  registered s' w j.
Proof.
  intros (tr1 & tr2 & E & Hor) E' Hidle.
  exists tr1, (tr2 ++ evs). split.
  - rewrite E', E, <- app_assoc. done.
  - destruct Hor as [Hin|[c Hc]].
    + destruct (Hidle Hin) as [?|[c Hc]]; [by left|].
      right. exists c. apply elem_of_app. by right.
    + right. exists c. apply elem_of_app. by left.
Qed.

Ltac keep Hinv :=
  eapply registered_keep;
  [ eapply Hinv; eassumption
  | simpl; first [reflexivity | symmetry; apply app_nil_r]
  | simpl; auto ].

Lemma step_delivering_registered l s s' :
  delivering_registered s → step l s = Some s' → delivering_registered s'.
Proof.
  intros Hinv. destruct l as [jb|c|w|w]; simpl.
  - intros [= <-] w W j jb' r HW Hat. keep Hinv.
  - unfold start_thread_soon_step.
    destruct (calls s !! c) as [cl|] eqn:Hc; simpl; [|done].
    destruct (call_at cl) as [| |w|w| |e]; try done.
    + destruct (Dict.popitem (_idle_workers s)) as [[w d']|] eqn:Hpop;
        intros [= <-] w0 W0 j jb r HW0 Hat0; simpl in *; [|keep Hinv].
      apply popitem_Some in Hpop.
      eapply registered_keep; [by eapply Hinv|simpl; reflexivity|simpl].
      rewrite Hpop. intros [Hin| ->%list_elem_of_singleton]%elem_of_app;
        [by left|]. right. exists c. by apply list_elem_of_singleton.
    + intros [= <-] w0 W0 j jb r HW0 Hat0; simpl in *. inv_lookups.
      keep Hinv.
    + destruct (workers s !! w) as [W|] eqn:HW; simpl; [|done].
      intros [= <-] w0 W0 j jb r HW0 Hat0; simpl in *. inv_lookups; keep Hinv.
    + destruct (workers s !! w) as [W|] eqn:HW; simpl; [|done].
      destruct (_worker_lock W);
        intros [= <-] w0 W0 j jb r HW0 Hat0; simpl in *; inv_lookups; keep Hinv.
  - unfold _work_step. destruct (workers s !! w) as [W|] eqn:HW; simpl; [|done].
    destruct (thread_at W) eqn:Hat; try done.
    + destruct (_worker_lock W); [done|].
      intros [= <-] w0 W0 j0 jb0 r0 HW0 Hat0; simpl in *. inv_lookups. keep Hinv.
    + destruct (_job W) as [[? ?]|];
        intros [= <-] w0 W0 j0 jb0 r0 HW0 Hat0; simpl in *; inv_lookups; keep Hinv.
    + intros [= <-] w0 W0 j0 jb0 r0 HW0 Hat0; simpl in *. inv_lookups. keep Hinv.
    + intros [= <-] w0 W0 j0 jb0 r0 HW0 Hat0; simpl in *. inv_lookups. keep Hinv.
    + intros [= <-] w0 W0 j0 jb0 r0 HW0 Hat0; simpl in *. inv_lookups.
      * exists (trace s), []. split; [done|]. left. apply setitem_elem. by right.
      * eapply registered_keep; [by eapply Hinv|simpl; reflexivity|simpl].
        intros Hin. left. apply setitem_elem. by left.
    + destruct (deliver jb r);
        intros [= <-] w0 W0 j0 jb0 r0 HW0 Hat0; simpl in *; inv_lookups; keep Hinv.
    + destruct (Dict.delitem (_idle_workers s) w) as [d'|] eqn:Hdel;
        intros [= <-] w0 W0 j0 jb0 r0 HW0 Hat0; simpl in *; inv_lookups;
        [|keep Hinv].
      apply delitem_Some in Hdel as [_ Hd'].
      eapply registered_keep; [by eapply Hinv|simpl; reflexivity|simpl].
      intros Hin. left. apply Hd'. done.
  - unfold _work_timeout. destruct (workers s !! w) as [W|] eqn:HW; simpl; [|done].
    destruct (thread_at W) eqn:Hat; try done.
    destruct (_worker_lock W); [|done].
    intros [= <-] w0 W0 j0 jb0 r0 HW0 Hat0; simpl in *. inv_lookups. keep Hinv.
Qed.

Lemma reachable_delivering_registered s :
  reachable s → delivering_registered s.
Proof.
  intros [ls Hr].
  assert (Hgen : ∀ ls s0, delivering_registered s0 → run ls s0 = Some s →
                          delivering_registered s).
  { clear. induction ls as [|l ls IH]; intros s0 H0; simpl.
    - by intros [= <-].
    - destruct (step l s0) as [s1|] eqn:Hs; simpl; [|done].
      apply IH. by eapply step_delivering_registered. }
  apply (Hgen ls THREAD_CACHE); [|done].
  intros w W j jb r HW. done.
Qed.

(** C2, as stated, fails: after worker 0 has registered and before it
    calls [deliver], a second call of [start_thread_soon] pops it; the
    registry is then empty, worker 0 is about to call [deliver], and its
    next step does so. *)
Lemma C2_counterexample :
  (_idle_workers <$> run C2_schedule THREAD_CACHE) = Some [] ∧
  (s ← run C2_schedule THREAD_CACHE; W ← workers s !! 0; Some (thread_at W))
    = Some (AtDeliver 0 job_seven (Value (PyInt 7))) ∧
  (trace <$> run (C2_schedule ++ [LWorker 0]) THREAD_CACHE)
    = Some [EvSpawn 0 0; EvExec 0 0 (Value (PyInt 7)); EvRegister 0 0;
            EvPop 1 0; EvDeliver 0 0 (Value (PyInt 7))].
Proof. split_and!; vm_compute; reflexivity. Qed.

(** C2, amended — whenever a worker is about to invoke [deliver] for a job,
    it has re-inserted itself into the idle registry before; at that moment
    it is still in the registry unless a call of [start_thread_soon] has
    popped it since the re-insertion. The step then taken is the call of
    [deliver] with the captured result. *)
Theorem C2_registered_before_deliver s w W j jb r :
  reachable s → workers s !! w = Some W → thread_at W = AtDeliver j jb r →
  registered s w j ∧
  ∃ s', step (LWorker w) s = Some s' ∧
        trace s' = trace s ++ [EvDeliver w j r].
Proof.
  intros Hr HW Hat. split.
  - by eapply reachable_delivering_registered.
  - simpl. unfold _work_step. rewrite HW. simpl. rewrite Hat.
    destruct (deliver jb r); eexists; split; reflexivity.
Qed.

Lemma C2_registered_before_deliver_witness :
  registered C2_state 0 0 ∧
  ∃ s', step (LWorker 0) C2_state = Some s' ∧
        trace s' = trace C2_state ++ [EvDeliver 0 0 (Value (PyInt 7))].
Proof.
  eapply (C2_registered_before_deliver C2_state 0 _ 0 job_seven).
  - exists (take 10 C2_schedule). vm_compute. reflexivity.
  - reflexivity.
  - reflexivity.
Defined.

(** C3 — a worker still blocked on its held lock when the bounded wait
    ([IDLE_TIMEOUT], 10 seconds) elapses goes on to delete itself from the
    idle registry. If it is there, it is removed and the thread ends: it
    takes no further step. If it is not (KeyError), the thread does not end
    but goes back to the wait, and a job is on its way: either its lock has
    been released with the job in its slot, or a call of [start_thread_soon]
    holds it and has its write and release still to do. *)
Theorem C3_timeout s w W :
  reachable s → workers s !! w = Some W →
  IDLE_TIMEOUT = 10%Z ∧
  (thread_at W = AtAcquire → _worker_lock W = true →
     step (LTimeout w) s = Some (set_worker w (set_at AtTimedOut W) s)) ∧
  (thread_at W = AtTimedOut →
     (w ∈ _idle_workers s →
        ∃ s2, step (LWorker w) s = Some s2 ∧
              (w ∉ _idle_workers s2) ∧
              workers s2 !! w = Some (set_at Exited W) ∧
              step (LWorker w) s2 = None ∧ step (LTimeout w) s2 = None) ∧
     (w ∉ _idle_workers s →
        step (LWorker w) s = Some (set_worker w (set_at AtAcquire W) s) ∧
        (_worker_lock W = false ∧ _job W ≠ None ∨ claimed_by s w))).
Proof.
  intros Hr HW. split; [done|].
  assert (Hlt : w < length (workers s)) by (by eapply lookup_lt_Some).
  split.
  - intros Hat Hlk. simpl. unfold _work_timeout. rewrite HW. simpl.
    by rewrite Hat, Hlk.
  - intros Hat. split.
    + intros Hin. simpl. unfold _work_step at 1. rewrite HW. simpl. rewrite Hat.
      unfold Dict.delitem. rewrite decide_True by done.
      eexists. split; [done|]. simpl. split_and!.
      * rewrite list_elem_of_filter. tauto.
      * by apply list_lookup_insert_eq.
      * unfold _work_step. simpl. by rewrite list_lookup_insert_eq.
      * unfold _work_timeout. simpl. by rewrite list_lookup_insert_eq.
    + intros Hni. split.
      * simpl. unfold _work_step. rewrite HW. simpl. rewrite Hat.
        unfold Dict.delitem. by rewrite decide_False.
      * destruct (_worker_lock W) eqn:Hlk.
        -- right. eapply reachable_parked_claimed; [done..|by rewrite Hat|done|done].
        -- left. split; [done|]. destruct (reachable_inv _ Hr) as [st HI].
           pose proof (inv_worker _ _ HI _ _ HW) as Hok.
           unfold worker_ok in Hok. rewrite Hat in Hok. auto.
Qed.

Lemma C3_timeout_witness :
  ∃ s2, step (LWorker 0) C3_state = Some s2 ∧
        (0 ∉ _idle_workers s2) ∧
        (thread_at <$> workers s2 !! 0) = Some Exited ∧
        step (LWorker 0) s2 = None ∧ step (LTimeout 0) s2 = None.
Proof.
  destruct (C3_timeout C3_state 0
              (mkWorker None true true "Trio worker thread 0" AtTimedOut))
    as (_ & _ & H).
  - exists C3_schedule. vm_compute. reflexivity.
  - reflexivity.
  - destruct H as [H _]; [reflexivity|].
    destruct H as (s2 & Hs & Hni & HW & Hn1 & Hn2).
    + vm_compute. apply list_elem_of_here.
    + exists s2. split_and!; try done. by rewrite HW.
Defined.

(** C4 — [start_thread_soon] first pops the registry, last inserted first:
    with the registry [d ++ [w]] the call takes [w] and leaves [d]; with an
    empty registry it builds a new worker, which is appended to the workers
    and is not put into the registry. Then line 110 writes the job: the
    chosen worker's slot holds the call's [(fn, deliver)] while its lock is
    still held, so a worker blocked in [acquire] still has no step; only
    the next step, line 111, releases the lock, leaving the slot as
    written, and then the worker gets past [acquire] and reads that very
    job. In every reachable state the worker a call is about to write to
    exists, is out of the registry, and has its lock held and its slot
    empty. *)
Theorem C4_assign s c cl :
  calls s !! c = Some cl → call_at cl = CallPop →
  (∀ d w, _idle_workers s = d ++ [w] →
     ∃ s1, step (LCall c) s = Some s1 ∧
           _idle_workers s1 = d ∧ workers s1 = workers s ∧
           calls s1 !! c = Some (moved_to (CallWrite w) cl)) ∧
  (_idle_workers s = [] →
     ∃ s1 s2, step (LCall c) s = Some s1 ∧ step (LCall c) s1 = Some s2 ∧
              workers s2 = workers s ++ [WorkerThread__init__ (name_counter s)] ∧
              _idle_workers s2 = [] ∧
              calls s2 !! c = Some (moved_to (CallWrite (length (workers s))) cl)) ∧
  (∀ s1 w W,
     calls s1 !! c = Some (moved_to (CallWrite w) cl) →
     workers s1 !! w = Some W → _worker_lock W = true →
     ∃ s2 s3 W2 W3,
       step (LCall c) s1 = Some s2 ∧
       workers s2 !! w = Some W2 ∧
       W2 = set_job (Some (c, call_job cl)) W ∧
       _job W2 = Some (c, call_job cl) ∧
       _worker_lock W2 = true ∧
       calls s2 !! c = Some (moved_to (CallRelease w) cl) ∧
       step (LCall c) s2 = Some s3 ∧
       workers s3 !! w = Some W3 ∧
       W3 = set_lock false (set_job (Some (c, call_job cl)) W) ∧
       _job W3 = Some (c, call_job cl) ∧
       _worker_lock W3 = false ∧
       calls s3 !! c = Some (moved_to CallReturned cl) ∧
       (thread_at W = AtAcquire →
          step (LWorker w) s1 = None ∧ step (LWorker w) s2 = None ∧
          ∃ s4 s5, step (LWorker w) s3 = Some s4 ∧
                   step (LWorker w) s4 = Some s5 ∧
                   (thread_at <$> workers s5 !! w)
                     = Some (AtClear c (call_job cl)))) ∧
  (∀ s1 w,
     reachable s1 → calls s1 !! c = Some (moved_to (CallWrite w) cl) →
     ∃ W, workers s1 !! w = Some W ∧ _worker_lock W = true ∧
          _job W = None ∧ (w ∉ _idle_workers s1)).
Proof.
  intros Hc Hat.
  assert (Hlt : c < length (calls s)) by (by eapply lookup_lt_Some).
  split_and!; cycle 3.
  { intros s1 w Hr1 Hc1. destruct (reachable_inv _ Hr1) as [st HI].
    destruct (inv_claim_lt _ _ HI _ _ w Hc1 eq_refl) as [Hw Hni].
    apply lookup_lt_is_Some in Hw as [W HW].
    destruct (inv_claim _ _ HI _ _ _ _ Hc1 eq_refl HW) as (Hlk & _ & Hjob).
    exists W. by split_and!. }
  - intros d w Hd. simpl. unfold start_thread_soon_step. rewrite Hc. simpl.
    rewrite Hat, Hd, popitem_snoc. eexists. split; [done|]. simpl.
    split_and!; [done..|]. by apply list_lookup_insert_eq.
  - intros Hd. simpl. unfold start_thread_soon_step at 1. rewrite Hc. simpl.
    rewrite Hat, Hd. simpl. eexists _, _. split; [done|].
    unfold start_thread_soon_step. simpl.
    rewrite list_lookup_insert_eq by done. simpl. split; [done|]. simpl.
    split_and!; [done..|].
    rewrite list_insert_insert_eq. by apply list_lookup_insert_eq.
  - intros s1 w W Hc1 HW Hlk.
    assert (Hlt1 : c < length (calls s1)) by (by eapply lookup_lt_Some).
    assert (Hw : w < length (workers s1)) by (by eapply lookup_lt_Some).
    exists (set_call c (moved_to (CallRelease w) cl)
              (set_worker w (set_job (Some (c, call_job cl)) W) s1)).
    exists (set_call c (moved_to CallReturned cl)
              (set_worker w (set_lock false (set_job (Some (c, call_job cl)) W))
                 (set_call c (moved_to (CallRelease w) cl)
                    (set_worker w (set_job (Some (c, call_job cl)) W) s1)))).
    exists (set_job (Some (c, call_job cl)) W),
           (set_lock false (set_job (Some (c, call_job cl)) W)).
    assert (Hs2 : step (LCall c) s1 =
              Some (set_call c (moved_to (CallRelease w) cl)
                      (set_worker w (set_job (Some (c, call_job cl)) W) s1))).
    { simpl. unfold start_thread_soon_step. rewrite Hc1. simpl. rewrite HW.
      done. }
    split; [exact Hs2|].
    split; [simpl; by apply list_lookup_insert_eq|].
    split; [done|]. split; [done|]. split; [done|].
    split; [simpl; by apply list_lookup_insert_eq|].
    split.
    { simpl. unfold start_thread_soon_step. simpl.
      rewrite list_lookup_insert_eq by done. simpl.
      rewrite list_lookup_insert_eq by done. simpl. by rewrite Hlk. }
    split; [simpl; apply list_lookup_insert_eq; by rewrite length_insert|].
    split; [done|]. split; [done|]. split; [done|].
    split; [simpl; apply list_lookup_insert_eq; by rewrite length_insert|].
    intros HatW. split_and!.
    + simpl. unfold _work_step. rewrite HW. simpl. by rewrite HatW, Hlk.
    + simpl. unfold _work_step. simpl.
      rewrite list_lookup_insert_eq by done. simpl. by rewrite HatW, Hlk.
    + simpl. unfold _work_step. simpl.
      rewrite list_lookup_insert_eq by (by rewrite length_insert). simpl.
      rewrite HatW. eexists _, _. split; [done|]. simpl.
      rewrite list_lookup_insert_eq by (by rewrite !length_insert). simpl.
      split; [done|]. simpl.
      by rewrite list_lookup_insert_eq by (by rewrite !length_insert).
Qed.

Lemma C4_assign_witness :
  ∃ s1 s2 s3,
    step (LCall 0) two_idle = Some s1 ∧ _idle_workers s1 = [1] ∧
    step (LCall 0) s1 = Some s2 ∧
    (_job <$> workers s2 !! 0) = Some (Some (0, job_seven)) ∧
    (_worker_lock <$> workers s2 !! 0) = Some true ∧
    step (LWorker 0) s2 = None ∧
    step (LCall 0) s2 = Some s3 ∧
    (_job <$> workers s3 !! 0) = Some (Some (0, job_seven)) ∧
    (_worker_lock <$> workers s3 !! 0) = Some false ∧
    is_Some (step (LWorker 0) s3).
Proof.
  destruct (C4_assign two_idle 0 (mkCall job_seven CallPop))
    as (H1 & _ & H3 & _); [reflexivity..|].
  destruct (H1 [1] 0) as (s1 & Hs1 & Hd1 & Hw1 & Hc1); [reflexivity|].
  destruct (H3 s1 0 (mkWorker None true true "Trio worker thread 0" AtAcquire))
    as (s2 & s3 & W2 & W3 & Hs2 & HW2 & _ & Hj2 & Hl2 & _ & Hs3 & HW3 & _
        & Hj3 & Hl3 & _ & Hgo);
    [exact Hc1|by rewrite Hw1|reflexivity|].
  destruct Hgo as (_ & Hb & s4 & s5 & Hs4 & _); [reflexivity|].
  exists s1, s2, s3. rewrite HW2, HW3, Hs4. simpl. rewrite Hj2, Hl2, Hj3, Hl3.
  split_and!; try done.
Defined.

(** C5 — when [deliver] raises, the worker prints the fixed description
    and the exception's trace lines to standard error and nothing else
    differs from a [deliver] that returned: the thread is back at the top of
    its loop, not ended by the exception. A worker at the top of its loop
    that is then handed a job (slot written, lock released) runs it. *)
Theorem C5_deliver_raises s w W j jb r e :
  workers s !! w = Some W → thread_at W = AtDeliver j jb r →
  deliver jb r = PyRaise e →
  ∃ s', step (LWorker w) s = Some s' ∧
        s' = print_stderr
               ("Exception while delivering result of thread"
                  :: print_exception e)
               (log (EvDeliver w j r) (set_worker w (set_at AtAcquire W) s)) ∧
        workers s' !! w = Some (set_at AtAcquire W) ∧
        ∀ j2 jb2,
          let W2 := set_lock false (set_job (Some (j2, jb2)) (set_at AtAcquire W)) in
          ∃ s3,
            run [LWorker w; LWorker w; LWorker w; LWorker w]
                (set_worker w W2 s') = Some s3 ∧
            trace s3 = trace s' ++ [EvExec w j2 (capture (fn jb2))].
Proof.
  intros HW Hat Hd.
  assert (Hlt : w < length (workers s)) by (by eapply lookup_lt_Some).
  simpl. unfold _work_step at 1. rewrite HW. simpl. rewrite Hat, Hd.
  eexists. split; [done|]. split; [done|]. simpl.
  split; [by apply list_lookup_insert_eq|].
  intros j2 jb2. unfold _work_step. simpl.
  repeat (rewrite ?list_insert_insert_eq, list_lookup_insert_eq
            by (by rewrite ?length_insert); simpl).
  eexists. split; [done|]. done.
Qed.

Lemma C5_deliver_raises_witness :
  ∃ s', step (LWorker 0) delivering_boom = Some s' ∧
        stderr s' = ["Exception while delivering result of thread";
                     "Traceback (most recent call last):";
                     "TypeError: bad"] ∧
        (thread_at <$> workers s' !! 0) = Some AtAcquire.
Proof.
  destruct (C5_deliver_raises delivering_boom 0
              (mkWorker None true true "Trio worker thread 0"
                 (AtDeliver 0 job_boom (Error (RuntimeError "boom"))))
              0 job_boom (Error (RuntimeError "boom")) (TypeError "bad"))
    as (s' & Hs & -> & _); [reflexivity..|].
  eexists. split; [exact Hs|]. split; reflexivity.
Defined.

Lemma no_crash s w W e :
  reachable s → workers s !! w = Some W → thread_at W ≠ Crashed e.
Proof.
  intros Hr HW Hat. destruct (reachable_inv _ Hr) as [st HI].
  pose proof (inv_worker _ _ HI _ _ HW) as Hok. unfold worker_ok in Hok.
  by rewrite Hat in Hok.
Qed.

(** C6 — calling [fn] never ends the worker and is no error of the pool:
    whether [fn] returns or raises, the step yields the tagged result,
    [Value] of the return value or [Error] of the exception, nothing is
    printed, and the thread goes on to register; left alone for three
    steps, the worker calls [deliver] on that tagged result, and what the
    call of [deliver] does decides what is printed. In every reachable
    state a worker about to call [deliver] holds the job of the call that
    submitted it, and the argument it applies [deliver] to is the captured
    result of that job's [fn]; no worker thread has been ended by an
    exception. *)
Theorem C6_outcome s w W j jb :
  reachable s → workers s !! w = Some W →
  (thread_at W = AtCapture j jb →
     (∃ s', step (LWorker w) s = Some s' ∧
           workers s' !! w = Some (set_at (AtRegister j jb (capture (fn jb))) W) ∧
           trace s' = trace s ++ [EvExec w j (capture (fn jb))] ∧
           stderr s' = stderr s ∧
           (∀ v, fn jb tt = PyReturn v → capture (fn jb) = Value v) ∧
           (∀ e, fn jb tt = PyRaise e → capture (fn jb) = Error e)) ∧
     ∃ s3, run [LWorker w; LWorker w; LWorker w] s = Some s3 ∧
           trace s3 = trace s ++ [EvExec w j (capture (fn jb)); EvRegister w j;
                                  EvDeliver w j (capture (fn jb))] ∧
           stderr s3 = stderr s ++
             match deliver jb match fn jb tt with
                              | PyReturn v => Value v
                              | PyRaise e => Error e
                              end with
             | PyReturn _ => []
             | PyRaise e =>
                 "Exception while delivering result of thread"
                   :: print_exception e
             end) ∧
  (∀ r, thread_at W = AtDeliver j jb r →
     r = capture (fn jb) ∧
     (∀ v, fn jb tt = PyReturn v → r = Value v) ∧
     (∀ e, fn jb tt = PyRaise e → r = Error e) ∧
     (∃ cl, calls s !! j = Some cl ∧ call_job cl = jb) ∧
     ∃ s', step (LWorker w) s = Some s' ∧
           trace s' = trace s ++ [EvDeliver w j r] ∧
           workers s' !! w = Some (set_at AtAcquire W) ∧
           stderr s' = stderr s ++
             match deliver jb r with
             | PyReturn _ => []
             | PyRaise e =>
                 "Exception while delivering result of thread"
                   :: print_exception e
             end) ∧
  (∀ e, thread_at W ≠ Crashed e).
Proof.
  intros Hr HW.
  assert (Hlt : w < length (workers s)) by (by eapply lookup_lt_Some).
  split_and!.
  - intros Hat. split.
    + simpl. unfold _work_step. rewrite HW. simpl. rewrite Hat.
      eexists. split; [done|]. simpl. split_and!.
      * by apply list_lookup_insert_eq.
      * done.
      * done.
      * intros v Hv. unfold capture. by rewrite Hv.
      * intros e He. unfold capture. by rewrite He.
    + change (match fn jb tt with
              | PyReturn v => Value v
              | PyRaise e => Error e
              end) with (capture (fn jb)).
      set (r := capture (fn jb)).
      set (s1 := log (EvExec w j r) (set_worker w (set_at (AtRegister j jb r) W) s)).
      assert (H1 : step (LWorker w) s = Some s1).
      { simpl. unfold _work_step. rewrite HW. simpl. by rewrite Hat. }
      set (s2 := log (EvRegister w j)
                   (set_worker w (set_at (AtDeliver j jb r)
                                     (set_at (AtRegister j jb r) W))
                      (set_idle (Dict.setitem (_idle_workers s1) w) s1))).
      assert (H2 : step (LWorker w) s1 = Some s2).
      { simpl. unfold _work_step. simpl.
        by rewrite list_lookup_insert_eq by done. }
      assert (H3 : ∃ s3, step (LWorker w) s2 = Some s3 ∧
                trace s3 = trace s2 ++ [EvDeliver w j r] ∧
                stderr s3 = stderr s2 ++
                  match deliver jb r with
                  | PyReturn _ => []
                  | PyRaise e =>
                      "Exception while delivering result of thread"
                        :: print_exception e
                  end).
      { simpl. unfold _work_step. simpl.
        rewrite list_lookup_insert_eq by (by rewrite length_insert). simpl.
        destruct (deliver jb r); eexists; (split; [done|]); simpl;
          by rewrite ?app_nil_r. }
      destruct H3 as (s3 & H3 & Ht & He). exists s3.
      cbn [run]. rewrite H1. cbn [mbind option_bind]. rewrite H2.
      cbn [mbind option_bind]. rewrite H3. cbn [mbind option_bind].
      split; [done|]. rewrite Ht, He. simpl. by rewrite <- !app_assoc.
  - intros r Hat. destruct (reachable_inv _ Hr) as [st HI].
    pose proof (inv_pc _ _ HI _ _ HW) as Hpc. rewrite Hat in Hpc.
    destruct Hpc as (_ & -> & Hcl). split; [done|].
    split; [intros v Hv; unfold capture; by rewrite Hv|].
    split; [intros e He; unfold capture; by rewrite He|].
    split; [done|].
    simpl. unfold _work_step. rewrite HW. simpl. rewrite Hat.
    destruct (deliver jb (capture (fn jb))); eexists; (split; [done|]); simpl;
      rewrite ?app_nil_r; (split; [done|]);
      (split; [by apply list_lookup_insert_eq|done]).
  - intros e. by eapply no_crash.
Qed.

Lemma C6_outcome_witness :
  ∃ s', step (LWorker 0) C6_deliver_state = Some s' ∧
        trace s' = [EvSpawn 0 0; EvExec 0 0 (Error (RuntimeError "boom"));
                    EvRegister 0 0;
                    EvDeliver 0 0 (Error (RuntimeError "boom"))] ∧
        stderr s' = ["Exception while delivering result of thread";
                     "Traceback (most recent call last):";
                     "TypeError: bad"].
Proof.
  destruct (C6_outcome C6_deliver_state 0
              (mkWorker None true true "Trio worker thread 0"
                 (AtDeliver 0 job_boom (Error (RuntimeError "boom"))))
              0 job_boom) as (_ & H & _).
  - exists (C6_schedule ++ [LWorker 0; LWorker 0]). vm_compute. reflexivity.
  - reflexivity.
  - destruct (H (Error (RuntimeError "boom")))
      as (_ & _ & _ & _ & s' & Hs & Ht & _ & He); [reflexivity|].
    exists s'. split; [exact Hs|]. rewrite Ht, He. split; reflexivity.
Defined.

(** [d[k] = None] for a key already present leaves the registry as it
    is; the pool never does this: a worker at line 71 is not registered. *)
Lemma setitem_present d k : k ∈ d → Dict.setitem d k = d.
Proof. intros H. unfold Dict.setitem. by rewrite decide_True. Qed.

Lemma register_fresh s w W j jb r :
  reachable s → workers s !! w = Some W → thread_at W = AtRegister j jb r →
  w ∉ _idle_workers s.
Proof.
  intros Hr HW Hat Hin. destruct (reachable_inv _ Hr) as [st HI].
  destruct (inv_idle _ _ HI _ _ Hin HW) as (_ & _ & Hp). by rewrite Hat in Hp.
Qed.

Lemma filter_split {A} (P : A → Prop) `{∀ x, Decision (P x)} l d w d' :
  filter P l = d ++ w :: d' →
  ∃ D D', l = D ++ w :: D' ∧ filter P D = d.
Proof.
  revert d. induction l as [|x l IH]; intros d; [by destruct d|].
  destruct (decide (P x)) as [Hx|Hx].
  - rewrite filter_cons_True by done. destruct d as [|y d]; simpl.
    + intros [= -> _]. by exists [], l.
    + intros [= -> Hf]. destruct (IH _ Hf) as (D & D' & -> & <-).
      exists (y :: D), D'. split; [done|]. by rewrite filter_cons_True.
  - rewrite filter_cons_False by done. intros Hf.
    destruct (IH _ Hf) as (D & D' & -> & <-).
    exists (x :: D), D'. split; [done|]. by rewrite filter_cons_False.
Qed.

Lemma order_log e s :
  (∀ w j, e ≠ EvRegister w j) →
  in_registration_order s → in_registration_order (log e s).
Proof.
  intros He Ho d w d' Hd. destruct (Ho d w d' Hd) as (tr1 & j & tr2 & Ht & Hl).
  exists tr1, j, (tr2 ++ [e]). split.
  - simpl. rewrite Ht. by rewrite <- app_assoc.
  - intros w' j' [Hin|Hin%list_elem_of_singleton]%elem_of_app; [by eapply Hl|].
    by destruct (He w' j').
Qed.

Lemma order_same s s' :
  _idle_workers s' = _idle_workers s → trace s' = trace s →
  in_registration_order s → in_registration_order s'.
Proof. intros Hd Ht Ho d w d'. rewrite Hd, Ht. apply Ho. Qed.

Lemma order_prefix s s' d0 :
  _idle_workers s = _idle_workers s' ++ d0 → trace s' = trace s →
  in_registration_order s → in_registration_order s'.
Proof.
  intros Hd Ht Ho d w d' Hd'. rewrite Ht.
  apply (Ho d w (d' ++ d0)). rewrite Hd, Hd'. by rewrite <- app_assoc.
Qed.

Lemma order_filter s s' k :
  _idle_workers s' = filter (λ x, x ≠ k) (_idle_workers s) →
  trace s' = trace s →
  in_registration_order s → in_registration_order s'.
Proof.
  intros Hd Ht Ho d w d' Hd'. rewrite Ht. rewrite Hd in Hd'.
  destruct (filter_split _ _ _ _ _ Hd') as (D & D' & HD & Hf).
  destruct (Ho _ _ _ HD) as (tr1 & j & tr2 & Htr & Hl).
  exists tr1, j, tr2. split; [done|]. intros w' j' Hin Hw'.
  apply (Hl w' j' Hin). apply elem_of_app in Hw' as [Hw'|Hw'].
  - apply elem_of_app. left. rewrite <- Hf in Hw'.
    by apply list_elem_of_filter in Hw' as [_ ?].
  - apply elem_of_app. by right.
Qed.

Lemma order_register s w j :
  (w ∉ _idle_workers s) →
  in_registration_order s →
  in_registration_order
    (log (EvRegister w j) (set_idle (Dict.setitem (_idle_workers s) w) s)).
Proof.
  intros Hni Ho d x d' Hd. simpl in Hd. unfold Dict.setitem in Hd.
  rewrite decide_False in Hd by done. simpl.
  induction d' as [|y d' _] using rev_ind.
  - apply app_inj_tail in Hd as [<- <-].
    exists (trace s), j, []. split; [done|].
    intros w' j' Hin. by apply elem_of_nil in Hin.
  - rewrite app_comm_cons, app_assoc in Hd.
    apply app_inj_tail in Hd as [Hd <-].
    destruct (Ho _ _ _ Hd) as (tr1 & j0 & tr2 & Ht & Hl).
    exists tr1, j0, (tr2 ++ [EvRegister w j]). split.
    + rewrite Ht. by rewrite <- app_assoc.
    + intros w' j' [Hin|Hin%list_elem_of_singleton]%elem_of_app;
        [by eapply Hl|].
      simplify_eq. intros Hin. apply Hni. rewrite Hd.
      apply elem_of_app in Hin as [Hin|Hin%list_elem_of_singleton].
      * apply elem_of_app. by left.
      * subst. apply elem_of_app. right. apply list_elem_of_here.
Qed.

Lemma step_order l s s' :
  reachable s → in_registration_order s → step l s = Some s' →
  in_registration_order s'.
Proof.
  intros Hr Ho. destruct l as [jb|c|w|w]; simpl.
  - intros [= <-]. by apply (order_same s).
  - unfold start_thread_soon_step.
    destruct (calls s !! c) as [cl|] eqn:Hc; simpl; [|done].
    destruct (call_at cl) as [| |w|w| |e] eqn:Hat; try done.
    + destruct (Dict.popitem (_idle_workers s)) as [[w d']|] eqn:Hp;
        intros [= <-]; [|by apply (order_same s)].
      apply order_log; [done|]. apply popitem_Some in Hp.
      by apply (order_prefix s _ [w]).
    + intros [= <-]. apply order_log; [done|]. by apply (order_same s).
    + destruct (workers s !! w) as [W|]; simpl; [|done]. intros [= <-].
      by apply (order_same s).
    + destruct (workers s !! w) as [W|]; simpl; [|done].
      destruct (_worker_lock W); intros [= <-]; by apply (order_same s).
  - unfold _work_step. destruct (workers s !! w) as [W|] eqn:HW; simpl; [|done].
    destruct (thread_at W) as [| |j jb|j jb|j jb r|j jb r| | |e] eqn:Hat;
      try done.
    + destruct (_worker_lock W); [done|]. intros [= <-]. by apply (order_same s).
    + destruct (_job W) as [[j jb]|]; intros [= <-]; by apply (order_same s).
    + intros [= <-]. by apply (order_same s).
    + intros [= <-]. apply order_log; [done|]. by apply (order_same s).
    + intros [= <-].
      pose proof (register_fresh _ _ _ _ _ _ Hr HW Hat) as Hni.
      pose proof (order_register s w j Hni Ho) as Ho'.
      intros d x d' Hd. apply (Ho' d x d'). exact Hd.
    + destruct (deliver jb r); intros [= <-].
      * apply order_log; [done|]. by apply (order_same s).
      * apply (order_same (log (EvDeliver w j r)
                             (set_worker w (set_at AtAcquire W) s))); [done..|].
        apply order_log; [done|]. by apply (order_same s).
    + destruct (Dict.delitem (_idle_workers s) w) as [d'|] eqn:Hdl;
        intros [= <-]; [|by apply (order_same s)].
      apply order_log; [done|].
      apply (order_filter s _ w); [|done..].
      simpl. unfold Dict.delitem in Hdl. case_decide; by simplify_eq.
  - unfold _work_timeout.
    destruct (workers s !! w) as [W|]; simpl; [|done].
    destruct (thread_at W); try done.
    destruct (_worker_lock W); [|done]. intros [= <-]. by apply (order_same s).
Qed.

Lemma run_order ls :
  ∀ s s', reachable s → in_registration_order s → run ls s = Some s' →
          in_registration_order s'.
Proof.
  induction ls as [|l ls IH]; intros s s' Hr Ho; simpl.
  - by intros [= <-].
  - destruct (step l s) as [s1|] eqn:Hs; simpl; [|done].
    apply IH; [|by eapply step_order].
    apply (reachable_run [l] s); [done|]. simpl. by rewrite Hs.
Qed.

Lemma reachable_order s : reachable s → in_registration_order s.
Proof.
  intros [ls Hr]. apply (run_order ls THREAD_CACHE); [by exists []| |done].
  intros d w d' Hd. by destruct d.
Qed.

(** C7 — the registry pops last in, first out. In every reachable state:
    a worker about to register at line 71 is not in the registry, its
    insertion puts it last, and a pop right after returns that worker and
    leaves the registry as it was before the insertion, so a call popping
    then takes it; whenever a call pops, the worker it gets is the one
    whose registration is the most recent among the workers in the
    registry; on the empty registry the pop reports empty and the call goes
    on to build a new worker. For the registry operations themselves:
    inserting an absent key and popping returns that key. *)
Theorem C7_lifo_pop s :
  reachable s →
  (∀ w W j jb r,
     workers s !! w = Some W → thread_at W = AtRegister j jb r →
     (w ∉ _idle_workers s) ∧
     ∃ s1, step (LWorker w) s = Some s1 ∧
           _idle_workers s1 = Dict.setitem (_idle_workers s) w ∧
           Dict.popitem (_idle_workers s1) = Some (w, _idle_workers s) ∧
           ∀ c cl, calls s1 !! c = Some cl → call_at cl = CallPop →
             ∃ s2, step (LCall c) s1 = Some s2 ∧
                   calls s2 !! c = Some (moved_to (CallWrite w) cl) ∧
                   _idle_workers s2 = _idle_workers s) ∧
  (∀ c cl, calls s !! c = Some cl → call_at cl = CallPop →
     (∀ d w, _idle_workers s = d ++ [w] →
        (∃ s1, step (LCall c) s = Some s1 ∧
               calls s1 !! c = Some (moved_to (CallWrite w) cl) ∧
               _idle_workers s1 = d) ∧
        ∃ tr1 j tr2, trace s = tr1 ++ EvRegister w j :: tr2 ∧
                     ∀ w' j', EvRegister w' j' ∈ tr2 → w' ∉ _idle_workers s) ∧
     (_idle_workers s = [] →
        Dict.popitem (_idle_workers s) = None ∧
        ∃ s1 s2, step (LCall c) s = Some s1 ∧
                 calls s1 !! c = Some (moved_to CallSpawn cl) ∧
                 step (LCall c) s1 = Some s2 ∧
                 workers s2 =
                   workers s ++ [WorkerThread__init__ (name_counter s)])) ∧
  (∀ d w, w ∉ d → Dict.popitem (Dict.setitem d w) = Some (w, d)) ∧
  Dict.popitem [] = None.
Proof.
  intros Hr. split_and!.
  - intros w W j jb r HW Hat.
    assert (Hlt : w < length (workers s)) by (by eapply lookup_lt_Some).
    pose proof (register_fresh _ _ _ _ _ _ Hr HW Hat) as Hni.
    split; [done|]. simpl. unfold _work_step. rewrite HW. simpl. rewrite Hat.
    eexists. split; [done|]. simpl. split; [done|].
    unfold Dict.setitem. rewrite decide_False by done.
    split; [apply popitem_snoc|].
    intros c cl Hc Hcl. unfold start_thread_soon_step. simpl. rewrite Hc.
    simpl. rewrite Hcl, popitem_snoc. eexists. split; [done|]. simpl.
    split; [|done]. apply list_lookup_insert_eq. by eapply lookup_lt_Some.
  - intros c cl Hc Hat.
    assert (Hlt : c < length (calls s)) by (by eapply lookup_lt_Some).
    split.
    + intros d w Hd. split.
      * simpl. unfold start_thread_soon_step. rewrite Hc. simpl.
        rewrite Hat, Hd, popitem_snoc. eexists. split; [done|]. simpl.
        split; [|done]. by apply list_lookup_insert_eq.
      * destruct (reachable_order s Hr d w [] Hd) as (tr1 & j & tr2 & Ht & Hl).
        exists tr1, j, tr2. split; [done|]. rewrite Hd. apply Hl.
    + intros Hd. split; [by rewrite Hd|].
      simpl. unfold start_thread_soon_step at 1. rewrite Hc. simpl.
      rewrite Hat, Hd. simpl. eexists _, _. split; [done|]. simpl.
      split; [by apply list_lookup_insert_eq|].
      unfold start_thread_soon_step. simpl.
      rewrite list_lookup_insert_eq by done. simpl. done.
  - intros d w Hni. unfold Dict.setitem. rewrite decide_False by done.
    apply popitem_snoc.
  - done.
Qed.

Lemma C7_lifo_pop_witness :
  ∃ s1, step (LWorker 0) C7_state = Some s1 ∧
        _idle_workers s1 = [0] ∧
        Dict.popitem (_idle_workers s1) = Some (0, []).
Proof.
  assert (Hr : reachable C7_state)
    by (exists (C6_schedule ++ [LWorker 0]); vm_compute; reflexivity).
  destruct (C7_lifo_pop C7_state Hr) as (H & _).
  destruct (H 0 (mkWorker None true true "Trio worker thread 0"
                   (AtRegister 0 job_boom (Error (RuntimeError "boom"))))
              0 job_boom (Error (RuntimeError "boom")))
    as (_ & s1 & Hs & Hd & Hp & _); [reflexivity..|].
  exists s1. split; [exact Hs|]. split; [rewrite Hd; reflexivity|exact Hp].
Defined.

(** C8 — a worker built by [start_thread_soon] starts with an empty job
    slot, its lock held, and a daemon thread started at the top of the work
    loop, where it stays blocked: with the lock held it has no step. *)
Theorem C8_construction s c cl :
  calls s !! c = Some cl → call_at cl = CallSpawn →
  ∃ s' W,
    step (LCall c) s = Some s' ∧
    workers s' !! length (workers s) = Some W ∧
    W = WorkerThread__init__ (name_counter s) ∧
    _job W = None ∧ _worker_lock W = true ∧ thread_daemon W = true ∧
    thread_at W = AtAcquire ∧
    step (LWorker (length (workers s))) s' = None.
Proof.
  intros Hc Hat. simpl. unfold start_thread_soon_step. rewrite Hc. simpl.
  rewrite Hat. eexists _, _. split; [done|]. simpl.
  assert (E : (workers s ++ [WorkerThread__init__ (name_counter s)])
                !! length (workers s)
              = Some (WorkerThread__init__ (name_counter s))).
  { apply lookup_snoc_Some. by right. }
  split; [exact E|]. split_and!; try done.
  unfold _work_step. simpl. rewrite E. done.
Qed.

Lemma C8_construction_witness :
  ∃ s' W,
    step (LCall 0) (set_call 0 (mkCall job_seven CallSpawn)
                      (add_call (mkCall job_seven CallPop) THREAD_CACHE))
      = Some s' ∧
    workers s' !! 0 = Some W ∧
    W = WorkerThread__init__ 0 ∧
    _job W = None ∧ _worker_lock W = true ∧ thread_daemon W = true ∧
    thread_at W = AtAcquire ∧
    step (LWorker 0) s' = None.
Proof.
  apply (C8_construction
           (set_call 0 (mkCall job_seven CallSpawn)
              (add_call (mkCall job_seven CallPop) THREAD_CACHE))
           0 (mkCall job_seven CallSpawn)); reflexivity.
Defined.

(** C9 — with no active runner in the global run context, each of the six
    entry points raises [RuntimeError("must be called from async context")];
    none returns a value and none lets another exception through. *)
Theorem C9_outside_run ctx :
  Kqueue.runner ctx = None →
  let err := PyRaise (RuntimeError "must be called from async context") in
  Kqueue.current_kqueue ctx = err ∧
  (∀ ident filter, Kqueue.monitor_kevent ctx ident filter = err) ∧
  (∀ ident filter abort_func,
     Kqueue.wait_kevent ctx ident filter abort_func = err) ∧
  (∀ fd, Kqueue.wait_readable ctx fd = err) ∧
  (∀ fd, Kqueue.wait_writable ctx fd = err) ∧
  (∀ fd, Kqueue.notify_closing ctx fd = err).
Proof.
  intros Hr. simpl.
  unfold Kqueue.current_kqueue, Kqueue.monitor_kevent, Kqueue.wait_kevent,
    Kqueue.wait_readable, Kqueue.wait_writable, Kqueue.notify_closing,
    Kqueue.getattr_runner.
  rewrite Hr. simpl. split_and!; reflexivity.
Qed.

Lemma C9_outside_run_witness :
  Kqueue.current_kqueue (Kqueue.mkRunContext None)
    = PyRaise (RuntimeError "must be called from async context") ∧
  Kqueue.wait_readable (Kqueue.mkRunContext None) (PyInt 3)
    = PyRaise (RuntimeError "must be called from async context").
Proof.
  destruct (C9_outside_run (Kqueue.mkRunContext None)) as (H1 & _ & _ & H4 & _);
    [reflexivity|].
  split; [exact H1|exact (H4 (PyInt 3))].
Defined.

Lemma enter_claimed position s :
  position ∈ Sequencer._claimed s →
  Sequencer.enter position s =
    (Sequencer.EnterRaised
       (RuntimeError ("Attempted to re-use sequence point " +:+ pretty position)),
     s).
Proof. intros H. unfold Sequencer.enter. by rewrite decide_True. Qed.

Lemma do_op_claimed o s :
  Sequencer._claimed s ⊆ Sequencer._claimed (Sequencer.do_op o s).2.
Proof.
  destruct o as [p|c|p]; simpl.
  - unfold Sequencer.enter. repeat (case_decide || case_match); simpl;
      set_solver.
  - unfold Sequencer.resume. repeat case_match; simpl; set_solver.
  - done.
Qed.

Lemma took_claimed position o s :
  Sequencer.took position o (Sequencer.do_op o s).1 = true →
  (position ∉ Sequencer._claimed s) ∧
  position ∈ Sequencer._claimed (Sequencer.do_op o s).2.
Proof.
  destruct o as [p|c|p]; simpl.
  - unfold Sequencer.enter.
    destruct (decide (p ∈ Sequencer._claimed s)); simpl; [done|].
    destruct (Sequencer._broken s); simpl; [done|].
    destruct (decide (p ≠ 0%Z)); simpl;
      intros ->%bool_decide_eq_true; set_solver.
  - unfold Sequencer.resume. repeat case_match; simpl; done.
  - done.
Qed.

Lemma times_claimed_cons position o ops s :
  Sequencer.times_claimed position (o :: ops) s =
    (if Sequencer.took position o (Sequencer.do_op o s).1 then 1 else 0)
    + Sequencer.times_claimed position ops (Sequencer.do_op o s).2.
Proof. simpl. by destruct (Sequencer.do_op o s). Qed.

Lemma times_claimed_zero position ops s :
  position ∈ Sequencer._claimed s →
  Sequencer.times_claimed position ops s = 0.
Proof.
  revert s. induction ops as [|o ops IH]; intros s Hin; [done|].
  rewrite times_claimed_cons.
  rewrite IH by (by apply do_op_claimed).
  destruct (Sequencer.took position o (Sequencer.do_op o s).1) eqn:E; [|done].
  by destruct (took_claimed _ _ _ E).
Qed.

Lemma times_claimed_le position ops s :
  Sequencer.times_claimed position ops s ≤ 1.
Proof.
  revert s. induction ops as [|o ops IH]; intros s; [simpl; lia|].
  rewrite times_claimed_cons.
  destruct (Sequencer.took position o (Sequencer.do_op o s).1) eqn:E.
  - destruct (took_claimed _ _ _ E) as [_ Hin].
    rewrite (times_claimed_zero _ _ _ Hin). lia.
  - specialize (IH (Sequencer.do_op o s).2). lia.
Qed.

(** C10 — entering a Sequencer at a position that an earlier call on the
    instance has claimed raises [RuntimeError], naming the position, with
    the instance left as it was: no wait, no guarded block. A call that gets
    past the checks puts its position among the claimed ones, and they stay
    there; so over any sequence of operations on one instance each position
    gets past the checks at most once, and never again once claimed. *)
Theorem C10_reuse position s :
  position ∈ Sequencer._claimed s →
  Sequencer.enter position s =
    (Sequencer.EnterRaised
       (RuntimeError ("Attempted to re-use sequence point " +:+ pretty position)),
     s) ∧
  (∀ ops, Sequencer.times_claimed position ops s = 0) ∧
  (∀ o, position ∈ Sequencer._claimed (Sequencer.do_op o s).2) ∧
  (∀ p ops s0, Sequencer.times_claimed p ops s0 ≤ 1) ∧
  (∀ p s0, (Sequencer.enter p s0).1 = Sequencer.EnterWaiting ∨
           (Sequencer.enter p s0).1 = Sequencer.EnterYielded →
           p ∈ Sequencer._claimed (Sequencer.enter p s0).2).
Proof.
  intros Hin. split_and!.
  - by apply enter_claimed.
  - intros ops. by apply times_claimed_zero.
  - intros o. by apply do_op_claimed.
  - intros p ops s0. apply times_claimed_le.
  - intros p s0. unfold Sequencer.enter.
    destruct (decide (p ∈ Sequencer._claimed s0)); simpl; [by intros [?|?]|].
    destruct (Sequencer._broken s0); simpl; [by intros [?|?]|].
    destruct (decide (p ≠ 0%Z)); simpl; intros _; set_solver.
Qed.

Lemma C10_reuse_witness :
  Sequencer.enter 3 (Sequencer.enter 3 Sequencer.new).2 =
    (Sequencer.EnterRaised
       (RuntimeError "Attempted to re-use sequence point 3"),
     (Sequencer.enter 3 Sequencer.new).2).
Proof.
  destruct (C10_reuse 3 (Sequencer.enter 3 Sequencer.new).2) as (H & _).
  - vm_compute. set_solver.
  - exact H.
Defined.

(** ** Further properties of the thread cache *)

Lemma mend_call_same cl :
  (∀ e, call_at cl ≠ CallRaised e) → mend_call cl = cl.
Proof. intros H. unfold mend_call. destruct (call_at cl); try done. by destruct (H e). Qed.

Lemma mend_lookup s c cl :
  calls s !! c = Some cl → calls (mend s) !! c = Some (mend_call cl).
Proof. intros H. simpl. by rewrite list_lookup_fmap, H. Qed.

Lemma mend_set_call c cl s :
  mend (set_call c cl s) = set_call c (mend_call cl) (mend s).
Proof. unfold mend, set_call. simpl. by rewrite list_fmap_insert. Qed.

Lemma step_mend l s s' st :
  Inv (mend s) st → step l s = Some s' → step l (mend s) = Some (mend s').
Proof.
  intros HI. destruct l as [jb|c|w|w]; simpl.
  - intros [= <-]. f_equal. unfold mend, add_call. simpl.
    by rewrite fmap_app.
  - unfold start_thread_soon_step.
    destruct (calls s !! c) as [cl|] eqn:Hc; simpl; [|done].
    pose proof (mend_lookup _ _ _ Hc) as Hm.
    destruct (call_at cl) as [| |w|w| |e] eqn:Hat; try done;
      (rewrite mend_call_same in Hm by (intros e; by rewrite Hat));
      rewrite list_lookup_fmap, Hc; simpl;
      rewrite (mend_call_same cl) by (intros e; by rewrite Hat);
      simpl; rewrite Hat.
    + destruct (Dict.popitem (_idle_workers s)) as [[w d']|]; intros [= <-];
        f_equal; unfold mend; simpl; by rewrite list_fmap_insert.
    + intros [= <-]. f_equal. unfold mend. simpl. by rewrite list_fmap_insert.
    + destruct (workers s !! w) as [W|]; simpl; [|done]. intros [= <-].
      f_equal. unfold mend. simpl. by rewrite list_fmap_insert.
    + destruct (workers s !! w) as [W|] eqn:HW; simpl; [|done].
      assert (Hlk : _worker_lock W = true)
        by (by eapply (release_locked (mend s) st c cl w W)).
      rewrite Hlk. intros [= <-]. f_equal. unfold mend. simpl.
      by rewrite list_fmap_insert.
  - unfold _work_step. change (workers (mend s)) with (workers s).
    destruct (workers s !! w) as [W|]; simpl; [|done].
    destruct (thread_at W); try done; repeat case_match; try done;
      intros [= <-]; done.
  - unfold _work_timeout. change (workers (mend s)) with (workers s).
    destruct (workers s !! w) as [W|]; simpl; [|done].
    destruct (thread_at W); try done; repeat case_match; try done;
      intros [= <-]; done.
Qed.

Lemma start_fails_mend c e s s' :
  start_fails c e s = Some s' →
  mend s' = mkState (_idle_workers (mend s)) (workers (mend s))
              (S (name_counter (mend s))) (calls (mend s))
              (trace (mend s)) (stderr (mend s)).
Proof.
  unfold start_fails. destruct (calls s !! c) as [cl|] eqn:Hc; simpl; [|done].
  destruct (call_at cl) eqn:Hat; try done. intros [= <-].
  unfold mend. simpl. f_equal. rewrite list_fmap_insert.
  apply list_insert_id. rewrite list_lookup_fmap, Hc. simpl. f_equal.
  unfold mend_call. rewrite Hat. simpl. destruct cl; simpl in *; by subst.
Qed.

Lemma fstep_inv fl s s' st :
  Inv (mend s) st → fstep fl s = Some s' → ∃ st', Inv (mend s') st'.
Proof.
  intros HI. destruct fl as [l|c e]; simpl; intros Hs.
  - eapply step_inv; [done|]. by eapply step_mend.
  - rewrite (start_fails_mend _ _ _ _ Hs). exists st. split; apply HI.
Qed.

Lemma frun_inv ls :
  ∀ s s' st, Inv (mend s) st → frun ls s = Some s' → ∃ st', Inv (mend s') st'.
Proof.
  induction ls as [|l ls IH]; intros s s' st HI; simpl.
  - intros [= <-]. eauto.
  - destruct (fstep l s) as [s1|] eqn:Hs; simpl; [|done].
    destruct (fstep_inv _ _ _ _ HI Hs) as [st1 HI1]. by apply IH with st1.
Qed.

Lemma frun_init_inv ls s :
  frun ls THREAD_CACHE = Some s → ∃ st, Inv (mend s) st.
Proof. intros Hr. eapply (frun_inv ls THREAD_CACHE); [apply Inv_init|done]. Qed.

(** A call is found raised after a step only if it was before, or the
    step is the failure of its own [thread.start()]. *)
Lemma fstep_raised fl s s' st c cl e :
  Inv (mend s) st → fstep fl s = Some s' →
  calls s' !! c = Some cl → call_at cl = CallRaised e →
  fl = FStartFails c e ∨
  ∃ cl0, calls s !! c = Some cl0 ∧ call_at cl0 = CallRaised e.
Proof.
  intros HI. destruct fl as [[jb|c0|w|w]|c0 e0]; simpl.
  - intros [= <-]. simpl. intros Hc Hat. right.
    apply lookup_snoc_Some in Hc as [(? & Hc) | (? & ?)]; [eauto|by simplify_eq].
  - unfold start_thread_soon_step.
    destruct (calls s !! c0) as [cl0|] eqn:Hc0; simpl; [|done].
    pose proof (mend_lookup _ _ _ Hc0) as Hm.
    destruct (call_at cl0) as [| |w|w| |e1] eqn:Hat0; try done;
      (rewrite mend_call_same in Hm by (intros ?; by rewrite Hat0)).
    + destruct (Dict.popitem (_idle_workers s)) as [[w d']|]; intros [= <-];
        simpl; intros Hc Hat; right;
        (apply list_lookup_insert_Some in Hc as [(? & ? & ?) | (? & Hc)];
         [by simplify_eq|eauto]).
    + intros [= <-]. simpl. intros Hc Hat. right.
      apply list_lookup_insert_Some in Hc as [(? & ? & ?) | (? & Hc)];
        [by simplify_eq|eauto].
    + destruct (workers s !! w) as [W|]; simpl; [|done]. intros [= <-].
      simpl. intros Hc Hat. right.
      apply list_lookup_insert_Some in Hc as [(? & ? & ?) | (? & Hc)];
        [by simplify_eq|eauto].
    + destruct (workers s !! w) as [W|] eqn:HW; simpl; [|done].
      assert (Hlk : _worker_lock W = true)
        by (by eapply (release_locked (mend s) st c0 cl0 w W)).
      rewrite Hlk. intros [= <-]. simpl. intros Hc Hat. right.
      apply list_lookup_insert_Some in Hc as [(? & ? & ?) | (? & Hc)];
        [by simplify_eq|eauto].
  - unfold _work_step. destruct (workers s !! w) as [W|]; simpl; [|done].
    destruct (thread_at W); try done; repeat case_match; try done;
      intros [= <-]; simpl; eauto.
  - unfold _work_timeout. destruct (workers s !! w) as [W|]; simpl; [|done].
    destruct (thread_at W); try done; repeat case_match; try done;
      intros [= <-]; simpl; eauto.
  - unfold start_fails.
    destruct (calls s !! c0) as [cl0|] eqn:Hc0; simpl; [|done].
    destruct (call_at cl0) eqn:Hat0; try done. intros [= <-]. simpl.
    intros Hc Hat.
    apply list_lookup_insert_Some in Hc as [(? & ? & ?) | (? & Hc)].
    + left. subst. simpl in Hat. by simplify_eq.
    + right. eauto.
Qed.

Lemma frun_raised ls :
  ∀ s s' st c cl e,
    Inv (mend s) st → frun ls s = Some s' →
    calls s' !! c = Some cl → call_at cl = CallRaised e →
    FStartFails c e ∈ ls ∨
    ∃ cl0, calls s !! c = Some cl0 ∧ call_at cl0 = CallRaised e.
Proof.
  induction ls as [|l ls IH]; intros s s' st c cl e HI; simpl.
  - intros [= <-]. eauto.
  - destruct (fstep l s) as [s1|] eqn:Hs; simpl; [|done]. intros Hr Hc Hat.
    destruct (fstep_inv _ _ _ _ HI Hs) as [st1 HI1].
    destruct (IH _ _ _ _ _ _ HI1 Hr Hc Hat) as [Hin|(cl1 & Hc1 & Hat1)].
    + left. by apply list_elem_of_further.
    + destruct (fstep_raised _ _ _ _ _ _ _ HI Hs Hc1 Hat1) as [->|?].
      * left. apply list_elem_of_here.
      * by right.
Qed.

(** X1 — a call of [start_thread_soon] raises only when its own
    [thread.start()] failed, and no call ever blocks: over every
    interleaving of calls, workers, elapsed waits and failing thread
    creations, a call that has ended in an exception is one whose
    [thread.start()] raised that exception (the release at line 111 always
    finds the lock held), and every call that has neither returned nor
    raised can take its next step. *)
Theorem X1_call_raises_only_if_start_fails ls s c cl :
  frun ls THREAD_CACHE = Some s → calls s !! c = Some cl →
  (∀ e, call_at cl = CallRaised e → FStartFails c e ∈ ls) ∧
  (call_at cl ≠ CallReturned → (∀ e, call_at cl ≠ CallRaised e) →
   is_Some (step (LCall c) s)).
Proof.
  intros Hr Hc. destruct (frun_init_inv _ _ Hr) as [st HI]. split.
  - intros e Hat.
    destruct (frun_raised ls THREAD_CACHE s _ c cl e Inv_init Hr Hc Hat)
      as [?|(cl0 & Hc0 & _)]; done.
  - intros Hnr Hne. pose proof (mend_lookup _ _ _ Hc) as Hm.
    rewrite mend_call_same in Hm by done.
    simpl. unfold start_thread_soon_step. rewrite Hc. simpl.
    destruct (call_at cl) as [| |w|w| |e] eqn:Hat; try done.
    + destruct (Dict.popitem (_idle_workers s)) as [[? ?]|]; done.
    + destruct (inv_claim_lt _ _ HI c cl w Hm) as [Hlt _]; [by rewrite Hat|].
      apply lookup_lt_is_Some in Hlt as [W HW]. simpl in HW. by rewrite HW.
    + destruct (inv_claim_lt _ _ HI c cl w Hm) as [Hlt _]; [by rewrite Hat|].
      apply lookup_lt_is_Some in Hlt as [W HW]. simpl in HW. rewrite HW. simpl.
      by rewrite (release_locked _ _ _ _ _ _ HI Hm Hat HW).
    + by destruct (Hne e).
Qed.

Lemma X1_call_raises_only_if_start_fails_witness :
  FStartFails 0 (RuntimeError "can't start new thread") ∈ X1_schedule.
Proof.
  destruct (X1_call_raises_only_if_start_fails X1_schedule X1_state 0
              (mkCall job_boom
                 (CallRaised (RuntimeError "can't start new thread"))))
    as [H _].
  - vm_compute. reflexivity.
  - reflexivity.
  - apply H. reflexivity.
Defined.

(** X2 — mutual exclusion of assignments: in every reachable state a
    worker held by a call (popped or newly built, not yet released) is out
    of the registry, has its lock held and is held by no other call; and
    when the call is about to write the job at line 110 the slot is empty,
    so no pending job is overwritten. *)
Theorem X2_held_worker_exclusive s c cl w :
  reachable s → calls s !! c = Some cl → claims (call_at cl) = Some w →
  ∃ W, workers s !! w = Some W ∧
       (w ∉ _idle_workers s) ∧
       _worker_lock W = true ∧
       (call_at cl = CallWrite w → _job W = None) ∧
       (call_at cl = CallRelease w → _job W = Some (c, call_job cl)) ∧
       ∀ c' cl', calls s !! c' = Some cl' →
                 claims (call_at cl') = Some w → c' = c.
Proof.
  intros Hr Hc Hcl. destruct (reachable_inv _ Hr) as [st HI].
  destruct (inv_claim_lt _ _ HI _ _ _ Hc Hcl) as [Hlt Hni].
  apply lookup_lt_is_Some in Hlt as [W HW].
  destruct (inv_claim _ _ HI _ _ _ _ Hc Hcl HW) as (Hlk & _ & Hjob).
  exists W. split_and!; try done.
  - intros Hat. by rewrite Hat in Hjob.
  - intros Hat. by rewrite Hat in Hjob.
  - intros c' cl' Hc' Hcl'. by eapply (inv_claim_uniq _ _ HI c' c).
Qed.

Lemma X2_held_worker_exclusive_witness :
  ∃ W, workers (default THREAD_CACHE (run X2_schedule THREAD_CACHE)) !! 0
         = Some W ∧ _worker_lock W = true ∧ _job W = None.
Proof.
  destruct (X2_held_worker_exclusive
              (default THREAD_CACHE (run X2_schedule THREAD_CACHE)) 0
              (mkCall job_seven (CallWrite 0)) 0)
    as (W & HW & _ & Hlk & Hj & _).
  - exists X2_schedule. vm_compute. reflexivity.
  - reflexivity.
  - reflexivity.
  - exists W. split_and!; [exact HW|exact Hlk|by apply Hj].
Defined.

Lemma busy_worker_alone s w W :
  reachable s → workers s !! w = Some W → ¬ parked (thread_at W) →
  (w ∉ _idle_workers s) ∧ ¬ claimed_by s w.
Proof.
  intros Hr HW Hnp. destruct (reachable_inv _ Hr) as [st HI]. split.
  - intros Hin. by destruct (inv_idle _ _ HI _ _ Hin HW) as (_ & _ & ?).
  - intros (c & cl & Hc & Hcl).
    by destruct (inv_claim _ _ HI _ _ _ _ Hc Hcl HW) as (_ & ? & _).
Qed.

(** X3 — a worker handling a job is left alone: from the successful
    [acquire] until it registers again (lines 64 to 71) it is not in the
    registry, no call holds it and its lock stays held; the unpacking at
    line 64 always finds a job, and the job that line 65 clears is the one
    line 64 read. *)
Theorem X3_busy_worker_alone s w W :
  reachable s → workers s !! w = Some W → ¬ parked (thread_at W) →
  (w ∉ _idle_workers s) ∧ ¬ claimed_by s w ∧ _worker_lock W = true ∧
  (thread_at W = AtRead → is_Some (_job W)) ∧
  (∀ j jb, thread_at W = AtClear j jb → _job W = Some (j, jb)).
Proof.
  intros Hr HW Hnp. destruct (reachable_inv _ Hr) as [st HI].
  pose proof (inv_worker _ _ HI _ _ HW) as Hok. unfold worker_ok in Hok.
  destruct (busy_worker_alone s w W Hr HW Hnp) as [Hni Hnc].
  split_and!; [done|done|..].
  - destruct (thread_at W); simpl in *; tauto.
  - intros Hat. rewrite Hat in Hok. destruct Hok as [_ Hj].
    by destruct (_job W).
  - intros j jb Hat. rewrite Hat in Hok. tauto.
Qed.

Lemma X3_busy_worker_alone_witness :
  (0 ∉ _idle_workers C6_state) ∧ ¬ claimed_by C6_state 0.
Proof.
  destruct (X3_busy_worker_alone C6_state 0
              (mkWorker None true true "Trio worker thread 0"
                 (AtCapture 0 job_boom))) as (H1 & H2 & _).
  - exists C6_schedule. vm_compute. reflexivity.
  - reflexivity.
  - simpl. tauto.
  - split; [exact H1|exact H2].
Defined.

(** X4 — the registry only ever holds waiting workers: in every reachable
    state it has no duplicate, and each worker in it exists, has its lock
    held and its job slot empty, is waiting for a job (or still inside
    [deliver], or between an elapsed wait and its [del]), and is held by no
    call. *)
Theorem X4_registry_holds_waiting s w :
  reachable s → w ∈ _idle_workers s →
  NoDup (_idle_workers s) ∧
  ∃ W, workers s !! w = Some W ∧
       _worker_lock W = true ∧ _job W = None ∧ parked (thread_at W) ∧
       ¬ claimed_by s w.
Proof.
  intros Hr Hin. destruct (reachable_inv _ Hr) as [st HI].
  split; [apply HI|].
  destruct (lookup_lt_is_Some_2 _ _ (inv_idle_lt _ _ HI _ Hin)) as [W HW].
  destruct (inv_idle _ _ HI _ _ Hin HW) as (? & ? & ?).
  exists W. split_and!; try done.
  intros (c & cl & Hc & Hcl).
  by destruct (inv_claim_lt _ _ HI _ _ _ Hc Hcl) as [_ ?].
Qed.

Lemma X4_registry_holds_waiting_witness :
  NoDup (_idle_workers C2_state) ∧
  ∃ W, workers C2_state !! 0 = Some W ∧
       _worker_lock W = true ∧ _job W = None ∧ parked (thread_at W) ∧
       ¬ claimed_by C2_state 0.
Proof.
  apply (X4_registry_holds_waiting C2_state 0).
  - exists (take 10 C2_schedule). vm_compute. reflexivity.
  - vm_compute. apply list_elem_of_here.
Defined.

Lemma step_frame l s s' w W :
  step l s = Some s' → workers s !! w = Some W →
  workers s' !! w = Some W ∨ l = LWorker w ∨ l = LTimeout w ∨
  ∃ c cl, l = LCall c ∧ calls s !! c = Some cl ∧
          claims (call_at cl) = Some w.
Proof.
  intros Hs HW.
  assert (Hlt : w < length (workers s)) by (by eapply lookup_lt_Some).
  destruct l as [jb|c|w0|w0]; simpl in Hs.
  - left. by simplify_eq.
  - unfold start_thread_soon_step in Hs.
    destruct (calls s !! c) as [cl|] eqn:Hc; simpl in Hs; [|done].
    destruct (call_at cl) as [| |w1|w1| |e] eqn:Hat; try done.
    + left. destruct (Dict.popitem (_idle_workers s)) as [[? ?]|];
        by simplify_eq.
    + left. simplify_eq. simpl. by rewrite lookup_app_l.
    + destruct (workers s !! w1) as [W1|] eqn:HW1; simpl in Hs; [|done].
      simplify_eq. destruct (decide (w1 = w)) as [->|Hne].
      * right. right. right. exists c, cl. by rewrite Hat.
      * left. simpl. by rewrite list_lookup_insert_ne.
    + destruct (workers s !! w1) as [W1|] eqn:HW1; simpl in Hs; [|done].
      destruct (decide (w1 = w)) as [->|Hne].
      * right. right. right. exists c, cl. by rewrite Hat.
      * left. destruct (_worker_lock W1); simplify_eq; simpl; [|done].
        by rewrite list_lookup_insert_ne.
  - destruct (decide (w0 = w)) as [->|Hne]; [by right; left|]. left.
    unfold _work_step in Hs.
    destruct (workers s !! w0) as [W0|]; simpl in Hs; [|done].
    destruct (thread_at W0); try done;
      repeat case_match; simplify_eq; simpl; by rewrite list_lookup_insert_ne.
  - destruct (decide (w0 = w)) as [->|Hne]; [by right; right; left|]. left.
    unfold _work_timeout in Hs.
    destruct (workers s !! w0) as [W0|]; simpl in Hs; [|done].
    destruct (thread_at W0); try done;
      repeat case_match; simplify_eq; simpl; by rewrite list_lookup_insert_ne.
Qed.

(** X5 — a worker that has exited is never handed a job: once a worker has
    removed itself from the registry and returned from [_work], then in
    every later state, whatever is scheduled, the worker object is
    untouched, it is not in the registry and no call holds it. *)
Theorem X5_exited_is_left_alone s w W ls s' :
  reachable s → workers s !! w = Some W → thread_at W = Exited →
  run ls s = Some s' →
  workers s' !! w = Some W ∧ (w ∉ _idle_workers s') ∧ ¬ claimed_by s' w.
Proof.
  intros Hr HW Hat.
  assert (Hnp : ¬ parked (thread_at W)) by (rewrite Hat; simpl; tauto).
  revert s Hr HW. induction ls as [|l ls IH]; intros s Hr HW.
  - simpl. intros [= <-]. split; [done|].
    by destruct (busy_worker_alone s w W Hr HW Hnp) as (? & ?).
  - simpl. destruct (step l s) as [s1|] eqn:Hs; simpl; [|done]. intros Hrun.
    assert (Hr1 : reachable s1).
    { apply (reachable_run [l] s); [done|]. simpl. by rewrite Hs. }
    apply (IH s1); [done| |done].
    destruct (step_frame _ _ _ _ _ Hs HW)
      as [?|[->|[->|(c & cl & -> & Hc & Hcl)]]]; [done|..].
    + simpl in Hs. unfold _work_step in Hs. rewrite HW in Hs. simpl in Hs.
      by rewrite Hat in Hs.
    + simpl in Hs. unfold _work_timeout in Hs. rewrite HW in Hs. simpl in Hs.
      by rewrite Hat in Hs.
    + destruct (busy_worker_alone s w W Hr HW Hnp) as (_ & Hnc).
      destruct Hnc. by exists c, cl.
Qed.

Lemma X5_exited_is_left_alone_witness :
  workers X5_after !! 0
    = Some (mkWorker None true true "Trio worker thread 0" Exited) ∧
  (0 ∉ _idle_workers X5_after) ∧ ¬ claimed_by X5_after 0.
Proof.
  apply (X5_exited_is_left_alone X5_state 0
           (mkWorker None true true "Trio worker thread 0" Exited)
           X5_later X5_after).
  - exists (C3_schedule ++ [LWorker 0]). vm_compute. reflexivity.
  - reflexivity.
  - reflexivity.
  - vm_compute. reflexivity.
Defined.

Lemma sum_snoc {A} (f : A → nat) (l : list A) x :
  sum_list_with f (l ++ [x]) = sum_list_with f l + f x.
Proof. rewrite sum_list_with_app. simpl. lia. Qed.

Ltac count_call c Hgen Hat n :=
  match goal with
  | |- context [<[c:=?x]> _] =>
      specialize (Hgen x);
      let v := eval cbv in (unassigned x) in
      change (unassigned x) with v in Hgen
  end;
  match type of Hgen with
  | context [unassigned ?cl] =>
      replace (unassigned cl) with n in Hgen
        by (unfold unassigned; rewrite Hat; reflexivity)
  end.

Lemma step_thread_count l s s' :
  length (workers s) + sum_list_with unassigned (calls s) ≤ length (calls s) →
  step l s = Some s' →
  length (workers s') + sum_list_with unassigned (calls s') ≤ length (calls s').
Proof.
  intros Hinv. destruct l as [jb|c|w|w]; simpl.
  - intros [= <-]. simpl. rewrite sum_snoc, length_app. simpl.
    change (unassigned {| call_job := jb; call_at := CallPop |}) with 1. lia.
  - unfold start_thread_soon_step.
    destruct (calls s !! c) as [cl|] eqn:Hc; simpl; [|done].
    assert (Hgen : ∀ cl', sum_list_with unassigned (<[c:=cl']> (calls s))
                          + unassigned cl
                          = sum_list_with unassigned (calls s) + unassigned cl')
      by (intros cl'; by apply sum_insert).
    destruct (call_at cl) as [| |w|w| |e] eqn:Hat; try done.
    + destruct (Dict.popitem (_idle_workers s)) as [[w d']|]; intros [= <-];
        simpl; rewrite length_insert; count_call c Hgen Hat 1; lia.
    + intros [= <-]. simpl. rewrite length_insert, length_app. simpl.
      count_call c Hgen Hat 1. lia.
    + destruct (workers s !! w) as [W|]; simpl; [|done]. intros [= <-]. simpl.
      rewrite !length_insert. count_call c Hgen Hat 0. lia.
    + destruct (workers s !! w) as [W|]; simpl; [|done].
      destruct (_worker_lock W); intros [= <-]; simpl; rewrite !length_insert;
        count_call c Hgen Hat 0; lia.
  - unfold _work_step. destruct (workers s !! w) as [W|]; simpl; [|done].
    destruct (thread_at W); try done; repeat case_match; try done;
      intros [= <-]; simpl; by rewrite length_insert.
  - unfold _work_timeout. destruct (workers s !! w) as [W|]; simpl; [|done].
    destruct (thread_at W); try done; repeat case_match; try done;
      intros [= <-]; simpl; by rewrite length_insert.
Qed.

Lemma run_thread_count ls :
  ∀ s0 s,
    length (workers s0) + sum_list_with unassigned (calls s0)
      ≤ length (calls s0) →
    run ls s0 = Some s →
    length (workers s) + sum_list_with unassigned (calls s) ≤ length (calls s).
Proof.
  induction ls as [|l ls IH]; intros s0 s H0; simpl.
  - by intros [= <-].
  - destruct (step l s0) as [s1|] eqn:Hs; simpl; [|done].
    apply IH. by eapply step_thread_count.
Qed.

(** X6 — the pool never builds more worker threads than jobs were
    submitted: in every reachable state the number of workers built so far
    is at most the number of calls of [start_thread_soon] that have got
    their worker (are past lines 107-109), hence at most the number of
    calls. *)
Theorem X6_no_more_workers_than_calls s :
  reachable s →
  length (workers s) + sum_list_with unassigned (calls s) ≤ length (calls s) ∧
  length (workers s) ≤ length (calls s).
Proof.
  intros [ls Hr].
  assert (H : length (workers s) + sum_list_with unassigned (calls s)
                ≤ length (calls s)).
  { apply (run_thread_count ls THREAD_CACHE); [simpl; lia|done]. }
  split; [done|lia].
Qed.

Lemma X6_no_more_workers_than_calls_witness :
  length (workers C2_state) ≤ length (calls C2_state).
Proof.
  apply (X6_no_more_workers_than_calls C2_state).
  exists (take 10 C2_schedule). vm_compute. reflexivity.
Defined.

Lemma threads_insert w W W' s :
  workers s !! w = Some W →
  thread_name W' = thread_name W → thread_daemon W' = thread_daemon W →
  (λ W, (thread_name W, thread_daemon W)) <$> <[w := W']> (workers s)
    = threads s.
Proof.
  intros HW Hn Hd. rewrite list_fmap_insert. apply list_insert_id.
  unfold threads. rewrite list_lookup_fmap, HW. simpl. by rewrite Hn, Hd.
Qed.

(** A step leaves the threads and the counter alone, or builds one
    daemon thread named after the counter and advances it. *)
Lemma step_threads l s s' :
  step l s = Some s' →
  (threads s' = threads s ∧ name_counter s' = name_counter s) ∨
  (threads s' =
     threads s ++ [("Trio worker thread " +:+ pretty (name_counter s), true)] ∧
   name_counter s' = S (name_counter s)).
Proof.
  destruct l as [jb|c|w|w]; simpl.
  - intros [= <-]. by left.
  - unfold start_thread_soon_step.
    destruct (calls s !! c) as [cl|] eqn:Hc; simpl; [|done].
    destruct (call_at cl) as [| |w|w| |e] eqn:Hat; try done.
    + destruct (Dict.popitem (_idle_workers s)) as [[w d']|]; intros [= <-];
        by left.
    + intros [= <-]. right. unfold threads. simpl. by rewrite fmap_app.
    + destruct (workers s !! w) as [W|] eqn:HW; simpl; [|done]. intros [= <-].
      left. split; [|done]. unfold threads at 1. simpl.
      by apply (threads_insert w W).
    + destruct (workers s !! w) as [W|] eqn:HW; simpl; [|done].
      destruct (_worker_lock W); intros [= <-]; left; (split; [|done]);
        [|done]. unfold threads at 1. simpl. by apply (threads_insert w W).
  - unfold _work_step. destruct (workers s !! w) as [W|] eqn:HW; simpl; [|done].
    destruct (thread_at W); try done; repeat case_match; try done;
      intros [= <-]; left; (split; [|done]); unfold threads at 1; simpl;
      by apply (threads_insert w W).
  - unfold _work_timeout.
    destruct (workers s !! w) as [W|] eqn:HW; simpl; [|done].
    destruct (thread_at W); try done; repeat case_match; try done;
      intros [= <-]; left; (split; [|done]); unfold threads at 1; simpl;
      by apply (threads_insert w W).
Qed.

Lemma threads_length s : length (threads s) = length (workers s).
Proof. unfold threads. by rewrite length_fmap. Qed.

Lemma fstep_numbered fl s s' k :
  numbered k s → fstep fl s = Some s' →
  numbered (k + match fl with FStartFails _ _ => 1 | FStep _ => 0 end) s'.
Proof.
  intros (Hn & ns & Hns & Hinc & Hb).
  assert (Hlen : length ns = length (workers s)).
  { rewrite <- threads_length, Hns. by rewrite length_fmap. }
  destruct fl as [l|c e]; simpl.
  - intros Hs. rewrite Nat.add_0_r.
    assert (Hl : length (workers s') = length (threads s'))
      by (by rewrite threads_length).
    destruct (step_threads _ _ _ Hs) as [[Ht Hc]|[Ht Hc]].
    + split.
      * rewrite Hc, Hn, Hl, Ht. by rewrite threads_length.
      * exists ns. by rewrite Ht.
    + split.
      * rewrite Hc, Hn, Hl, Ht. rewrite length_app, threads_length. simpl. lia.
      * exists (ns ++ [name_counter s]). split_and!.
        -- rewrite Ht, Hns. by rewrite fmap_app.
        -- intros i j a b Hij Hi Hj.
           apply lookup_snoc_Some in Hj as [(? & Hj) | (? & ?)].
           ++ rewrite lookup_app_l in Hi by lia. exact (Hinc i j a b Hij Hi Hj).
           ++ subst. rewrite lookup_app_l in Hi by lia.
              destruct (Hb _ _ Hi) as [_ ?].
              apply lookup_lt_Some in Hi. lia.
        -- intros i a Hi.
           apply lookup_snoc_Some in Hi as [(? & Hi) | (? & ?)];
             [by apply Hb|]. subst. lia.
  - unfold start_fails.
    destruct (calls s !! c) as [cl|]; simpl; [|done].
    destruct (call_at cl); try done. intros [= <-]. split; simpl; [lia|].
    exists ns. split_and!; [done..|].
    intros i a Hi. destruct (Hb _ _ Hi). lia.
Qed.

Lemma frun_numbered ls :
  ∀ s s' k, numbered k s → frun ls s = Some s' → numbered (k + failures ls) s'.
Proof.
  induction ls as [|l ls IH]; intros s s' k Hk; simpl.
  - intros [= <-]. unfold failures. simpl. by rewrite Nat.add_0_r.
  - destruct (fstep l s) as [s1|] eqn:Hs; simpl; [|done]. intros Hr.
    pose proof (IH _ _ _ (fstep_numbered _ _ _ _ Hk Hs) Hr) as H.
    unfold failures in *. simpl. by rewrite Nat.add_assoc.
Qed.

(** X7 — worker threads are daemon threads with distinct names, also when
    thread creation fails now and then: after any run, each worker's thread
    has the daemon flag set and is named "Trio worker thread N", where N is
    the number of workers built before it plus the number of failed
    [thread.start()] calls before it (at most those of the whole run); no
    two workers share a name; and [name_counter] equals the number of
    workers built plus the number of failed [thread.start()] calls. With no
    failure, N is the number of workers built before, and the counter the
    number of workers. *)
Theorem X7_daemon_threads_distinct_names ls s w W w' W' :
  frun ls THREAD_CACHE = Some s →
  workers s !! w = Some W → workers s !! w' = Some W' →
  thread_daemon W = true ∧
  (∃ n, thread_name W = "Trio worker thread " +:+ pretty n ∧
        w ≤ n ∧ n ≤ w + failures ls) ∧
  (thread_name W = thread_name W' → w = w') ∧
  name_counter s = length (workers s) + failures ls.
Proof.
  intros Hr HW HW'.
  assert (H0 : numbered 0 THREAD_CACHE).
  { split; [done|]. exists []. split_and!; done. }
  destruct (frun_numbered _ _ _ _ H0 Hr) as (Hn & ns & Hns & Hinc & Hb).
  simpl in Hn, Hb.
  assert (Hget : ∀ v V, workers s !! v = Some V →
            ∃ n, ns !! v = Some n ∧ thread_daemon V = true ∧
                 thread_name V = "Trio worker thread " +:+ pretty n).
  { intros v V HV.
    assert (Ht : threads s !! v = Some (thread_name V, thread_daemon V))
      by (unfold threads; by rewrite list_lookup_fmap, HV).
    rewrite Hns, list_lookup_fmap in Ht.
    destruct (ns !! v) as [n|]; simpl in Ht; [|done].
    exists n. by simplify_eq. }
  destruct (Hget _ _ HW) as (n & Hi & Hd & Hname).
  destruct (Hget _ _ HW') as (n' & Hi' & _ & Hname').
  split_and!; [done| |..|done].
  - exists n. split; [done|]. by apply Hb.
  - rewrite Hname, Hname'. intros E.
    assert (n = n') as <- by (simpl in E; by simplify_eq).
    destruct (decide (w = w')) as [|Hne]; [done|]. exfalso.
    destruct (decide (w < w')) as [Hlt|Hge].
    + pose proof (Hinc w w' n n Hlt Hi Hi'). lia.
    + assert (Hlt : w' < w) by lia.
      pose proof (Hinc w' w n n Hlt Hi' Hi). lia.
Qed.

Lemma X7_daemon_threads_distinct_names_witness :
  ∃ W, workers X7_state !! 0 = Some W ∧ thread_daemon W = true ∧
       thread_name W = "Trio worker thread 1" ∧ name_counter X7_state = 2.
Proof.
  destruct (X7_daemon_threads_distinct_names X7_schedule X7_state 0
              (WorkerThread__init__ 1) 0 (WorkerThread__init__ 1))
    as (D & _ & _ & C).
  - vm_compute. reflexivity.
  - reflexivity.
  - reflexivity.
  - eexists. split; [reflexivity|]. split; [exact D|].
    split; [reflexivity|exact C].
Defined.

(** ** Jobs served one at a time *)

Lemma lookup_snoc_here {A} (l : list A) x : (l ++ [x]) !! length l = Some x.
Proof. by apply list_lookup_middle. Qed.

Lemma insert_snoc_here {A} (l : list A) x y :
  <[length l := y]> (l ++ [x]) = l ++ [y].
Proof. induction l as [|a l IH]; simpl; [done|]. by rewrite IH. Qed.

Lemma setitem_nil k : Dict.setitem [] k = [k].
Proof. reflexivity. Qed.

Lemma delitem_here k : Dict.delitem [k] k = Some [].
Proof.
  unfold Dict.delitem. rewrite decide_True by apply list_elem_of_here.
  f_equal. rewrite filter_cons_False by (simpl; tauto). done.
Qed.

Lemma delitem_nil k : Dict.delitem [] k = None.
Proof. reflexivity. Qed.

Lemma run_cons l ls s s1 : step l s = Some s1 → run (l :: ls) s = run ls s1.
Proof. intros H. simpl. by rewrite H. Qed.

Ltac one_step :=
  erewrite run_cons by
    (simpl; unfold start_thread_soon_step, _work_step, _work_timeout; simpl;
     rewrite ?insert_snoc_here, ?lookup_snoc_here; simpl;
     rewrite ?insert_snoc_here, ?lookup_snoc_here, ?delitem_nil, ?delitem_here;
     simpl; reflexivity);
  unfold log, print_stderr, set_worker, set_call, set_idle, add_worker,
    add_call, set_at, set_lock, set_job, moved_to; cbn -[run];
  rewrite ?insert_snoc_here, ?setitem_nil.

Ltac last_step Hd :=
  (erewrite run_cons
     by (simpl; unfold _work_step; simpl;
         rewrite ?insert_snoc_here, ?lookup_snoc_here; simpl;
         rewrite Hd; reflexivity));
  unfold log, print_stderr, set_worker, set_at; cbn -[run];
  rewrite ?insert_snoc_here; simpl;
  rewrite <- ?app_assoc, ?app_nil_r; reflexivity.

Lemma next_job_run W n cs tr err jb :
  _job W = None → _worker_lock W = true → thread_at W = AtAcquire →
  run (next_job (length cs) jb) (mkState [0] [W] n cs tr err) =
    Some (mkState [0] [W] n (cs ++ [returned jb])
            (tr ++ EvPop (length cs) 0 :: served 0 (length cs) jb)
            (err ++ complaint jb)).
Proof.
  intros Hj Hl Ha. destruct W as [job lk dm nm pc].
  simpl in Hj, Hl, Ha. subst.
  unfold next_job, complaint, served, returned.
  change (replicate 3 (LCall (length cs)) ++ replicate 6 (LWorker 0))
    with [LCall (length cs); LCall (length cs); LCall (length cs);
          LWorker 0; LWorker 0; LWorker 0; LWorker 0; LWorker 0; LWorker 0].
  do 9 one_step.
  destruct (deliver jb (capture (fn jb))) eqn:Hd; last_step Hd.
Qed.

Lemma spawn_job_run ws n cs tr err jb :
  run (spawn_job (length cs) (length ws) jb) (mkState [] ws n cs tr err) =
    Some (mkState [length ws] (ws ++ [WorkerThread__init__ n]) (S n)
            (cs ++ [returned jb])
            (tr ++ EvSpawn (length cs) (length ws)
                :: served (length ws) (length cs) jb)
            (err ++ complaint jb)).
Proof.
  unfold spawn_job, complaint, served, returned.
  change (replicate 4 (LCall (length cs)) ++ replicate 6 (LWorker (length ws)))
    with [LCall (length cs); LCall (length cs); LCall (length cs);
          LCall (length cs);
          LWorker (length ws); LWorker (length ws); LWorker (length ws);
          LWorker (length ws); LWorker (length ws); LWorker (length ws)].
  do 10 one_step.
  destruct (deliver jb (capture (fn jb))) eqn:Hd; last_step Hd.
Qed.

Lemma sequential_from_run W n cs tr err jbs :
  _job W = None → _worker_lock W = true → thread_at W = AtAcquire →
  run (sequential_from (length cs) jbs) (mkState [0] [W] n cs tr err) =
    Some (mkState [0] [W] n (cs ++ (returned <$> jbs))
            (tr ++ sequential_trace (length cs) jbs)
            (err ++ concat (complaint <$> jbs))).
Proof.
  intros Hj Hl Ha. revert cs tr err.
  induction jbs as [|jb jbs IH]; intros cs tr err.
  - simpl. by rewrite !app_nil_r.
  - change (sequential_from (length cs) (jb :: jbs))
      with (next_job (length cs) jb ++ sequential_from (S (length cs)) jbs).
    rewrite run_app, next_job_run by done. simpl.
    replace (S (length cs)) with (length (cs ++ [returned jb]))
      by (rewrite length_app; simpl; lia).
    rewrite IH. unfold served. simpl. rewrite <- ?app_assoc. simpl. done.
Qed.

Lemma sequential_run jb jbs :
  run (sequential (jb :: jbs)) THREAD_CACHE = Some (after_sequential jb jbs).
Proof.
  unfold sequential, after_sequential. rewrite run_app.
  assert (E : run (spawn_job 0 0 jb) THREAD_CACHE =
              Some (mkState [0] [WorkerThread__init__ 0] 1 [returned jb]
                      (EvSpawn 0 0 :: served 0 0 jb) (complaint jb)))
    by exact (spawn_job_run [] 0 [] [] [] jb).
  rewrite E.
  assert (E' : run (sequential_from 1 jbs)
                 (mkState [0] [WorkerThread__init__ 0] 1 [returned jb]
                    (EvSpawn 0 0 :: served 0 0 jb) (complaint jb)) =
               Some (mkState [0] [WorkerThread__init__ 0] 1
                       (returned <$> (jb :: jbs))
                       (EvSpawn 0 0 :: served 0 0 jb ++ sequential_trace 1 jbs)
                       (concat (complaint <$> (jb :: jbs)))))
    by exact (sequential_from_run (WorkerThread__init__ 0) 1 [returned jb]
                (EvSpawn 0 0 :: served 0 0 jb) (complaint jb) jbs
                eq_refl eq_refl eq_refl).
  exact E'.
Qed.

Lemma sequential_trace_by_worker c jbs :
  Forall (by_worker 0) (sequential_trace c jbs).
Proof.
  revert c. induction jbs as [|jb jbs IH]; intros c; simpl; [constructor|].
  repeat (constructor; [done|]). apply IH.
Qed.

(** X8 — jobs served one after the other reuse one worker: when each job
    is submitted after the one before was delivered and no wait elapses in
    between, the first call builds worker 0 and every call after it pops
    worker 0 again; one worker thread exists at the end, it is back in the
    registry, every pop, execution and delivery was its own, and every job
    ran once and was delivered once. *)
Theorem X8_sequential_jobs_one_worker jb jbs :
  ∃ s, run (sequential (jb :: jbs)) THREAD_CACHE = Some s ∧
       workers s = [WorkerThread__init__ 0] ∧
       _idle_workers s = [0] ∧
       Forall (by_worker 0) (trace s) ∧
       stderr s = concat (complaint <$> (jb :: jbs)) ∧
       ∀ j jb', (jb :: jbs) !! j = Some jb' → ran_and_delivered j jb' s.
Proof.
  exists (after_sequential jb jbs). split; [apply sequential_run|].
  split_and!; try done.
  - simpl. repeat (constructor; [done|]). apply sequential_trace_by_worker.
  - intros j jb' Hj.
    assert (Hr : reachable (after_sequential jb jbs))
      by (eexists; apply sequential_run).
    destruct (reachable_inv _ Hr) as [st HI].
    assert (Hset : settled (after_sequential jb jbs)).
    { apply (stuck_settled _ _ HI). intros [?|c|w|w]; try done; intros _.
      - simpl. unfold start_thread_soon_step.
        unfold after_sequential. cbn [calls].
        rewrite list_lookup_fmap. by destruct ((jb :: jbs) !! c).
      - simpl. unfold _work_step. simpl. by destruct w as [|[|?]]. }
    apply (Hset j (returned jb')). unfold after_sequential. cbn [calls].
    by rewrite list_lookup_fmap, Hj.
Qed.

(** X9 — no job is lost when the idle timeout and an assignment race.
    With worker 0 registered and waiting, a job is submitted and the
    worker's wait elapses once before the call releases the lock. In every
    interleaving of the elapsed wait and the worker's [del] with the call's
    pop, write and release in which the pop comes before the [del], the
    [del] fails with KeyError, the worker goes back to the wait, and the
    job is run and delivered by that same worker: the pool ends in the very
    state it reaches when no wait elapses at all. When the [del] comes
    before the pop instead, worker 0 leaves, the call finds the registry
    empty and builds worker 1, which runs and delivers the job. *)
Theorem X9_timeout_race_is_harmless W n cs tr err jb :
  _job W = None → _worker_lock W = true → thread_at W = AtAcquire →
  let s0 := mkState [0] [W] n cs tr err in
  let c := length cs in
  (∀ t d, t ≤ d → 1 ≤ d → d ≤ 3 → t ≤ 2 →
     run (race t d c jb) s0 =
       Some (mkState [0] [W] n (cs ++ [returned jb])
               (tr ++ EvPop c 0 :: served 0 c jb) (err ++ complaint jb)) ∧
     run (race t d c jb) s0 = run (next_job c jb) s0) ∧
  run (exit_first c jb) s0 =
    Some (mkState [1] [set_at Exited W; WorkerThread__init__ n] (S n)
            (cs ++ [returned jb])
            (tr ++ EvExit 0 :: EvSpawn c 1 :: served 1 c jb)
            (err ++ complaint jb)).
Proof.
  intros Hj Hl Ha s0 c. subst s0 c. split.
  - intros t d Htd Hd1 Hd3 Ht2.
    rewrite next_job_run by done.
    assert (H : run (race t d (length cs) jb) (mkState [0] [W] n cs tr err) =
      Some (mkState [0] [W] n (cs ++ [returned jb])
              (tr ++ EvPop (length cs) 0 :: served 0 (length cs) jb)
              (err ++ complaint jb))); [|by split].
    destruct W as [job lk dm nm pc]. simpl in Hj, Hl, Ha. subst.
    unfold complaint, served, returned, race.
    destruct t as [|[|[|t]]]; [| | |lia];
      (destruct d as [|[|[|[|d]]]]; [lia| | | |lia]); try lia;
      cbn [replicate app Nat.sub]; do 11 one_step;
      (destruct (deliver jb (capture (fn jb))) eqn:Hd; last_step Hd).
  - destruct W as [job lk dm nm pc]. simpl in Hj, Hl, Ha. subst.
    unfold complaint, served, returned, exit_first.
    cbn [replicate app]. do 12 one_step.
    destruct (deliver jb (capture (fn jb))) eqn:Hd; last_step Hd.
Qed.

Lemma X9_timeout_race_is_harmless_witness :
  run (race 1 3 1 job_boom) (after_sequential job_seven []) =
  run (next_job 1 job_boom) (after_sequential job_seven []).
Proof.
  destruct (X9_timeout_race_is_harmless (WorkerThread__init__ 0) 1
              [returned job_seven] (EvSpawn 0 0 :: served 0 0 job_seven)
              (complaint job_seven) job_boom) as [H _]; [reflexivity..|].
  destruct (H 1 3) as [_ H']; [lia..|]. exact H'.
Defined.

Lemma exit_run W n cs tr err :
  _job W = None → _worker_lock W = true → thread_at W = AtAcquire →
  run [LTimeout 0; LWorker 0] (mkState [0] [W] n cs tr err) =
    Some (mkState [] [set_at Exited W] n cs (tr ++ [EvExit 0]) err).
Proof.
  intros Hj Hl Ha. destruct W as [job lk dm nm pc].
  simpl in Hj, Hl, Ha. subst. do 2 one_step. reflexivity.
Qed.

(** X10 — idle exit and respawn: after jobs served one after the other,
    if the worker's wait elapses with no job coming, it takes itself out of
    the registry and its thread ends; the next job submitted then builds
    exactly one new worker, named by the next counter value, which runs and
    delivers it and ends up in the registry alone. *)
Theorem X10_exit_then_respawn jb jbs jb' :
  let c := S (length jbs) in
  ∃ s, run (sequential (jb :: jbs) ++ [LTimeout 0; LWorker 0]
              ++ spawn_job c 1 jb') THREAD_CACHE = Some s ∧
       workers s = [set_at Exited (WorkerThread__init__ 0);
                    WorkerThread__init__ 1] ∧
       _idle_workers s = [1] ∧
       trace s = trace (after_sequential jb jbs)
                   ++ EvExit 0 :: EvSpawn c 1 :: served 1 c jb' ∧
       step (LWorker 0) s = None ∧ step (LTimeout 0) s = None.
Proof.
  intros c. eexists. split.
  - rewrite run_app, sequential_run. cbn [mbind option_bind].
    rewrite run_app. unfold after_sequential. rewrite exit_run by done.
    cbn [mbind option_bind].
    pose proof (spawn_job_run [set_at Exited (WorkerThread__init__ 0)] 1
                  (returned <$> (jb :: jbs))) as E.
    rewrite length_fmap in E. cbn [length] in E. apply E.
  - cbn [workers _idle_workers trace]. split_and!; try done.
    unfold after_sequential. cbn [trace app]. by rewrite <- app_assoc.
Qed.

(** ** Further properties of the kqueue entry points *)

Lemma except_passes {A} (r : pyresult A) :
  Kqueue.passes r → Kqueue.except_AttributeError r = r.
Proof.
  intros H. destruct r as [a|e]; [done|]. simpl.
  by rewrite (H e eq_refl).
Qed.

Lemma except_never_attribute_error {A} (r : pyresult A) :
  Kqueue.passes (Kqueue.except_AttributeError r).
Proof.
  intros e. destruct r as [a|e0]; simpl; [done|].
  destruct (isinstance e0 "AttributeError") eqn:E; intros [= <-]; done.
Qed.

Lemma except_masks {A} (r : pyresult A) e :
  r = PyRaise e → isinstance e "AttributeError" = true →
  Kqueue.except_AttributeError r =
    PyRaise (RuntimeError "must be called from async context").
Proof. intros -> H. simpl. by rewrite H. Qed.

(** X11 — inside a run the six entry points forward to the I/O manager of
    the active runner: whatever its method returns, and whatever exception
    it raises that is no instance of [AttributeError] or of a class derived
    from it, is what the caller gets. *)
Theorem X11_forwarding ctx r :
  Kqueue.runner ctx = Some r →
  let io := Kqueue.io_manager r in
  (Kqueue.passes (Kqueue.io_current_kqueue io) →
   Kqueue.current_kqueue ctx = Kqueue.io_current_kqueue io) ∧
  (∀ ident filter, Kqueue.passes (Kqueue.io_monitor_kevent io ident filter) →
   Kqueue.monitor_kevent ctx ident filter
     = Kqueue.io_monitor_kevent io ident filter) ∧
  (∀ ident filter abort_func,
   Kqueue.passes (Kqueue.io_wait_kevent io ident filter abort_func) →
   Kqueue.wait_kevent ctx ident filter abort_func
     = Kqueue.io_wait_kevent io ident filter abort_func) ∧
  (∀ fd, Kqueue.passes (Kqueue.io_wait_readable io fd) →
   Kqueue.wait_readable ctx fd = Kqueue.io_wait_readable io fd) ∧
  (∀ fd, Kqueue.passes (Kqueue.io_wait_writable io fd) →
   Kqueue.wait_writable ctx fd = Kqueue.io_wait_writable io fd) ∧
  (∀ fd, Kqueue.passes (Kqueue.io_notify_closing io fd) →
   Kqueue.notify_closing ctx fd = Kqueue.io_notify_closing io fd).
Proof.
  intros Hr io.
  unfold Kqueue.current_kqueue, Kqueue.monitor_kevent, Kqueue.wait_kevent,
    Kqueue.wait_readable, Kqueue.wait_writable, Kqueue.notify_closing,
    Kqueue.getattr_runner.
  rewrite Hr. simpl. split_and!; intros; by apply except_passes.
Qed.

Lemma X11_forwarding_witness :
  Kqueue.wait_writable Kqueue.echo_context (PyInt 3)
    = PyRaise (mkExc "OSError" Exception_mro "bad file descriptor").
Proof.
  destruct (X11_forwarding Kqueue.echo_context (Kqueue.mkRunner Kqueue.echo_manager))
    as (_ & _ & _ & _ & H & _); [reflexivity|].
  apply (H (PyInt 3)). intros e [= <-]. reflexivity.
Defined.

(** X12 — none of the six entry points ever raises [AttributeError] or an
    exception of a class derived from it, whatever the context and the I/O
    manager do; and such an exception raised inside the I/O manager's
    method while a run is active reaches the caller as
    [RuntimeError("must be called from async context")]. *)
Theorem X12_attribute_error_masked ctx :
  Kqueue.passes (Kqueue.current_kqueue ctx) ∧
  (∀ ident filter, Kqueue.passes (Kqueue.monitor_kevent ctx ident filter)) ∧
  (∀ ident filter abort_func,
     Kqueue.passes (Kqueue.wait_kevent ctx ident filter abort_func)) ∧
  (∀ fd, Kqueue.passes (Kqueue.wait_readable ctx fd)) ∧
  (∀ fd, Kqueue.passes (Kqueue.wait_writable ctx fd)) ∧
  (∀ fd, Kqueue.passes (Kqueue.notify_closing ctx fd)) ∧
  ∀ r e, Kqueue.runner ctx = Some r → isinstance e "AttributeError" = true →
    let io := Kqueue.io_manager r in
    let err := PyRaise (RuntimeError "must be called from async context") in
    (Kqueue.io_current_kqueue io = PyRaise e →
     Kqueue.current_kqueue ctx = err) ∧
    (∀ ident filter, Kqueue.io_monitor_kevent io ident filter = PyRaise e →
     Kqueue.monitor_kevent ctx ident filter = err) ∧
    (∀ ident filter abort_func,
     Kqueue.io_wait_kevent io ident filter abort_func = PyRaise e →
     Kqueue.wait_kevent ctx ident filter abort_func = err) ∧
    (∀ fd, Kqueue.io_wait_readable io fd = PyRaise e →
     Kqueue.wait_readable ctx fd = err) ∧
    (∀ fd, Kqueue.io_wait_writable io fd = PyRaise e →
     Kqueue.wait_writable ctx fd = err) ∧
    (∀ fd, Kqueue.io_notify_closing io fd = PyRaise e →
     Kqueue.notify_closing ctx fd = err).
Proof.
  split_and!; try (intros; apply except_never_attribute_error).
  intros r e Hr He io err.
  unfold Kqueue.current_kqueue, Kqueue.monitor_kevent, Kqueue.wait_kevent,
    Kqueue.wait_readable, Kqueue.wait_writable, Kqueue.notify_closing,
    Kqueue.getattr_runner.
  rewrite Hr. simpl. split_and!; intros; by eapply except_masks.
Qed.

Lemma X12_attribute_error_masked_witness :
  Kqueue.notify_closing Kqueue.echo_context (PyInt 3)
    = PyRaise (RuntimeError "must be called from async context").
Proof.
  destruct (X12_attribute_error_masked Kqueue.echo_context)
    as (_ & _ & _ & _ & _ & _ & H).
  destruct (H (Kqueue.mkRunner Kqueue.echo_manager)
              (Kqueue.FrozenInstanceError "cannot assign to field 'fd'"))
    as (_ & _ & _ & _ & _ & H6); [reflexivity..|].
  apply (H6 (PyInt 3)). reflexivity.
Defined.

(** ** Further properties of the Sequencer *)

Import Sequencer.

Lemma is_set_getitem k p sp c b :
  is_set k (mkSequencer (getitem p sp) c b) = is_set k (mkSequencer sp c b).
Proof.
  unfold is_set, getitem. simpl. destruct (sp !! p) eqn:E; [done|].
  destruct (decide (k = p)) as [->|Hne].
  - by rewrite lookup_insert_eq, E.
  - by rewrite lookup_insert_ne.
Qed.

Lemma act_ordered L a s r s' :
  ordered L s → act a s = Some (r, s') →
  ordered (λ q, L q ∨ a = Leave q) s'.
Proof.
  intros Ho. destruct a as [p|p| |p]; simpl.
  - unfold enter. destruct (decide (p ∈ _claimed s)).
    { intros [= <- <-] k Hk. destruct (Ho k Hk); eauto. }
    destruct (_broken s) eqn:Hb.
    { intros [= <- <-] k Hk. destruct (Ho k Hk); eauto. }
    destruct (decide (p ≠ 0%Z)); intros [= <- <-] k Hk; simpl in *.
    + rewrite is_set_getitem in Hk.
      destruct (Ho k) as [?|?]; [|by left; left|congruence].
      by destruct s.
    + destruct (Ho k) as [?|?]; [|by left; left|congruence]. by destruct s.
  - unfold wake. destruct (is_set p s); simpl; [|done].
    unfold resume. destruct (_broken s) eqn:Hb; intros [= <- <-] k Hk;
      destruct (Ho k Hk); eauto.
  - intros [= <- <-] k Hk. by right.
  - intros [= <- <-] k Hk. unfold is_set, leave in Hk. simpl in Hk.
    destruct (decide (k = (p + 1)%Z)) as [->|Hne].
    + left. right. f_equal. lia.
    + rewrite lookup_insert_ne in Hk by done.
      destruct (Ho k Hk); eauto.
Qed.

Lemma play_cons a acts s :
  play (a :: acts) s =
    '(r, s1) ← act a s; '(rs, s2) ← play acts s1; Some (r :: rs, s2).
Proof. done. Qed.

Lemma play_ordered acts :
  ∀ L s results s' i p,
    ordered L s → play acts s = Some (results, s') →
    acts !! i = Some (Wake p) → results !! i = Some (Some EnterYielded) →
    L (p - 1)%Z ∨ ∃ i', i' < i ∧ acts !! i' = Some (Leave (p - 1)).
Proof.
  induction acts as [|a acts IH]; intros L s results s' i p Ho Hp Hi Hr;
    [done|].
  rewrite play_cons in Hp.
  destruct (act a s) as [[r s1]|] eqn:Ha; simpl in Hp; [|done].
  destruct (play acts s1) as [[rs s2]|] eqn:Hp1; simpl in Hp; [|done].
  simplify_eq. destruct i as [|i]; simpl in *.
  - simplify_eq. simpl in Ha. unfold wake in Ha.
    destruct (is_set p s) eqn:Hset; simpl in Ha; [|done].
    unfold resume in Ha. destruct (_broken s) eqn:Hb; [by simplify_eq|].
    destruct (Ho p Hset); [by left|congruence].
  - destruct (IH _ _ _ _ _ _ (act_ordered _ _ _ _ _ Ho Ha) Hp1 Hi Hr)
      as [[?| ->]|(i' & Hlt & Hi')].
    + by left.
    + right. exists 0. split; [lia|done].
    + right. exists (S i'). split; [lia|done].
Qed.

(** X13 — block N does not start before block N-1 has finished: on a
    fresh Sequencer, whatever the tasks do and in whatever order, if the
    wait of the call at [position] returns and the guarded block is
    reached, then the block at [position - 1] has been left before. *)
Theorem X13_block_waits_for_previous acts results s i position :
  play acts new = Some (results, s) →
  acts !! i = Some (Wake position) →
  results !! i = Some (Some EnterYielded) →
  ∃ i', i' < i ∧ acts !! i' = Some (Leave (position - 1)).
Proof.
  intros Hp Hi Hr.
  assert (Ho : ordered (λ _, False) new).
  { intros k Hk. unfold is_set, new in Hk. simpl in Hk.
    by rewrite lookup_empty in Hk. }
  by destruct (play_ordered acts _ _ _ _ _ _ Ho Hp Hi Hr) as [[]|?].
Qed.

Lemma X13_block_waits_for_previous_witness :
  ∃ i', i' < 3 ∧ X13_acts !! i' = Some (Leave (1 - 1)).
Proof.
  apply (X13_block_waits_for_previous X13_acts X13_results
           (default new (snd <$> play X13_acts new)) 3 1).
  - vm_compute. reflexivity.
  - reflexivity.
  - reflexivity.
Defined.

Lemma wrecked_act a s r s' :
  wrecked s → act a s = Some (r, s') →
  wrecked s' ∧ _claimed s' = _claimed s ∧
  r ≠ Some EnterYielded ∧ r ≠ Some EnterWaiting.
Proof.
  intros [Hb Hs]. destruct a as [p|p| |p]; simpl.
  - unfold enter. destruct (decide (p ∈ _claimed s)).
    { intros [= <- <-]. by repeat split. }
    rewrite Hb. intros [= <- <-]. by repeat split.
  - unfold wake. destruct (is_set p s); simpl; [|done].
    unfold resume. rewrite Hb. intros [= <- <-]. by repeat split.
  - intros [= <- <-]. repeat split; try done. simpl.
    intros k b. rewrite lookup_fmap.
    destruct (_sequence_points s !! k); simpl; congruence.
  - intros [= <- <-]. repeat split; try done. simpl.
    intros k b. destruct (decide (k = (p + 1)%Z)) as [->|Hne].
    + rewrite lookup_insert_eq. congruence.
    + rewrite lookup_insert_ne by done. apply Hs.
Qed.

Lemma wrecked_play acts :
  ∀ s results s',
    wrecked s → play acts s = Some (results, s') →
    wrecked s' ∧ _claimed s' = _claimed s ∧
    Forall (λ r, r ≠ Some EnterYielded ∧ r ≠ Some EnterWaiting) results.
Proof.
  induction acts as [|a acts IH]; intros s results s' Hw Hp.
  - simpl in Hp. simplify_eq. split; [done|]. split; [done|]. constructor.
  - rewrite play_cons in Hp.
    destruct (act a s) as [[r s1]|] eqn:Ha; simpl in Hp; [|done].
    destruct (play acts s1) as [[rs s2]|] eqn:Hp1; simpl in Hp; [|done].
    simplify_eq.
    destruct (wrecked_act _ _ _ _ Hw Ha) as (Hw1 & Hc1 & Hr1).
    destruct (IH _ _ _ Hw1 Hp1) as (Hw2 & Hc2 & Hr2).
    split; [done|]. split; [congruence|]. by constructor.
Qed.

Lemma wrecked_cancel s : wrecked (resume true s).2.
Proof.
  split; [done|]. simpl. intros k b. rewrite lookup_fmap.
  destruct (_sequence_points s !! k); simpl; congruence.
Qed.

Lemma act_keeps_points a s r s' k :
  act a s = Some (r, s') →
  is_Some (_sequence_points s !! k) → is_Some (_sequence_points s' !! k).
Proof.
  destruct a as [p|p| |p]; simpl.
  - unfold enter. destruct (decide (p ∈ _claimed s)); [by intros [= <- <-]|].
    destruct (_broken s); [by intros [= <- <-]|].
    destruct (decide (p ≠ 0%Z)); intros [= <- <-]; simpl; [|done].
    unfold getitem. destruct (_sequence_points s !! p) eqn:E; [done|].
    intros Hk. destruct (decide (k = p)) as [->|Hne].
    + by rewrite lookup_insert_eq.
    + by rewrite lookup_insert_ne.
  - unfold wake. destruct (is_set p s); simpl; [|done].
    unfold resume. by destruct (_broken s); intros [= <- <-].
  - intros [= <- <-]. simpl. rewrite lookup_fmap. by intros [b ->].
  - intros [= <- <-]. simpl. intros Hk.
    destruct (decide (k = (p + 1)%Z)) as [->|Hne].
    + by rewrite lookup_insert_eq.
    + by rewrite lookup_insert_ne.
Qed.

Lemma play_keeps_points acts :
  ∀ s results s' k,
    play acts s = Some (results, s') →
    is_Some (_sequence_points s !! k) → is_Some (_sequence_points s' !! k).
Proof.
  induction acts as [|a acts IH]; intros s results s' k Hp Hk.
  - simpl in Hp. by simplify_eq.
  - rewrite play_cons in Hp.
    destruct (act a s) as [[r s1]|] eqn:Ha; simpl in Hp; [|done].
    destruct (play acts s1) as [[rs s2]|] eqn:Hp1; simpl in Hp; [|done].
    simplify_eq. eapply IH; [done|]. by eapply act_keeps_points.
Qed.

(** X14 — a cancelled wait breaks the Sequencer for good: the cancelled
    call raises RuntimeError("Sequencer wait cancelled -- sequence
    broken"); from then on, whatever the tasks do, the instance stays
    broken, no call reaches its block or starts to wait, no position is
    claimed any more, and every task that was suspended in [wait()] when
    the cancellation came can go on and raises
    RuntimeError("sequence broken!"). *)
Theorem X14_cancel_breaks_for_good s0 acts results s :
  play acts (resume true s0).2 = Some (results, s) →
  (resume true s0).1 =
    EnterRaised (RuntimeError "Sequencer wait cancelled -- sequence broken") ∧
  _broken s = true ∧
  _claimed s = _claimed s0 ∧
  Forall (λ r, r ≠ Some EnterYielded ∧ r ≠ Some EnterWaiting) results ∧
  ∀ position, is_Some (_sequence_points s0 !! position) →
    wake position s = Some (EnterRaised (RuntimeError "sequence broken!"), s).
Proof.
  intros Hp.
  destruct (wrecked_play _ _ _ _ (wrecked_cancel s0) Hp) as ([Hb Hs] & Hc & Hr).
  split_and!; try done.
  intros p Hk.
  assert (Hk' : is_Some (_sequence_points s !! p)).
  { eapply play_keeps_points; [done|]. simpl. rewrite lookup_fmap.
    by destruct Hk as [b ->]. }
  destruct Hk' as [b Hb'].
  unfold wake, is_set. rewrite Hb'. simpl. rewrite (Hs _ _ Hb').
  unfold resume. by rewrite Hb.
Qed.

Lemma X14_cancel_breaks_for_good_witness :
  _broken X14_after = true ∧
  Forall (λ r, r ≠ Some EnterYielded ∧ r ≠ Some EnterWaiting) X14_results.
Proof.
  pose proof (X14_cancel_breaks_for_good X14_before X14_acts X14_results
                X14_after) as H.
  destruct H as (_ & Hb & _ & Hr & _).
  - vm_compute. reflexivity.
  - split; [exact Hb|exact Hr].
Defined.

Lemma play_app a b s :
  play (a ++ b) s =
    '(r1, s1) ← play a s; '(r2, s2) ← play b s1; Some (r1 ++ r2, s2).
Proof.
  revert s. induction a as [|x a IH]; intros s.
  - simpl. by destruct (play b s) as [[? ?]|].
  - cbn [app]. rewrite !play_cons.
    destruct (act x s) as [[r s1]|]; simpl; [|done].
    rewrite IH. destruct (play a s1) as [[r1 s2]|]; simpl; [|done].
    by destruct (play b s2) as [[? ?]|].
Qed.

Lemma block_ready n s :
  ready n s →
  ∃ s', play (block (Z.of_nat n)) s = Some (block_results (Z.of_nat n), s') ∧
        ready (S n) s'.
Proof.
  intros (Hb & Hc & Hs). unfold block, block_results.
  assert (Hn : Z.of_nat n ∉ _claimed s) by (rewrite Hc; lia).
  destruct (decide (Z.of_nat n = 0%Z)) as [E|E].
  - rewrite E in *. eexists. split.
    + rewrite play_cons. simpl. unfold enter.
      rewrite decide_False by done. rewrite Hb.
      rewrite decide_False by (intros ?; done). simpl. reflexivity.
    + split; [done|]. split.
      * intros k. simpl. rewrite elem_of_union, elem_of_singleton, Hc. lia.
      * intros _. unfold is_set. simpl.
        replace (Z.of_nat (S n)) with (0 + 1)%Z by lia.
        by rewrite lookup_insert_eq.
  - assert (Hset : is_set (Z.of_nat n) s = true) by (apply Hs; lia).
    eexists. split.
    + rewrite play_cons. simpl. unfold enter.
      rewrite decide_False by done. rewrite Hb.
      rewrite decide_True by done. simpl.
      unfold wake. rewrite is_set_getitem.
      replace (is_set (Z.of_nat n) _) with true
        by (symmetry; exact Hset).
      simpl. unfold resume. simpl. rewrite ?Hb. simpl. reflexivity.
    + split; [done|]. split.
      * intros k. simpl. rewrite elem_of_union, elem_of_singleton, Hc. lia.
      * intros _. unfold is_set, leave. simpl.
        replace (Z.of_nat (S n)) with (Z.of_nat n + 1)%Z by lia.
        by rewrite lookup_insert_eq.
Qed.

Lemma in_order_S n : in_order (S n) = in_order n ++ block (Z.of_nat n).
Proof.
  unfold in_order. rewrite seq_S, flat_map_app. simpl. by rewrite app_nil_r.
Qed.

Lemma in_order_ready n :
  ∃ s, play (in_order n) new =
         Some (flat_map (λ i, block_results (Z.of_nat i)) (seq 0 n), s) ∧
       ready n s.
Proof.
  induction n as [|n (s & Hp & Hr)].
  - exists new. split; [done|]. split; [done|]. split; [|lia].
    intros k. unfold new. simpl. rewrite elem_of_empty. lia.
  - destruct (block_ready n s Hr) as (s' & Hp' & Hr').
    exists s'. split; [|done].
    rewrite in_order_S, play_app, Hp. cbn [mbind option_bind].
    rewrite Hp'. cbn [mbind option_bind].
    rewrite seq_S, flat_map_app. simpl. by rewrite app_nil_r.
Qed.

(** X15 — blocks entered in order all run: when the blocks at positions
    0, 1, ..., n-1 of a fresh Sequencer are entered one after the other,
    each after the one before was left, block 0 starts at once, every
    other call waits and is woken by its predecessor's exit, no call
    raises, and at the end exactly the positions 0..n-1 are claimed and
    the instance is not broken. *)
Theorem X15_in_order_all_run n :
  ∃ s, play (in_order n) new =
         Some (flat_map (λ i, block_results (Z.of_nat i)) (seq 0 n), s) ∧
       _broken s = false ∧
       ∀ k, k ∈ _claimed s ↔ (0 ≤ k < Z.of_nat n)%Z.
Proof.
  destruct (in_order_ready n) as (s & Hp & Hb & Hc & _). by exists s.
Qed.
